(** * mytorch: the reverse-mode automatic-differentiation core

    A shallow embedding of [mytorch/base.py], [mytorch/functions.py] and
    [mytorch/utils.py]: the Variable / Function object graph, the
    invocation protocol [Function.__call__], the backward rules of the
    shape-aware operations and the generation-ordered scheduler of
    [Variable.backward].

    Python objects live in a store and are referred to by their position
    in it (their identity); every Python function that allocates, reads
    or mutates objects is a computation in a state-and-exception monad
    over that store.  An exception leaves the store as it was when the
    exception was raised, as in Python.

    Array elements are modelled as integers: every kernel embedded here
    (ones, negation, addition, subtraction, multiplication, summation,
    broadcasting, transposition, reshaping) is exact on them, and rounding
    of floating-point numbers is outside the model.  The operations whose
    kernels need division, powers or transcendental functions (Div, Pow,
    Sum, MatMul, Linear, the activations and the loss) are not embedded. *)

From stdpp Require Import base numbers list sorting sets.

(** ** Exceptions

    The three Python exceptions the embedded code can raise (numpy's
    AxisError is a ValueError), and two outcomes that belong to the model
    only: [NoSuchObject] for a reference to an object that is not in the
    store, which no Python program can hold, and [OutOfFuel] for a loop
    that used up its iteration bound. *)
Inductive exn := TypeError | AttributeError | ValueError | NoSuchObject | OutOfFuel.

Inductive outcome (A : Type) : Type :=
  | Ok (a : A)
  | Raise (e : exn).
Arguments Ok {A} a.
Arguments Raise {A} e.

(** ** numpy arrays *)

Module Np.

(** A dense array: its shape and its elements in row-major order. *)
Record ndarray := { shape : list nat; elems : list Z }.

Definition ndim (a : ndarray) : nat := length (shape a).

(** Number of elements of an array of shape [s]. *)
Definition size_of (s : list nat) : nat := foldr Nat.mul 1 s.

(** All multi-indices of shape [s], in row-major order. *)
Fixpoint indices (s : list nat) : list (list nat) :=
  match s with
  | [] => [[]]
  | d :: s' => flat_map (fun i => map (cons i) (indices s')) (seq 0 d)
  end.

(** Row-major offset of the multi-index [idx] in shape [s]. *)
Fixpoint ravel (s idx : list nat) : nat :=
  match s, idx with
  | _ :: s', i :: idx' => i * size_of s' + ravel s' idx'
  | _, _ => 0
  end.

Definition item (a : ndarray) (idx : list nat) : Z :=
  nth (ravel (shape a) idx) (elems a) 0%Z.

(** The array of shape [s] whose element at [idx] is [f idx]. *)
Definition from_fun (s : list nat) (f : list nat -> Z) : ndarray :=
  {| shape := s; elems := map f (indices s) |}.

(** [np.ones(shape)] *)
Definition ones (s : list nat) : ndarray :=
  {| shape := s; elems := replicate (size_of s) 1%Z |}.

(** [np.array(z)] for a Python number: a 0-dimensional array. *)
Definition scalar (z : Z) : ndarray := {| shape := []; elems := [z] |}.

(** [-x] *)
Definition neg (a : ndarray) : ndarray :=
  {| shape := shape a; elems := map Z.opp (elems a) |}.

(** Broadcasting of two shapes, on the reversed shapes (trailing
    dimension first); [None] when numpy raises ValueError. *)
Fixpoint broadcast_rev (s t : list nat) : option (list nat) :=
  match s, t with
  | [], _ => Some t
  | _, [] => Some s
  | a :: s', b :: t' =>
      match broadcast_rev s' t' with
      | None => None
      | Some r =>
          if a =? b then Some (a :: r)
          else if a =? 1 then Some (b :: r)
          else if b =? 1 then Some (a :: r)
          else None
      end
  end.

Definition broadcast_shapes (s t : list nat) : option (list nat) :=
  match broadcast_rev (reverse s) (reverse t) with
  | Some r => Some (reverse r)
  | None => None
  end.

(** Whether shape [s] broadcasts to exactly shape [t] (reversed shapes). *)
Fixpoint can_broadcast_rev (s t : list nat) : bool :=
  match s, t with
  | [], _ => true
  | _ :: _, [] => false
  | a :: s', b :: t' => ((a =? b) || (a =? 1)) && can_broadcast_rev s' t'
  end.

(** The index read in an array of shape [s] for the index [j] of the
    array it is broadcast to: leading axes are dropped and an axis of
    length one is read at 0. *)
Definition source_index (s j : list nat) : list nat :=
  zip_with (fun d i => if d =? 1 then 0 else i) s (drop (length j - length s) j).

(** [np.broadcast_to(x, t)] *)
Definition broadcast_to (x : ndarray) (t : list nat) : outcome ndarray :=
  if can_broadcast_rev (reverse (shape x)) (reverse t)
  then Ok (from_fun t (fun j => item x (source_index (shape x) j)))
  else Raise ValueError.

(** An elementwise binary operation with broadcasting: [x0 + x1],
    [x0 - x1], [x0 * x1]. *)
Definition binop (f : Z -> Z -> Z) (a b : ndarray) : outcome ndarray :=
  match broadcast_shapes (shape a) (shape b) with
  | None => Raise ValueError
  | Some s =>
      Ok (from_fun s (fun j => f (item a (source_index (shape a) j))
                                  (item b (source_index (shape b) j))))
  end.

Definition add := binop Z.add.
Definition sub := binop Z.sub.
Definition mul := binop Z.mul.

(** numpy's axis normalisation: an axis [a] with [-nd <= a < nd] denotes
    axis [a mod nd]; anything else is an AxisError (a ValueError). *)
Definition normalize_axis (nd : nat) (a : Z) : option nat :=
  if bool_decide (- Z.of_nat nd <= a < Z.of_nat nd)%Z
  then Some (Z.to_nat (if bool_decide (a < 0)%Z then a + Z.of_nat nd else a)%Z)
  else None.

Fixpoint normalize_axes (nd : nat) (axes : list Z) : option (list nat) :=
  match axes with
  | [] => Some []
  | a :: axes' =>
      match normalize_axis nd a, normalize_axes nd axes' with
      | Some k, Some ks => Some (k :: ks)
      | _, _ => None
      end
  end.

(** [x.sum(axes, keepdims=True)] for a tuple of axes: the summed axes keep
    length one; a repeated axis is a ValueError. *)
Definition sum_keepdims (x : ndarray) (axes : list Z) : outcome ndarray :=
  match normalize_axes (ndim x) axes with
  | None => Raise ValueError
  | Some ax =>
      if bool_decide (NoDup ax) then
        let keeps (i j : list nat) : bool :=
          forallb (fun k => bool_decide (k ∈ ax) || bool_decide (i !! k = j !! k))
                  (seq 0 (ndim x)) in
        Ok (from_fun (imap (fun k d => if bool_decide (k ∈ ax) then 1 else d) (shape x))
                      (fun j => foldr Z.add 0%Z
                                  (item x <$> filter (fun i => keeps i j) (indices (shape x)))))
      else Raise ValueError
  end.

(** [y.squeeze(tuple(range(lead)))]: the [lead] first axes, which must
    have length one, are removed. *)
Definition squeeze_lead (y : ndarray) (lead : nat) : outcome ndarray :=
  if bool_decide (lead <= ndim y) && forallb (Nat.eqb 1) (take lead (shape y))
  then Ok {| shape := drop lead (shape y); elems := elems y |}
  else Raise ValueError.

(** [x.reshape(s)] for a tuple [s] of non-negative lengths. *)
Definition reshape (x : ndarray) (s : list nat) : outcome ndarray :=
  if size_of s =? size_of (shape x)
  then Ok {| shape := s; elems := elems x |}
  else Raise ValueError.

(** Position of [m] in [p] (the length of [p] when absent). *)
Fixpoint index_of (m : nat) (p : list nat) : nat :=
  match p with
  | [] => 0
  | k :: p' => if k =? m then 0 else S (index_of m p')
  end.

(** The permutation [x.transpose(axes)] uses: all axes reversed when
    [axes] is None, otherwise the normalised [axes], which must name
    every axis exactly once. *)
Definition transpose_perm (nd : nat) (axes : option (list Z)) : outcome (list nat) :=
  match axes with
  | None => Ok (reverse (seq 0 nd))
  | Some ax =>
      if length ax =? nd then
        match normalize_axes nd ax with
        | None => Raise ValueError
        | Some p => if bool_decide (NoDup p) then Ok p else Raise ValueError
        end
      else Raise ValueError
  end.

(** Axis [k] of the result of a transposition by [p] is axis [p !! k] of
    the argument. *)
Definition permute_shape (p : list nat) (s : list nat) : list nat :=
  (fun k => nth k s 0) <$> p.

(** [x.transpose(axes)] *)
Definition transpose (x : ndarray) (axes : option (list Z)) : outcome ndarray :=
  match transpose_perm (ndim x) axes with
  | Raise e => Raise e
  | Ok p =>
      Ok (from_fun (permute_shape p (shape x))
             (fun j => item x ((fun m => nth (index_of m p) j 0) <$> seq 0 (ndim x))))
  end.

(** A stable sort by an integer key, as Python's [list.sort(key=...)]:
    an element is inserted before the first entry whose key is not
    smaller, and the elements are inserted from the last to the first. *)
Fixpoint insert_by {A} (key : A -> Z) (x : A) (l : list A) : list A :=
  match l with
  | [] => [x]
  | y :: l' => if bool_decide (key x <= key y)%Z then x :: l else y :: insert_by key x l'
  end.

Definition sort_by {A} (key : A -> Z) (l : list A) : list A :=
  foldr (insert_by key) [] l.

(** [tuple(np.array(axes).argsort())]: the positions of [axes] ordered by
    the value found there.  Equal values are kept in their order; numpy
    leaves that case to the sorting algorithm, and a transposition that
    succeeded has no equal axes. *)
Definition argsort (axes : list Z) : list Z :=
  (fun p => Z.of_nat (fst p)) <$> sort_by snd (imap (fun i a => (i, a)) axes).

(** [utils.sum_to(x, shape)] *)
Definition sum_to (x : ndarray) (s : list nat) : outcome ndarray :=
  let ndim_ := length s in
  let lead := (Z.of_nat (ndim x) - Z.of_nat ndim_)%Z in
  let lead_axis := Z.of_nat <$> seq 0 (Z.to_nat lead) in
  let axis :=
    omap (fun p => if snd p =? 1 then Some (Z.of_nat (fst p) + lead)%Z else None)
         (imap (fun i sx => (i, sx)) s) in
  match sum_keepdims x (lead_axis ++ axis) with
  | Raise e => Raise e
  | Ok y => if bool_decide (0 < lead)%Z then squeeze_lead y (Z.to_nat lead) else Ok y
  end.

End Np.


(** ** Python values and the object store *)

(** The values that reach the embedded code: [None], a Python number, a
    numpy array, or a reference to a Variable object. *)
Inductive pyval :=
  | PyNone
  | PyFloat (z : Z)
  | PyArr (a : Np.ndarray)
  | PyVar (v : nat).

(** A [Variable] object.  [data] is None or an array ([__init__] admits
    nothing else); [grad] holds whatever was assigned to it; [creator] is
    None or a reference to a Function object.  The [name] attribute plays
    no part in differentiation and is left out. *)
Record PyVariable := {
  data : option Np.ndarray;
  grad : pyval;
  creator : option nat;
  generation : nat
}.

(** The Function subclasses embedded here, with their constructor
    arguments. *)
Inductive op :=
  | Add | Sub | Mul | Neg
  | Reshape (shape : list nat)
  | Transpose (axes : option (list Z))
  | BroadcastTo (shape : list nat)
  | SumTo (shape : list nat).

(** A [Function] object after a call that recorded the graph: the shapes
    its [forward] saved ([x0_shape], [x1_shape] or [x_shape]), its
    generation, its inputs and its outputs.  The outputs are weak
    references in Python; an output is alive whenever its creator is
    reached, so they are plain references here. *)
Record PyFunction := {
  fn_class : op;
  saved : list (list nat);
  fn_generation : nat;
  inputs : list nat;
  outputs : list nat
}.

(** The store: every Variable and Function object allocated so far, in
    allocation order, and the class attribute [Config.enable_backprop]. *)
Record store := {
  vars : list PyVariable;
  funcs : list PyFunction;
  enable_backprop : bool
}.

Definition empty_store : store :=
  {| vars := []; funcs := []; enable_backprop := true |}.

(** ** The monad of Python computations *)

Definition M (A : Type) : Type := store -> outcome A * store.

Definition ret {A} (a : A) : M A := fun h => (Ok a, h).

Definition raise {A} (e : exn) : M A := fun h => (Raise e, h).

Definition bind {A B} (m : M A) (k : A -> M B) : M B :=
  fun h => match m h with
           | (Ok a, h') => k a h'
           | (Raise e, h') => (Raise e, h')
           end.

Declare Scope py_scope.
Delimit Scope py_scope with py.
Notation "x <- m ;; k" := (bind m (fun x => k))
  (at level 100, m at next level, right associativity) : py_scope.
Notation "m ;;; k" := (bind m (fun _ => k))
  (at level 100, right associativity) : py_scope.
Open Scope py_scope.

(** A pure numpy kernel used inside a computation. *)
Definition lift {A} (r : outcome A) : M A := fun h => (r, h).

(** A list comprehension [[f(x) for x in l]]. *)
Fixpoint mmap {A B} (f : A -> M B) (l : list A) : M (list B) :=
  match l with
  | [] => ret []
  | x :: l' => y <- f x ;; ys <- mmap f l' ;; ret (y :: ys)
  end.

(** A [for] loop that threads a local value through its iterations. *)
Fixpoint mfold {A S} (f : A -> S -> M S) (l : list A) (s : S) : M S :=
  match l with
  | [] => ret s
  | x :: l' => s' <- f x s ;; mfold f l' s'
  end.

Definition get_var (v : nat) : M PyVariable :=
  fun h => match vars h !! v with
           | Some x => (Ok x, h)
           | None => (Raise NoSuchObject, h)
           end.

Definition get_func (f : nat) : M PyFunction :=
  fun h => match funcs h !! f with
           | Some x => (Ok x, h)
           | None => (Raise NoSuchObject, h)
           end.

Definition put_var (v : nat) (x : PyVariable) : M unit :=
  fun h => (Ok tt, {| vars := <[v := x]> (vars h); funcs := funcs h;
                      enable_backprop := enable_backprop h |}).

Definition alloc_var (x : PyVariable) : M nat :=
  fun h => (Ok (length (vars h)),
            {| vars := vars h ++ [x]; funcs := funcs h;
               enable_backprop := enable_backprop h |}).

Definition alloc_func (f : PyFunction) : M nat :=
  fun h => (Ok (length (funcs h)),
            {| vars := vars h; funcs := funcs h ++ [f];
               enable_backprop := enable_backprop h |}).

Definition get_store : M store := fun h => (Ok h, h).

(** ** Config *)

Definition set_enable_backprop (b : bool) (h : store) : store :=
  {| vars := vars h; funcs := funcs h; enable_backprop := b |}.

(** [with using_config("enable_backprop", value): body]; the old value is
    restored in the [finally] clause, also when [body] raises. *)
Definition using_config {A} (value : bool) (body : M A) : M A :=
  fun h =>
    let old_value := enable_backprop h in
    let (r, h') := body (set_enable_backprop value h) in
    (r, set_enable_backprop old_value h').

(** [with no_backward(): body] *)
Definition no_backward {A} (body : M A) : M A := using_config false body.

(** ** Variable *)

(** [Variable(data)]: data that is neither None nor an array is a
    TypeError. *)
Definition new_variable (d : pyval) : M nat :=
  match d with
  | PyNone => alloc_var {| data := None; grad := PyNone; creator := None; generation := 0 |}
  | PyArr a => alloc_var {| data := Some a; grad := PyNone; creator := None; generation := 0 |}
  | PyFloat _ | PyVar _ => raise TypeError
  end.

Definition set_grad (v : nat) (g : pyval) : M unit :=
  x <- get_var v ;;
  put_var v {| data := data x; grad := g; creator := creator x;
               generation := generation x |}.

(** [Variable.set_creator] *)
Definition set_creator (v : nat) (func : nat) : M unit :=
  x <- get_var v ;;
  f <- get_func func ;;
  put_var v {| data := data x; grad := grad x; creator := Some func;
               generation := fn_generation f + 1 |}.

(** [Variable.cleargrad] *)
Definition cleargrad (v : nat) : M unit := set_grad v PyNone.

(** [as_variable] *)
Definition as_variable (x : pyval) : M nat :=
  match x with
  | PyVar v => ret v
  | _ => new_variable x
  end.

(** [as_array]: [np.isscalar] holds of Python numbers only. *)
Definition as_array (x : pyval) : pyval :=
  match x with
  | PyFloat z => PyArr (Np.scalar z)
  | _ => x
  end.

(** The [shape] property of a Variable, and the [shape] attribute of any
    value: None and Python numbers have none. *)
Definition var_shape (v : nat) : M (list nat) :=
  x <- get_var v ;;
  match data x with
  | Some a => ret (Np.shape a)
  | None => raise AttributeError
  end.

Definition shape_of (x : pyval) : M (list nat) :=
  match x with
  | PyVar v => var_shape v
  | PyArr a => ret (Np.shape a)
  | PyNone | PyFloat _ => raise AttributeError
  end.

(** ** Function *)

(** The [forward] methods, on the raw [data] of the inputs.  The result is
    the output array and the shapes the method saves on [self].  A wrong
    number of arguments is a TypeError; an attribute read on None is an
    AttributeError; arithmetic on None is a TypeError (numpy raises it
    for every array that has an element). *)
Definition forward (o : op) (xs : list (option Np.ndarray))
  : outcome (Np.ndarray * list (list nat)) :=
  match o, xs with
  | Add, [x0; x1] =>
      match x0, x1 with
      | Some a, Some b =>
          match Np.add a b with
          | Ok y => Ok (y, [Np.shape a; Np.shape b])
          | Raise e => Raise e
          end
      | _, _ => Raise AttributeError
      end
  | Sub, [x0; x1] =>
      match x0, x1 with
      | Some a, Some b =>
          match Np.sub a b with
          | Ok y => Ok (y, [Np.shape a; Np.shape b])
          | Raise e => Raise e
          end
      | _, _ => Raise AttributeError
      end
  | Mul, [x0; x1] =>
      match x0, x1 with
      | Some a, Some b =>
          match Np.mul a b with
          | Ok y => Ok (y, [])
          | Raise e => Raise e
          end
      | _, _ => Raise TypeError
      end
  | Neg, [x] =>
      match x with
      | Some a => Ok (Np.neg a, [])
      | None => Raise TypeError
      end
  | Reshape s, [x] =>
      match x with
      | Some a =>
          match Np.reshape a s with
          | Ok y => Ok (y, [Np.shape a])
          | Raise e => Raise e
          end
      | None => Raise AttributeError
      end
  | Transpose axes, [x] =>
      match x with
      | Some a =>
          match Np.transpose a axes with
          | Ok y => Ok (y, [])
          | Raise e => Raise e
          end
      | None => Raise AttributeError
      end
  | BroadcastTo s, [x] =>
      match x with
      | Some a =>
          match Np.broadcast_to a s with
          | Ok y => Ok (y, [Np.shape a])
          | Raise e => Raise e
          end
      | None => Raise AttributeError
      end
  | SumTo s, [x] =>
      match x with
      | Some a =>
          match Np.sum_to a s with
          | Ok y => Ok (y, [Np.shape a])
          | Raise e => Raise e
          end
      | None => Raise AttributeError
      end
  | _, _ => Raise TypeError
  end.

(** [max(l)]: a ValueError on the empty list. *)
Definition py_max (l : list nat) : M nat :=
  match l with
  | [] => raise ValueError
  | _ => ret (max_list l)
  end.

(** [Function.__call__] on a fresh instance of the class [o].  The
    Function object enters the store when the graph is recorded; with
    [Config.enable_backprop] off nothing refers to it after the call. *)
Definition call (o : op) (args : list pyval) : M nat :=
  ins <- mmap as_variable args ;;
  xs <- mmap (fun x => xv <- get_var x ;; ret (data xv)) ins ;;
  ys <- lift (forward o xs) ;;
  output <- new_variable (as_array (PyArr (fst ys))) ;;
  h <- get_store ;;
  (if enable_backprop h then
     gens <- mmap (fun x => xv <- get_var x ;; ret (generation xv)) ins ;;
     g <- py_max gens ;;
     self <- alloc_func {| fn_class := o; saved := snd ys; fn_generation := g;
                           inputs := ins; outputs := [output] |} ;;
     set_creator output self
   else ret tt) ;;;
  ret output.

(** The module-level functions of [base.py]; the second operand goes
    through [as_array]. *)
Definition add (x0 x1 : pyval) : M nat := call Add [x0; as_array x1].
Definition sub (x0 x1 : pyval) : M nat := call Sub [x0; as_array x1].
Definition rsub (x0 x1 : pyval) : M nat := sub (as_array x1) x0.
Definition mul (x0 x1 : pyval) : M nat := call Mul [x0; as_array x1].
Definition neg (x : pyval) : M nat := call Neg [x].

(** The module-level functions of [functions.py]. *)
Definition reshape (x : pyval) (shape : list nat) : M nat :=
  s <- shape_of x ;;
  if bool_decide (s = shape) then as_variable x else call (Reshape shape) [x].

Definition transpose (x : pyval) (axes : option (list Z)) : M nat :=
  call (Transpose axes) [x].

Definition broadcast_to (x : pyval) (shape : list nat) : M nat :=
  s <- shape_of x ;;
  if bool_decide (s = shape) then as_variable x else call (BroadcastTo shape) [x].

Definition sum_to (x : pyval) (shape : list nat) : M nat :=
  s <- shape_of x ;;
  if bool_decide (s = shape) then as_variable x else call (SumTo shape) [x].

(** ** Operators on values

    [setup_operator] binds the operators of Variable to the functions
    above, and [__array_priority__] makes an array on the left defer to a
    Variable on the right.  Without a Variable operand the operator is
    numpy's or Python's own; with None it is a TypeError. *)

(** [-a] *)
Definition py_neg (a : pyval) : M pyval :=
  match a with
  | PyVar _ => r <- neg a ;; ret (PyVar r)
  | PyArr x => ret (PyArr (Np.neg x))
  | PyFloat z => ret (PyFloat (- z))
  | PyNone => raise TypeError
  end.

(** [a + b] *)
Definition py_add (a b : pyval) : M pyval :=
  match a, b with
  | PyVar _, _ => r <- add a b ;; ret (PyVar r)
  | _, PyVar _ => r <- add b a ;; ret (PyVar r)
  | PyArr x, PyArr y => r <- lift (Np.add x y) ;; ret (PyArr r)
  | PyArr x, PyFloat z => r <- lift (Np.add x (Np.scalar z)) ;; ret (PyArr r)
  | PyFloat z, PyArr y => r <- lift (Np.add (Np.scalar z) y) ;; ret (PyArr r)
  | PyFloat z, PyFloat w => ret (PyFloat (z + w))
  | _, _ => raise TypeError
  end.

(** [a * x] for a Variable [x] *)
Definition py_mul_var (a : pyval) (x : nat) : M pyval :=
  match a with
  | PyVar _ => r <- mul a (PyVar x) ;; ret (PyVar r)
  | _ => r <- mul (PyVar x) a ;; ret (PyVar r)
  end.

(** ** The backward rules

    [backward_rule self dys] is [self.backward( *dys)], with a single
    result turned into a one-element tuple as the scheduler does.  Every
    rule takes one gradient; another number of them is a TypeError.  A
    missing saved shape is an AttributeError, and unpacking [self.inputs]
    into the wrong number of names is a ValueError. *)
Definition backward_rule (self : PyFunction) (dys : list pyval) : M (list pyval) :=
  match dys with
  | [dy] =>
      match fn_class self with
      | Add =>
          match saved self with
          | [x0_shape; x1_shape] =>
              if bool_decide (x0_shape ≠ x1_shape) then
                dx0 <- sum_to dy x0_shape ;;
                dx1 <- sum_to dy x1_shape ;;
                ret [PyVar dx0; PyVar dx1]
              else ret [dy; dy]
          | _ => raise AttributeError
          end
      | Sub =>
          ndy <- py_neg dy ;;
          match saved self with
          | [x0_shape; x1_shape] =>
              if bool_decide (x0_shape ≠ x1_shape) then
                dx0 <- sum_to dy x0_shape ;;
                dx1 <- sum_to ndy x1_shape ;;
                ret [PyVar dx0; PyVar dx1]
              else ret [dy; ndy]
          | _ => raise AttributeError
          end
      | Mul =>
          match inputs self with
          | [x0; x1] =>
              dx0 <- py_mul_var dy x1 ;;
              dx1 <- py_mul_var dy x0 ;;
              s0 <- var_shape x0 ;;
              s1 <- var_shape x1 ;;
              if bool_decide (s0 ≠ s1) then
                dx0' <- sum_to dx0 s0 ;;
                dx1' <- sum_to dx1 s1 ;;
                ret [PyVar dx0'; PyVar dx1']
              else ret [dx0; dx1]
          | _ => raise ValueError
          end
      | Neg =>
          dx <- py_neg dy ;;
          r <- py_neg dx ;;
          ret [r]
      | Reshape _ =>
          match saved self with
          | [x_shape] => r <- reshape dy x_shape ;; ret [PyVar r]
          | _ => raise AttributeError
          end
      | Transpose axes =>
          match axes with
          | None => r <- transpose dy None ;; ret [PyVar r]
          | Some ax =>
              let inv_axes := Np.argsort ax in
              r <- transpose dy (Some inv_axes) ;; ret [PyVar r]
          end
      | BroadcastTo _ =>
          match saved self with
          | [x_shape] => dx <- sum_to dy x_shape ;; ret [PyVar dx]
          | _ => raise AttributeError
          end
      | SumTo _ =>
          match saved self with
          | [x_shape] => dx <- broadcast_to dy x_shape ;; ret [PyVar dx]
          | _ => raise AttributeError
          end
      end
  | _ => raise TypeError
  end.

(** ** The scheduler of [Variable.backward] *)

(** The local state of one [backward] call: the list [funcs], the set
    [seen_set], and (for the statements below only) the functions whose
    backward rule has been invoked, latest first. *)
Record sched := {
  worklist : list nat;
  seen_set : list nat;
  processed : list nat
}.

(** [add_func(f)].  [f] is [x.creator], possibly None: the scheduler never
    puts None into [seen_set] with success, so None is not in it, is
    appended to [funcs], and the sort key [x.generation] raises
    AttributeError on it. *)
Definition add_func (f : option nat) (s : sched) : M sched :=
  match f with
  | None => raise AttributeError
  | Some f =>
      if bool_decide (f ∈ seen_set s) then ret s
      else
        keyed <- mmap (fun g => gr <- get_func g ;; ret (g, fn_generation gr))
                      (worklist s ++ [f]) ;;
        ret {| worklist := fst <$> Np.sort_by (fun p => Z.of_nat (snd p)) keyed;
               seen_set := f :: seen_set s;
               processed := processed s |}
  end.

(** The body of [for x, dx in zip(f.inputs, dxs)]. *)
Definition accumulate (p : nat * pyval) (s : sched) : M sched :=
  let (x, dx) := p in
  xv <- get_var x ;;
  (match grad xv with
   | PyNone => set_grad x dx
   | g => r <- py_add g dx ;; set_grad x r
   end) ;;;
  xv <- get_var x ;;
  match creator xv with
  | Some c => add_func (Some c) s
  | None => ret s
  end.

(** [funcs.pop()] on a non-empty list: the last entry and the rest. *)
Definition pop {A} (l : list A) : option (A * list A) :=
  match reverse l with
  | [] => None
  | x :: r => Some (x, reverse r)
  end.

(** One iteration of [while funcs]. *)
Definition iteration (retain_grad : bool) (s : sched) : M sched :=
  match pop (worklist s) with
  | None => ret s
  | Some (f, rest) =>
      fr <- get_func f ;;
      dys <- mmap (fun y => yv <- get_var y ;; ret (grad yv)) (outputs fr) ;;
      dxs <- backward_rule fr dys ;;
      s' <- mfold accumulate (zip (inputs fr) dxs)
              {| worklist := rest; seen_set := seen_set s;
                 processed := f :: processed s |} ;;
      (if retain_grad then ret tt
       else mfold (fun y _ => set_grad y PyNone) (outputs fr) tt) ;;;
      ret s'
  end.

(** [while funcs: ...], at most [fuel] iterations. *)
Fixpoint backward_loop (fuel : nat) (retain_grad : bool) (s : sched) : M sched :=
  match worklist s with
  | [] => ret s
  | _ :: _ =>
      match fuel with
      | 0 => raise OutOfFuel
      | S fuel' => s' <- iteration retain_grad s ;; backward_loop fuel' retain_grad s'
      end
  end.

(** The statements of [backward] before the loop: the seed gradient and
    the first [add_func]. *)
Definition backward_init (v : nat) : M sched :=
  self <- get_var v ;;
  (match grad self with
   | PyNone =>
       match data self with
       | Some a => g <- new_variable (PyArr (Np.ones (Np.shape a))) ;; set_grad v (PyVar g)
       | None => raise AttributeError
       end
   | _ => ret tt
   end) ;;;
  add_func (creator self) {| worklist := []; seen_set := []; processed := [] |}.

(** [Variable.backward].  The loop is given as many iterations as there
    are Function objects when it starts: it handles each of them at most
    once and never one that a backward rule creates. *)
Definition backward_trace (v : nat) (retain_grad : bool) : M sched :=
  s <- backward_init v ;;
  h <- get_store ;;
  backward_loop (length (funcs h)) retain_grad s.

Definition backward (v : nat) (retain_grad : bool) : M unit :=
  backward_trace v retain_grad ;;; ret tt.

(** * Vocabulary of the statements *)

(** A computation all of whose runs take a store to an [R]-related one,
    whatever the outcome. *)
Definition preserves {A} (R : relation store) (m : M A) : Prop :=
  forall h r h', m h = (r, h') -> R h h'.

(** A Variable as [__init__] leaves it. *)
Definition leaf (x : PyVariable) : Prop :=
  grad x = PyNone /\ creator x = None /\ generation x = 0.

(** * The shape of the store after a call *)

Definition add_vars (ws : list PyVariable) (h : store) : store :=
  {| vars := vars h ++ ws; funcs := funcs h; enable_backprop := enable_backprop h |}.

Definition adds_leaves (h h' : store) : Prop :=
  exists ws, Forall leaf ws /\ h' = add_vars ws h.

Definition with_grad (g : pyval) (x : PyVariable) : PyVariable :=
  {| data := data x; grad := g; creator := creator x; generation := generation x |}.

Definition update_var (v : nat) (x : PyVariable) (h : store) : store :=
  {| vars := <[v := x]> (vars h); funcs := funcs h;
     enable_backprop := enable_backprop h |}.

(** The three ways a call can end: with an exception, having allocated
    at most Variables that no Function refers to; without recording the
    graph; or with the graph recorded. *)
Inductive call_result (o : op) (args : list pyval) (h : store)
  : outcome nat -> store -> Prop :=
  | call_raise e ws :
      Forall leaf ws ->
      call_result o args h (Raise e) (add_vars ws h)
  | call_untracked ws a :
      enable_backprop h = false ->
      Forall leaf ws ->
      call_result o args h (Ok (length (vars h ++ ws)))
        (add_vars (ws ++ [{| data := Some a; grad := PyNone; creator := None;
                             generation := 0 |}]) h)
  | call_tracked ws ins xvs a sv :
      enable_backprop h = true ->
      Forall leaf ws ->
      mmap as_variable args h = (Ok ins, add_vars ws h) ->
      mapM (fun x => (vars h ++ ws) !! x) ins = Some xvs ->
      ins <> [] ->
      forward o (data <$> xvs) = Ok (a, sv) ->
      call_result o args h (Ok (length (vars h ++ ws)))
        {| vars := vars h ++ ws ++
                   [{| data := Some a; grad := PyNone;
                       creator := Some (length (funcs h));
                       generation := max_list (generation <$> xvs) + 1 |}];
           funcs := funcs h ++
                    [{| fn_class := o; saved := sv;
                        fn_generation := max_list (generation <$> xvs);
                        inputs := ins; outputs := [length (vars h ++ ws)] |}];
           enable_backprop := true |}.

(** Number of inputs the [forward] method of a class takes. *)
Definition arity (o : op) : nat :=
  match o with
  | Add | Sub | Mul => 2
  | _ => 1
  end.

(** The graph that calls build: a creator lists its Variable as its only
    output and is one generation below it; the inputs of a Function are
    in the store and not above its generation; the outputs of a Function
    name it as their creator. *)
Record wf (h : store) : Prop := {
  wf_creator : forall v x c,
    vars h !! v = Some x -> creator x = Some c ->
    exists fr, funcs h !! c = Some fr /\ outputs fr = [v] /\
               generation x = fn_generation fr + 1;
  wf_inputs : forall f fr x,
    funcs h !! f = Some fr -> x ∈ inputs fr ->
    exists xv, vars h !! x = Some xv /\ generation xv <= fn_generation fr;
  wf_outputs : forall f fr y,
    funcs h !! f = Some fr -> y ∈ outputs fr ->
    exists yv, vars h !! y = Some yv /\ creator yv = Some f;
  wf_arity : forall f fr,
    funcs h !! f = Some fr -> length (inputs fr) = arity (fn_class fr)
}.

(** A computation that only allocates: the objects of the store stay as
    they are, new Variables have no gradient, and a well-formed graph
    stays well formed. *)
Record allocates (h h' : store) : Prop := {
  al_vars : vars h `prefix_of` vars h';
  al_funcs : funcs h `prefix_of` funcs h';
  al_enable : enable_backprop h' = enable_backprop h;
  al_wf : wf h -> wf h';
  al_fresh : forall v x,
    vars h' !! v = Some x -> length (vars h) <= v -> grad x = PyNone
}.

(** A computation that allocates and assigns gradients: the Function
    objects stay as they are, and a Variable keeps its data, its creator
    and its generation. *)
Record evolves (h h' : store) : Prop := {
  ev_vars : forall v x,
    vars h !! v = Some x ->
    exists x', vars h' !! v = Some x' /\ data x' = data x /\
               creator x' = creator x /\ generation x' = generation x;
  ev_funcs : funcs h `prefix_of` funcs h';
  ev_enable : enable_backprop h' = enable_backprop h;
  ev_wf : wf h -> wf h'
}.

Definition leaf_with (d : option Np.ndarray) : PyVariable :=
  {| data := d; grad := PyNone; creator := None; generation := 0 |}.


(** The store after a call that records the graph. *)
Definition tracked_store (o : op) (ins : list nat) (xvs : list PyVariable)
    (a : Np.ndarray) (sv : list (list nat)) (h : store) : store :=
  {| vars := vars h ++
             [{| data := Some a; grad := PyNone;
                 creator := Some (length (funcs h));
                 generation := max_list (generation <$> xvs) + 1 |}];
     funcs := funcs h ++
              [{| fn_class := o; saved := sv;
                  fn_generation := max_list (generation <$> xvs);
                  inputs := ins; outputs := [length (vars h)] |}];
     enable_backprop := enable_backprop h |}.


(** A program run from the empty store. *)
Definition run {A} (m : M A) : outcome A * store := m empty_store.


(** * Programs *)

(** The operations a program performs on the store. *)
Inductive action :=
  | NewVariable (d : pyval)
  | Call (o : op) (args : list pyval)
  | CallNoBackward (o : op) (args : list pyval)
  | Backward (v : nat) (retain_grad : bool)
  | ClearGrad (v : nat).

Definition perform (a : action) : M unit :=
  match a with
  | NewVariable d => new_variable d ;;; ret tt
  | Call o args => call o args ;;; ret tt
  | CallNoBackward o args => no_backward (call o args) ;;; ret tt
  | Backward v retain_grad => backward v retain_grad
  | ClearGrad v => cleargrad v
  end.

(** [later h h']: the store [h'] is reached from [h] by some sequence of
    operations, whatever their outcomes. *)
Inductive later : store -> store -> Prop :=
  | later_refl h : later h h
  | later_step h h1 a r h2 : later h h1 -> perform a h1 = (r, h2) -> later h h2.

(** The data of the Variable that [v.grad] refers to. *)
Definition grad_data (h : store) (v : nat) : option Np.ndarray :=
  match vars h !! v with
  | Some xv =>
      match grad xv with
      | PyVar g =>
          match vars h !! g with
          | Some gv => data gv
          | None => None
          end
      | _ => None
      end
  | None => None
  end.

(** The order of a list sorted by [key]. *)
Definition key_le {A} (key : A -> Z) (x y : A) : Prop := (key x <= key y)%Z.

(** The inverse of a permutation [p] of [0 .. length p - 1]. *)
Definition inverse_perm (p : list nat) : list nat :=
  (fun m => Np.index_of m p) <$> seq 0 (length p).

(** The axes [Transpose.backward] passes to [transpose]. *)
Definition backward_axes (axes : option (list Z)) : option (list Z) :=
  match axes with
  | None => None
  | Some ax => Some (Np.argsort ax)
  end.

(** Axes that are unspecified, or a permutation of [0 .. nd - 1] written
    with non-negative entries. *)
Definition plain_axes (nd : nat) (axes : option (list Z)) : Prop :=
  match axes with
  | None => True
  | Some ax => exists p, ax = Z.of_nat <$> p /\ p ≡ₚ seq 0 nd
  end.

(** * The scheduler *)

(** [f.generation] for the Function object [f] of the store. *)
Definition gen_of (h : store) (f : nat) : nat :=
  match funcs h !! f with
  | Some fr => fn_generation fr
  | None => 0
  end.

(** [reached v retain h s h']: the loop of [v.backward(retain)], started
    in the store [h], is at its head with the local state [s] and the
    store [h']. *)
Inductive reached (v : nat) (retain : bool) (h : store) : sched -> store -> Prop :=
  | reached_init s0 h0 :
      backward_init v h = (Ok s0, h0) -> reached v retain h s0 h0
  | reached_step s1 h1 s2 h2 :
      reached v retain h s1 h1 ->
      worklist s1 <> [] ->
      iteration retain s1 h1 = (Ok s2, h2) ->
      reached v retain h s2 h2.

(** The worklist is in the store and ordered by generation; no Function
    is twice in it or twice among the handled ones, none is in both, and
    all of them are in [seen_set]. *)
Record sched_ok (h : store) (s : sched) : Prop := {
  so_valid : Forall (fun f => is_Some (funcs h !! f)) (worklist s);
  so_sorted : StronglySorted (key_le (fun f => Z.of_nat (gen_of h f))) (worklist s);
  so_nodup_w : NoDup (worklist s);
  so_nodup_p : NoDup (processed s);
  so_seen_w : forall f, f ∈ worklist s -> f ∈ seen_set s;
  so_seen_p : forall f, f ∈ processed s -> f ∈ seen_set s;
  so_disjoint : forall f, f ∈ worklist s -> f ∉ processed s
}.

(** The store after [a = neg(x)], [b = neg(x)], [z = a + b] for a leaf
    [x]: the Variables are [x], [a], [b], [z] in this order. *)
Definition two_negs_store : store :=
  snd (run (x <- new_variable (PyArr (Np.ones [2])) ;;
            a <- neg (PyVar x) ;;
            b <- neg (PyVar x) ;;
            add (PyVar a) (PyVar b))).

(** * Gradients *)

(** A value that is a reference to a Variable of the store, and a value
    that is None or such a reference. *)
Definition is_node (h : store) (g : pyval) : Prop :=
  exists v, g = PyVar v /\ v < length (vars h).

Definition none_or_node (h : store) (g : pyval) : Prop :=
  g = PyNone \/ is_node h g.

(** Every [grad] attribute is None or a Variable. *)
Definition grads_are_nodes (h : store) : Prop :=
  forall v x, vars h !! v = Some x -> none_or_node h (grad x).

(** The relation of the stores before and after a computation that keeps
    a property of the store. *)
Definition keeps (P : store -> Prop) : relation store := fun h h' => P h -> P h'.

(** Gradients are None or Variables, and the store has not shrunk below
    [h0]. *)
Definition nodes_from (h0 h : store) : Prop :=
  grads_are_nodes h /\ length (vars h0) <= length (vars h).

(** * The pass over the graph *)

(** Attributes of the objects of a store, by reference. *)
Definition the_grad (h : store) (x : nat) : pyval :=
  match vars h !! x with
  | Some xv => grad xv
  | None => PyNone
  end.

Definition the_creator (h : store) (x : nat) : option nat :=
  match vars h !! x with
  | Some xv => creator xv
  | None => None
  end.

Definition ins (h : store) (f : nat) : list nat :=
  match funcs h !! f with
  | Some fr => inputs fr
  | None => []
  end.

Definition outs (h : store) (f : nat) : list nat :=
  match funcs h !! f with
  | Some fr => outputs fr
  | None => []
  end.

(** [ancestor h y x]: the Variable [x] is [y] or is reached from [y]
    through creators and their inputs; these are the Variables that the
    pass started at [y] visits. *)
Inductive ancestor (h : store) (y : nat) : nat -> Prop :=
  | ancestor_self : ancestor h y y
  | ancestor_input z f x :
      ancestor h y z -> the_creator h z = Some f -> x ∈ ins h f -> ancestor h y x.

(** The inputs of the handled Function [f] that the pass has dealt with:
    all of them, or those in [done] while [f] is the Function at hand. *)
Definition handled (hb : store) (cur : option nat) (done : list nat) (f : nat)
  : list nat :=
  if bool_decide (cur = Some f) then done else ins hb f.

(** The state of a pass without retained gradients over the graph of the
    store [hb], started at a Variable whose creator is [f0]; [cur] is the
    Function whose inputs are being dealt with, if any. *)
Record pass_inv (hb : store) (f0 : nat) (cur : option nat) (done : list nat)
    (h : store) (s : sched) : Prop := {
  pi_evolves : evolves hb h;
  pi_seed : f0 ∈ seen_set s;
  pi_valid : forall f, f ∈ seen_set s -> is_Some (funcs hb !! f);
  pi_seen : forall f, f ∈ seen_set s -> f ∈ worklist s \/ f ∈ processed s;
  pi_order : forall f g,
    f ∈ processed s -> g ∈ worklist s -> gen_of hb g <= gen_of hb f;
  pi_cur : forall c, cur = Some c -> c ∈ processed s;
  pi_cur_low : forall c f,
    cur = Some c -> f ∈ processed s -> gen_of hb c <= gen_of hb f;
  pi_cleared : forall f x,
    f ∈ processed s -> cur <> Some f -> x ∈ outs hb f -> the_grad h x = PyNone;
  pi_closed : forall f x c,
    f ∈ processed s -> x ∈ handled hb cur done f -> the_creator hb x = Some c ->
    c ∈ seen_set s;
  pi_leaves : forall f x,
    f ∈ processed s -> x ∈ handled hb cur done f -> the_creator hb x = None ->
    the_grad h x <> PyNone;
  pi_pending : forall g x,
    g ∈ worklist s -> x ∈ outs hb g -> the_grad h x <> PyNone
}.

(** * Two runs over the same graph *)

(** Two Variables, each in its store, with the same data. *)
Definition same_data (h h' : store) (a a' : nat) : Prop :=
  exists x x', vars h !! a = Some x /\ vars h' !! a' = Some x' /\ data x = data x'.

(** Two gradients that are both None or Variables with the same data. *)
Definition same_val (h h' : store) (g g' : pyval) : Prop :=
  match g, g' with
  | PyNone, PyNone => True
  | PyVar a, PyVar a' => same_data h h' a a'
  | _, _ => False
  end.

(** Two stores that extend the graph of [hb] and give its Variables
    gradients with the same data. *)
Record same_graph (hb h h' : store) : Prop := {
  sg_left : evolves hb h;
  sg_right : evolves hb h';
  sg_grads : forall v, v < length (vars hb) ->
    same_val h h' (the_grad h v) (the_grad h' v)
}.

(** A relation of two stores that further computations keep. *)
Definition stable (P : store -> store -> Prop) : Prop :=
  forall h h' h1 h1', P h h' -> evolves h h1 -> evolves h' h1' -> P h1 h1'.

(** [sim hb P Q m1 m2]: from stores over the graph of [hb] that [P]
    relates, whenever [m1] returns, [m2] returns too, in stores over the
    same graph and with results that [Q] relates. *)
Definition sim {A} (hb : store) (P : store -> store -> Prop)
    (Q : A -> A -> store -> store -> Prop) (m1 m2 : M A) : Prop :=
  forall h h' a h1,
    same_graph hb h h' -> P h h' -> m1 h = (Ok a, h1) ->
    exists a' h1', m2 h' = (Ok a', h1') /\ same_graph hb h1 h1' /\
                   evolves h h1 /\ evolves h' h1' /\ Q a a' h1 h1'.

(** The Functions of a list are in the store [hb]. *)
Definition valid_funcs (hb : store) (l : list nat) : Prop :=
  Forall (fun f => is_Some (funcs hb !! f)) l.

(** The store after [y = neg(x)] for a leaf [x] with data [[1, 1]]: the
    Variables are [x] and [y]; and the store after [y.backward(True)],
    [y.cleargrad()] and [x.cleargrad()] in it. *)
Definition neg_store : store :=
  snd (run (x <- new_variable (PyArr (Np.ones [2])) ;; neg (PyVar x))).

Definition neg_store_cleared : store :=
  snd ((backward 1 true ;;; cleargrad 1 ;;; cleargrad 0) neg_store).
(** * Vocabulary of the further properties *)

(** An array whose list of elements has the length its shape asks for. *)
Definition array_ok (a : Np.ndarray) : Prop :=
  length (Np.elems a) = Np.size_of (Np.shape a).

(** The array of the shape of [a] whose elements are those of [a] and
    [b] combined by [f], position by position. *)
Definition zip_array (f : Z -> Z -> Z) (a b : Np.ndarray) : Np.ndarray :=
  {| Np.shape := Np.shape a; Np.elems := zip_with f (Np.elems a) (Np.elems b) |}.

(** The array [a] with [f] applied to each element. *)
Definition map_array (f : Z -> Z) (a : Np.ndarray) : Np.ndarray :=
  {| Np.shape := Np.shape a; Np.elems := f <$> Np.elems a |}.

(** A Variable of the store that holds the array [a] and has neither
    gradient nor creator. *)
Definition leaf_at (h : store) (x : nat) (a : Np.ndarray) : Prop :=
  exists xv, vars h !! x = Some xv /\ data xv = Some a /\
             grad xv = PyNone /\ creator xv = None.

(** The [data] of the Variable [x] of the store. *)
Definition data_at (h : store) (x : nat) : option Np.ndarray :=
  match vars h !! x with
  | Some xv => data xv
  | None => None
  end.

(** A store with two leaves that hold [[1, 1]] and [[2, 3]]. *)
Definition two_leaves_store : store :=
  snd (run (new_variable (PyArr (Np.ones [2])) ;;;
            new_variable (PyArr {| Np.shape := [2]; Np.elems := [2; 3]%Z |}))).

(** The axes of [x] that [utils.sum_to(x, s)] sums besides the [lead]
    leading ones: those that face a length one in [s]. *)
Definition sum_to_axes (lead : nat) (s : list nat) : list nat :=
  omap (fun p : nat * nat => if snd p =? 1 then Some (fst p + lead) else None)
       (imap (fun i sx => (i, sx)) s).

(** The shape of [utils.sum_to(x, s)] for [x] of shape [xs]: [s] decides
    which of the trailing axes of [x] are summed to length one, and the
    other axes keep the length they have in [x]. *)
Definition sum_to_shape (s xs : list nat) : list nat :=
  zip_with (fun sx d => if sx =? 1 then 1 else d) s (drop (length xs - length s) xs).

(** A computation that never ends in the exception [e]. *)
Definition never {A} (e : exn) (m : M A) : Prop :=
  forall h h', m h <> (Raise e, h').

(** What the termination of the loop of [backward] rests on: the store
    extends the graph of [hb], every Function seen so far is a Function of
    [hb], and the scheduler state is well formed. *)
Record loop_inv (hb h : store) (s : sched) : Prop := {
  li_evolves : evolves hb h;
  li_seen : valid_funcs hb (seen_set s);
  li_sched : sched_ok h s
}.

(** With gradient tracking off at the start, a computation records no
    Function and leaves tracking off. *)
Definition records_nothing (h h' : store) : Prop :=
  enable_backprop h = false -> funcs h' = funcs h /\ enable_backprop h' = false.

(** A computation that leaves the Variables outside [T] as they are. *)
Definition touches_only (T : nat -> Prop) (h h' : store) : Prop :=
  forall v xv, ~ T v -> vars h !! v = Some xv -> vars h' !! v = Some xv.

(** Every Function of the list is the creator of an ancestor of [y]. *)
Definition from_ancestors (hb : store) (y : nat) (l : list nat) : Prop :=
  forall f, f ∈ l -> exists z, ancestor hb y z /\ the_creator hb z = Some f.

(** The store after [z = neg(x)] for a leaf [x], beside a leaf [w] that
    [z] does not depend on: the Variables are [x], [w] and [z]. *)
Definition bystander_store : store :=
  snd (run (x <- new_variable (PyArr (Np.ones [2])) ;;
            new_variable (PyArr (Np.ones [3])) ;;;
            neg (PyVar x))).

(** The state of a pass with retained gradients over the graph of the
    store [hb], started at [y]; [cur] is the Function whose inputs are
    being dealt with, if any, and [done] those already dealt with. *)
Record keep_inv (hb : store) (y : nat) (cur : option nat) (done : list nat)
    (h : store) (s : sched) : Prop := {
  ki_evolves : evolves hb h;
  ki_kept : forall v, the_grad hb v <> PyNone -> the_grad h v <> PyNone;
  ki_seed : the_grad h y <> PyNone;
  ki_root : forall c, the_creator hb y = Some c -> c ∈ seen_set s;
  ki_seen : forall f, f ∈ seen_set s -> f ∈ worklist s \/ f ∈ processed s;
  ki_done : forall f x,
    f ∈ processed s -> x ∈ handled hb cur done f ->
    the_grad h x <> PyNone /\
    forall c, the_creator hb x = Some c -> c ∈ seen_set s;
  ki_pending : forall g x,
    g ∈ worklist s -> x ∈ outs hb g -> the_grad h x <> PyNone
}.

(** A shape [s] fits the shape [t] it was broadcast to: [t] has no fewer
    axes, and every axis of [s] has length one or the length of the axis
    of [t] it faces. *)
Definition fits (s t : list nat) : Prop :=
  length s <= length t /\
  Forall2 (fun sx d => sx = 1 \/ sx = d) s (drop (length t - length s) t).

(** A store with two leaves of shapes [(2, 3)] and [(3,)], all ones. *)
Definition broadcast_leaves_store : store :=
  snd (run (new_variable (PyArr (Np.ones [2; 3])) ;;;
            new_variable (PyArr (Np.ones [3])))).
(** * Reasoning about computations *)

Lemma bind_inv {A B} (m : M A) (k : A -> M B) h r h' :
  bind m k h = (r, h') ->
  (exists a h1, m h = (Ok a, h1) /\ k a h1 = (r, h')) \/
  (exists e, m h = (Raise e, h') /\ r = Raise e).
Proof.
  unfold bind. destruct (m h) as [[a|e] h1]; intros H.
  - left. eauto.
  - right. inversion H; subst. eauto.
Qed.

Lemma bind_ok {A B} (m : M A) (k : A -> M B) h a h1 :
  m h = (Ok a, h1) -> bind m k h = k a h1.
Proof. unfold bind. intros ->. done. Qed.

Lemma bind_raise {A B} (m : M A) (k : A -> M B) h e h1 :
  m h = (Raise e, h1) -> bind m k h = (Raise e, h1).
Proof. unfold bind. intros ->. done. Qed.

(** Splits a run of a [bind] in a hypothesis into the run of its first
    computation and the run of the rest. *)
Ltac inv_bind H :=
  let a := fresh "a" in
  let h1 := fresh "h" in
  let E := fresh "E" in
  let e := fresh "e" in
  let Hr := fresh "Hr" in
  apply bind_inv in H as [(a & h1 & E & H) | (e & E & Hr)]; [ | simplify_eq ].

(** Runs of the primitive computations. *)
Ltac inv_prim H :=
  first
    [ progress unfold ret, raise, lift, get_store in H
    | progress unfold get_var in H
    | progress unfold get_func in H
    | progress unfold put_var, alloc_var, alloc_func in H ];
  repeat match type of H with
         | context [match ?x with _ => _ end] => destruct x eqn:?
         end;
  simplify_eq.

Section Preserves.
Context (R : relation store) `{!PreOrder R}.

Lemma preserves_ret {A} (a : A) : preserves R (ret a).
Proof. intros h r h' H. inv_prim H. reflexivity. Qed.

Lemma preserves_raise {A} e : preserves R (@raise A e).
Proof. intros h r h' H. inv_prim H. reflexivity. Qed.

Lemma preserves_lift {A} (o : outcome A) : preserves R (lift o).
Proof. intros h r h' H. inv_prim H. reflexivity. Qed.

Lemma preserves_get_store : preserves R get_store.
Proof. intros h r h' H. inv_prim H. reflexivity. Qed.

Lemma preserves_get_var v : preserves R (get_var v).
Proof. intros h r h' H. inv_prim H; reflexivity. Qed.

Lemma preserves_get_func f : preserves R (get_func f).
Proof. intros h r h' H. inv_prim H; reflexivity. Qed.

Lemma preserves_bind {A B} (m : M A) (k : A -> M B) :
  preserves R m -> (forall a, preserves R (k a)) -> preserves R (bind m k).
Proof.
  intros Hm Hk h r h' H. inv_bind H.
  - etransitivity; [eapply Hm | eapply Hk]; eauto.
  - eapply Hm; eauto.
Qed.

Lemma preserves_mmap {A B} (f : A -> M B) l :
  (forall x, preserves R (f x)) -> preserves R (mmap f l).
Proof.
  intros Hf. induction l as [|x l IH]; cbn [mmap].
  - apply preserves_ret.
  - apply preserves_bind; [apply Hf|]. intros y.
    apply preserves_bind; [apply IH|]. intros ys. apply preserves_ret.
Qed.

Lemma preserves_mfold {A S} (f : A -> S -> M S) l s :
  (forall x s, preserves R (f x s)) -> preserves R (mfold f l s).
Proof.
  intros Hf. revert s. induction l as [|x l IH]; intros s; cbn [mfold].
  - apply preserves_ret.
  - apply preserves_bind; [apply Hf|]. intros s'. apply IH.
Qed.
End Preserves.

(** Breaks a goal [preserves R m] along the structure of [m]. *)
Ltac pres_step :=
  match goal with
  | |- preserves _ (bind _ _) => apply preserves_bind; [ apply _ | | intros ? ]
  | |- preserves _ (ret _) => apply preserves_ret; apply _
  | |- preserves _ (raise _) => apply preserves_raise; apply _
  | |- preserves _ (lift _) => apply preserves_lift; apply _
  | |- preserves _ get_store => apply preserves_get_store; apply _
  | |- preserves _ (get_var _) => apply preserves_get_var; apply _
  | |- preserves _ (get_func _) => apply preserves_get_func; apply _
  | |- preserves _ (mmap _ _) => apply preserves_mmap; [ apply _ | intros ? ]
  | |- preserves _ (mfold _ _ _) => apply preserves_mfold; [ apply _ | intros ? ? ]
  | |- preserves _ (match ?x with _ => _ end) => destruct x
  | |- preserves _ (let (_, _) := ?x in _) => destruct x
  end.

#[global] Instance adds_leaves_preorder : PreOrder adds_leaves.
Proof.
  split.
  - intros [vs fs e]. exists []. split; [constructor|].
    unfold add_vars; cbn. by rewrite app_nil_r.
  - intros h1 h2 h3 (ws & Hws & ->) (ws' & Hws' & ->).
    exists (ws ++ ws'). split; [by apply Forall_app|].
    unfold add_vars; cbn. by rewrite app_assoc.
Qed.

Lemma new_variable_adds_leaves d : preserves adds_leaves (new_variable d).
Proof.
  intros h r h' H. destruct d; cbn in H; inv_prim H; try reflexivity.
  - eexists [_]. split; [|reflexivity]. by repeat constructor.
  - eexists [_]. split; [|reflexivity]. by repeat constructor.
Qed.

Lemma as_variable_adds_leaves x : preserves adds_leaves (as_variable x).
Proof.
  destruct x; cbn [as_variable]; try apply new_variable_adds_leaves.
  apply preserves_ret; apply _.
Qed.

(** Reading an attribute of each Variable of a list. *)
Lemma mmap_read {B} (F : PyVariable -> B) (l : list nat) (h : store) :
  mmap (fun x => xv <- get_var x ;; ret (F xv)) l h =
  match mapM (fun x => vars h !! x) l with
  | Some xvs => (Ok (F <$> xvs), h)
  | None => (Raise NoSuchObject, h)
  end.
Proof.
  induction l as [|x l IH]; cbn [mmap]; [done|].
  unfold bind at 1. unfold bind at 1. unfold get_var at 1.
  cbn [mapM]. destruct (vars h !! x) as [xv|] eqn:E; cbn; [|done].
  unfold bind at 1. rewrite IH.
  destruct (mapM _ l); cbn; done.
Qed.

(** Runs of the accessors on objects that are in the store. *)
Lemma get_var_ok v h x : vars h !! v = Some x -> get_var v h = (Ok x, h).
Proof. unfold get_var. by intros ->. Qed.

Lemma get_func_ok f h x : funcs h !! f = Some x -> get_func f h = (Ok x, h).
Proof. unfold get_func. by intros ->. Qed.

Lemma get_var_inv v h r h' :
  get_var v h = (r, h') ->
  h' = h /\ ((exists x, vars h !! v = Some x /\ r = Ok x) \/
             (vars h !! v = None /\ r = Raise NoSuchObject)).
Proof. unfold get_var. destruct (vars h !! v); intros; simplify_eq; eauto. Qed.

Lemma get_func_inv f h r h' :
  get_func f h = (r, h') ->
  h' = h /\ ((exists x, funcs h !! f = Some x /\ r = Ok x) \/
             (funcs h !! f = None /\ r = Raise NoSuchObject)).
Proof. unfold get_func. destruct (funcs h !! f); intros; simplify_eq; eauto. Qed.

Lemma set_grad_ok v g h x :
  vars h !! v = Some x -> set_grad v g h = (Ok tt, update_var v (with_grad g x) h).
Proof. intros Hx. unfold set_grad. by rewrite (bind_ok _ _ _ _ _ (get_var_ok _ _ _ Hx)). Qed.

Lemma set_grad_inv v g h r h' :
  set_grad v g h = (r, h') ->
  (exists x, vars h !! v = Some x /\ r = Ok tt /\ h' = update_var v (with_grad g x) h) \/
  (vars h !! v = None /\ r = Raise NoSuchObject /\ h' = h).
Proof.
  destruct (vars h !! v) as [x|] eqn:Hx.
  - rewrite (set_grad_ok _ _ _ _ Hx). intros; simplify_eq; eauto.
  - unfold set_grad, bind, get_var. rewrite Hx. intros; simplify_eq; eauto.
Qed.

Lemma set_creator_ok v f h x fr :
  vars h !! v = Some x -> funcs h !! f = Some fr ->
  set_creator v f h =
  (Ok tt, update_var v {| data := data x; grad := grad x; creator := Some f;
                          generation := fn_generation fr + 1 |} h).
Proof.
  intros Hx Hf. unfold set_creator.
  rewrite (bind_ok _ _ _ _ _ (get_var_ok _ _ _ Hx)).
  by rewrite (bind_ok _ _ _ _ _ (get_func_ok _ _ _ Hf)).
Qed.

Lemma lookup_snoc_length {A} (l : list A) (x : A) : (l ++ [x]) !! length l = Some x.
Proof. by apply list_lookup_middle. Qed.

Lemma insert_snoc_length {A} (l : list A) (x y : A) :
  <[length l := y]> (l ++ [x]) = l ++ [y].
Proof. rewrite insert_app_r_alt by lia. by rewrite Nat.sub_diag. Qed.

Lemma mapM_lookup_app {A} (l l' : list A) (ins : list nat) xs :
  mapM (fun x => l !! x) ins = Some xs ->
  mapM (fun x => (l ++ l') !! x) ins = Some xs.
Proof.
  rewrite !mapM_Some. intros H. eapply Forall2_impl; [exact H|].
  cbn. intros x y Hx. by apply lookup_app_l_Some.
Qed.

Lemma call_inv o args h r h' : call o args h = (r, h') -> call_result o args h r h'.
Proof.
  unfold call. intros H.
  inv_bind H; cycle 1.
  { apply (preserves_mmap adds_leaves) in E as (ws & Hws & ->);
      [by constructor | intros; apply as_variable_adds_leaves]. }
  pose proof E as Hins.
  apply (preserves_mmap adds_leaves) in E as (ws & Hws & ->);
    [| intros; apply as_variable_adds_leaves].
  unfold bind at 1 in H. rewrite mmap_read in H.
  destruct (mapM _ a) as [xvs|] eqn:Hxvs; [|simplify_eq; by constructor].
  unfold bind at 1 in H. unfold lift at 1 in H.
  destruct (forward o (data <$> xvs)) as [[y sv]|e] eqn:Hfw;
    [|simplify_eq; by constructor].
  cbn [fst snd as_array new_variable] in H.
  unfold bind at 1 in H. unfold alloc_var at 1 in H.
  unfold bind at 1 in H. unfold get_store at 1 in H. cbn [enable_backprop add_vars] in H.
  cbn [add_vars vars funcs] in *.
  destruct (enable_backprop h) eqn:Hen; cycle 1.
  { unfold bind, ret in H. simplify_eq.
    pose proof (call_untracked o args h ws y Hen Hws) as C.
    unfold add_vars in C. rewrite Hen, app_assoc in C. exact C. }
  unfold bind at 1 in H. unfold bind at 1 in H. rewrite mmap_read in H.
  cbn [vars] in H. rewrite (mapM_lookup_app _ _ _ _ Hxvs) in H.
  unfold bind at 1 in H. unfold py_max in H.
  destruct (generation <$> xvs) as [|g0 gs] eqn:Hg.
  { unfold bind, raise in H. simplify_eq.
    pose proof (call_raise o args h ValueError (ws ++ [{| data := Some y; grad := PyNone; creator := None; generation := 0 |}])) as C.
    unfold add_vars in C. rewrite Hen, app_assoc in C. apply C.
    apply Forall_app; split; [done|]. by repeat constructor. }
  rewrite <- Hg in H.
  unfold ret at 1 in H. unfold bind at 1 in H. unfold alloc_func at 1 in H.
  cbn [vars funcs enable_backprop] in H.
  erewrite set_creator_ok in H;
    [| cbn [vars]; apply lookup_snoc_length | cbn [funcs]; apply lookup_snoc_length].
  unfold update_var in H. cbn [vars funcs enable_backprop data grad fn_generation] in H.
  rewrite insert_snoc_length in H. unfold ret in H. simplify_eq.
  rewrite <- (app_assoc (vars h)).
  eapply call_tracked; eauto. intros ->.
  apply mapM_Some, Forall2_nil_inv_l in Hxvs. by subst.
Qed.

(** * Well-formed graphs *)

Lemma wf_empty : wf empty_store.
Proof. split; cbn; intros; simplify_eq. Qed.

Lemma forward_arity o xs r : forward o xs = Ok r -> length xs = arity o.
Proof.
  destruct o; cbn; intros H;
    repeat (destruct xs as [|? xs]; try discriminate); done.
Qed.

#[global] Instance allocates_preorder : PreOrder allocates.
Proof.
  split.
  - intros h. split; try done. intros v x Hv Hle.
    apply lookup_lt_Some in Hv. lia.
  - intros h1 h2 h3 [V1 F1 E1 W1 N1] [V2 F2 E2 W2 N2]. split.
    + by etransitivity.
    + by etransitivity.
    + congruence.
    + auto.
    + intros v x Hv Hle. destruct (decide (v < length (vars h2))) as [Hlt|Hge].
      * eapply N1; [|done]. destruct V2 as [k Hk].
        by rewrite Hk, lookup_app_l in Hv.
      * eapply N2; [done|]. apply prefix_length in V1. lia.
Qed.

Lemma wf_add_leaves ws h : Forall leaf ws -> wf h -> wf (add_vars ws h).
Proof.
  intros Hws [Hc Hi Ho Ha]. split; cbn [add_vars vars funcs].
  - intros v x c Hv Hcr. apply lookup_app_Some in Hv as [Hv|[_ Hv]]; [eauto|].
    apply list_elem_of_lookup_2 in Hv.
    rewrite Forall_forall in Hws. destruct (Hws _ Hv) as (_ & Hn & _). congruence.
  - intros f fr x Hf Hx. destruct (Hi _ _ _ Hf Hx) as (xv & Hxv & Hg).
    exists xv. split; [by apply lookup_app_l_Some|done].
  - intros f fr y Hf Hy. destruct (Ho _ _ _ Hf Hy) as (yv & Hyv & Hcr).
    exists yv. split; [by apply lookup_app_l_Some|done].
  - eauto.
Qed.

Lemma adds_leaves_allocates h h' : adds_leaves h h' -> allocates h h'.
Proof.
  intros (ws & Hws & ->). split; cbn [add_vars vars funcs enable_backprop]; try done.
  - by apply prefix_app_r.
  - by apply wf_add_leaves.
  - intros v x Hv Hle. rewrite lookup_app_r in Hv by done.
    apply list_elem_of_lookup_2 in Hv. rewrite Forall_forall in Hws.
    by destruct (Hws _ Hv).
Qed.

Lemma max_list_elem_le (l : list nat) x : x ∈ l -> x <= max_list l.
Proof. induction 1; cbn; lia. Qed.

Lemma call_allocates o args : preserves allocates (call o args).
Proof.
  intros h r h' H. apply call_inv in H.
  destruct H as [e ws Hws | ws a Hen Hws | ws ins xvs a sv Hen Hws Hins Hxvs Hne Hfw].
  - apply adds_leaves_allocates. by exists ws.
  - apply adds_leaves_allocates. eexists. split; [|done].
    apply Forall_app. split; [done|]. by repeat constructor.
  - set (g := max_list (generation <$> xvs)).
    set (out := length (vars h ++ ws)).
    split; cbn [vars funcs enable_backprop].
    + by apply prefix_app_r.
    + by apply prefix_app_r.
    + done.
    + intros Hwf. apply (wf_add_leaves ws) in Hwf; [|done].
      destruct Hwf as [Hc Hi Ho Ha]. cbn [add_vars vars funcs] in *.
      rewrite app_assoc. fold out.
      split; cbn [vars funcs].
      * intros v x c Hv Hcr. apply lookup_snoc_Some in Hv as [[_ Hv]|[-> <-]].
        -- destruct (Hc _ _ _ Hv Hcr) as (fr & Hfr & ? & ?).
           exists fr. split; [by apply lookup_app_l_Some|done].
        -- cbn in Hcr. simplify_eq. eexists. split; [apply lookup_snoc_length|].
           cbn. done.
      * intros f fr x Hf Hx. apply lookup_snoc_Some in Hf as [[_ Hf]|[-> <-]].
        -- destruct (Hi _ _ _ Hf Hx) as (xv & Hxv & Hg).
           exists xv. split; [by apply lookup_app_l_Some|done].
        -- cbn in Hx. cbn [fn_generation].
           apply mapM_Some in Hxvs.
           apply list_elem_of_lookup in Hx as [i Hi'].
           destruct (Forall2_lookup_l _ _ _ _ _ Hxvs Hi') as (xv & Hxv & Hl).
           exists xv. split; [by apply lookup_app_l_Some|].
           apply max_list_elem_le. apply list_elem_of_fmap. exists xv.
           split; [done|]. by eapply list_elem_of_lookup_2.
      * intros f fr y Hf Hy. apply lookup_snoc_Some in Hf as [[_ Hf]|[-> <-]].
        -- destruct (Ho _ _ _ Hf Hy) as (yv & Hyv & Hcr).
           exists yv. split; [by apply lookup_app_l_Some|done].
        -- cbn in Hy. apply list_elem_of_singleton in Hy as ->.
           eexists. split; [apply lookup_snoc_length|done].
      * intros f fr Hf. apply lookup_snoc_Some in Hf as [[_ Hf]|[-> <-]]; [eauto|].
        cbn. apply forward_arity in Hfw. rewrite length_fmap in Hfw.
        apply mapM_Some, Forall2_length in Hxvs. congruence.
    + intros v x Hv Hle. rewrite app_assoc in Hv.
      apply lookup_snoc_Some in Hv as [[_ Hv]|[-> <-]]; [|done].
      rewrite lookup_app_r in Hv by done.
      apply list_elem_of_lookup_2 in Hv. rewrite Forall_forall in Hws.
      by destruct (Hws _ Hv).
Qed.

Lemma new_variable_allocates d : preserves allocates (new_variable d).
Proof.
  intros h r h' H. by apply adds_leaves_allocates, (new_variable_adds_leaves d h r).
Qed.

Lemma as_variable_allocates x : preserves allocates (as_variable x).
Proof.
  intros h r h' H. by apply adds_leaves_allocates, (as_variable_adds_leaves x h r).
Qed.

Ltac pres_alloc :=
  repeat first
    [ pres_step
    | apply call_allocates
    | apply as_variable_allocates
    | apply new_variable_allocates ].

Lemma var_shape_allocates v : preserves allocates (var_shape v).
Proof. unfold var_shape. pres_alloc. Qed.

Lemma shape_of_allocates x : preserves allocates (shape_of x).
Proof. destruct x; cbn [shape_of]; pres_alloc; apply var_shape_allocates. Qed.

Lemma sum_to_allocates x s : preserves allocates (sum_to x s).
Proof. unfold sum_to. pres_alloc; apply shape_of_allocates. Qed.

Lemma broadcast_to_allocates x s : preserves allocates (broadcast_to x s).
Proof. unfold broadcast_to. pres_alloc; apply shape_of_allocates. Qed.

Lemma reshape_allocates x s : preserves allocates (reshape x s).
Proof. unfold reshape. pres_alloc; apply shape_of_allocates. Qed.

Lemma py_neg_allocates a : preserves allocates (py_neg a).
Proof. unfold py_neg, neg. pres_alloc. Qed.

Lemma py_add_allocates a b : preserves allocates (py_add a b).
Proof. unfold py_add, add. pres_alloc. Qed.

Lemma py_mul_var_allocates a x : preserves allocates (py_mul_var a x).
Proof. unfold py_mul_var, mul. pres_alloc. Qed.

Lemma backward_rule_allocates fr dys : preserves allocates (backward_rule fr dys).
Proof.
  unfold backward_rule, transpose.
  repeat first
    [ pres_step
    | apply call_allocates
    | apply sum_to_allocates
    | apply broadcast_to_allocates
    | apply reshape_allocates
    | apply py_neg_allocates
    | apply py_mul_var_allocates
    | apply var_shape_allocates ].
Qed.

(** * What the scheduler changes *)

#[global] Instance evolves_preorder : PreOrder evolves.
Proof.
  split.
  - intros h. split; try done. eauto.
  - intros h1 h2 h3 [V1 F1 E1 W1] [V2 F2 E2 W2]. split.
    + intros v x Hv. destruct (V1 _ _ Hv) as (x' & Hv' & ? & ? & ?).
      destruct (V2 _ _ Hv') as (x'' & Hv'' & ? & ? & ?).
      exists x''. repeat split; congruence.
    + by etransitivity.
    + congruence.
    + auto.
Qed.

Lemma allocates_evolves h h' : allocates h h' -> evolves h h'.
Proof.
  intros [V F E W N]. split; try done.
  intros v x Hv. exists x. split; [|done].
  destruct V as [k ->]. by apply lookup_app_l_Some.
Qed.

Lemma wf_update_grad v g x h :
  vars h !! v = Some x -> wf h -> wf (update_var v (with_grad g x) h).
Proof.
  intros Hx [Hc Hi Ho Ha]. split; cbn [update_var vars funcs]; [| | |eauto].
  - intros w y c Hw Hcr. destruct (decide (v = w)) as [->|Hne].
    + rewrite list_lookup_insert_eq in Hw by (by eapply lookup_lt_Some).
      simplify_eq. cbn in Hcr. destruct (Hc _ _ _ Hx Hcr) as (fr & ? & ? & ?).
      exists fr. done.
    + rewrite list_lookup_insert_ne in Hw by done. eauto.
  - intros f fr y Hf Hy. destruct (Hi _ _ _ Hf Hy) as (yv & Hyv & Hg).
    destruct (decide (v = y)) as [->|Hne].
    + simplify_eq. eexists. split.
      * apply list_lookup_insert_eq. by eapply lookup_lt_Some.
      * done.
    + exists yv. by rewrite list_lookup_insert_ne.
  - intros f fr y Hf Hy. destruct (Ho _ _ _ Hf Hy) as (yv & Hyv & Hcr).
    destruct (decide (v = y)) as [->|Hne].
    + simplify_eq. eexists. split.
      * apply list_lookup_insert_eq. by eapply lookup_lt_Some.
      * done.
    + exists yv. by rewrite list_lookup_insert_ne.
Qed.

Lemma update_grad_evolves v g x h :
  vars h !! v = Some x -> evolves h (update_var v (with_grad g x) h).
Proof.
  intros Hx. split; cbn [update_var vars funcs enable_backprop]; try done.
  - intros w y Hw. destruct (decide (v = w)) as [->|Hne].
    + simplify_eq. eexists. split.
      * apply list_lookup_insert_eq. by eapply lookup_lt_Some.
      * done.
    + exists y. by rewrite list_lookup_insert_ne.
  - by apply wf_update_grad.
Qed.

Lemma set_grad_evolves v g : preserves evolves (set_grad v g).
Proof.
  intros h r h' H. apply set_grad_inv in H as [(x & Hx & -> & ->)|(_ & _ & ->)].
  - by apply update_grad_evolves.
  - reflexivity.
Qed.

Lemma preserves_weaken {A} (R R' : relation store) (m : M A) :
  (forall h h', R h h' -> R' h h') -> preserves R m -> preserves R' m.
Proof. intros HR Hm h r h' Hrun. eapply HR, Hm, Hrun. Qed.

Lemma add_func_store f s h r h' : add_func f s h = (r, h') -> h' = h.
Proof.
  intros Hr. symmetry. revert h r h' Hr. fold (preserves eq (add_func f s)).
  unfold add_func. repeat pres_step.
Qed.

Lemma add_func_evolves f s : preserves evolves (add_func f s).
Proof. intros h r h' H. apply add_func_store in H as ->. reflexivity. Qed.

Lemma allocates_to_evolves {A} (m : M A) : preserves allocates m -> preserves evolves m.
Proof. apply preserves_weaken, allocates_evolves. Qed.

Ltac pres_evolves :=
  repeat first
    [ pres_step
    | apply set_grad_evolves
    | apply add_func_evolves
    | apply allocates_to_evolves;
      first [ apply py_add_allocates | apply backward_rule_allocates
            | apply new_variable_allocates ] ].

Lemma accumulate_evolves p s : preserves evolves (accumulate p s).
Proof. unfold accumulate. pres_evolves. Qed.

Lemma iteration_evolves retain s : preserves evolves (iteration retain s).
Proof. unfold iteration. pres_evolves; apply accumulate_evolves. Qed.

Lemma backward_loop_evolves fuel retain s : preserves evolves (backward_loop fuel retain s).
Proof.
  revert s. induction fuel as [|n IH]; intros s; cbn [backward_loop];
    pres_evolves; try apply iteration_evolves; apply IH.
Qed.

Lemma backward_init_evolves v : preserves evolves (backward_init v).
Proof. unfold backward_init. pres_evolves. Qed.

Lemma backward_trace_evolves v retain : preserves evolves (backward_trace v retain).
Proof.
  unfold backward_trace. pres_evolves;
    [apply backward_init_evolves | apply backward_loop_evolves].
Qed.

Lemma backward_evolves v retain : preserves evolves (backward v retain).
Proof. unfold backward. pres_evolves. apply backward_trace_evolves. Qed.

Lemma cleargrad_evolves v : preserves evolves (cleargrad v).
Proof. apply set_grad_evolves. Qed.

(** Equations for running a computation step by step. *)
Lemma bind_bind {A B C} (m : M A) (k : A -> M B) (k' : B -> M C) h :
  bind (bind m k) k' h = bind m (fun a => bind (k a) k') h.
Proof. unfold bind. by destruct (m h) as [[a|e] h1]. Qed.

Lemma bind_ret {A B} (a : A) (k : A -> M B) h : bind (ret a) k h = k a h.
Proof. done. Qed.

Lemma bind_raise_l {A B} e (k : A -> M B) h : bind (raise e) k h = (Raise e, h).
Proof. done. Qed.

Lemma bind_lift_ok {A B} (a : A) (k : A -> M B) h : bind (lift (Ok a)) k h = k a h.
Proof. done. Qed.

Lemma bind_lift_raise {A B} e (k : A -> M B) h :
  bind (lift (Raise e)) k h = (Raise e, h).
Proof. done. Qed.

Lemma bind_get_var {B} v (k : PyVariable -> M B) h x :
  vars h !! v = Some x -> bind (get_var v) k h = k x h.
Proof. intros Hx. by rewrite (bind_ok _ _ _ _ _ (get_var_ok _ _ _ Hx)). Qed.

Lemma bind_get_func {B} f (k : PyFunction -> M B) h x :
  funcs h !! f = Some x -> bind (get_func f) k h = k x h.
Proof. intros Hx. by rewrite (bind_ok _ _ _ _ _ (get_func_ok _ _ _ Hx)). Qed.

Lemma bind_get_store {B} (k : store -> M B) h : bind get_store k h = k h h.
Proof. done. Qed.

Lemma bind_set_grad {B} v g (k : unit -> M B) h x :
  vars h !! v = Some x ->
  bind (set_grad v g) k h = k tt (update_var v (with_grad g x) h).
Proof. intros Hx. by rewrite (bind_ok _ _ _ _ _ (set_grad_ok _ _ _ _ Hx)). Qed.

Lemma bind_alloc_var {B} x (k : nat -> M B) h :
  bind (alloc_var x) k h = k (length (vars h)) (add_vars [x] h).
Proof. done. Qed.

Ltac msimpl :=
  repeat first
    [ rewrite bind_bind | rewrite bind_ret | rewrite bind_raise_l
    | rewrite bind_lift_ok | rewrite bind_lift_raise | rewrite bind_get_store
    | rewrite bind_alloc_var | progress cbv beta iota ].

Lemma bind_mmap_read {B C} (F : PyVariable -> B) (l : list nat) (k : list B -> M C) h xvs :
  mapM (fun x => vars h !! x) l = Some xvs ->
  bind (mmap (fun x => xv <- get_var x ;; ret (F xv)) l) k h = k (F <$> xvs) h.
Proof. intros Hl. unfold bind at 1. by rewrite mmap_read, Hl. Qed.

(** The run of [Variable.backward] on a Variable without creator. *)
Lemma backward_without_creator v retain h x :
  vars h !! v = Some x -> creator x = None ->
  exists h', backward v retain h = (Raise AttributeError, h').
Proof.
  intros Hx Hc. unfold backward, backward_trace, backward_init.
  msimpl. rewrite (bind_get_var _ _ _ _ Hx).
  destruct (grad x) eqn:Hg; msimpl.
  2-4: rewrite Hc; cbn [add_func]; msimpl; eauto.
  destruct (data x) as [a|] eqn:Hd; msimpl; [|eauto].
  cbn [new_variable]. msimpl.
  erewrite bind_set_grad by (apply lookup_app_l_Some, Hx).
  rewrite Hc; cbn [add_func]; msimpl; eauto.
Qed.


Lemma call_run o args h ins h1 xvs a sv :
  mmap as_variable args h = (Ok ins, h1) ->
  mapM (fun x => vars h1 !! x) ins = Some xvs ->
  forward o (data <$> xvs) = Ok (a, sv) ->
  enable_backprop h1 = true ->
  ins <> [] ->
  call o args h = (Ok (length (vars h1)), tracked_store o ins xvs a sv h1).
Proof.
  intros Hins Hxvs Hfw Hen Hne. unfold call.
  rewrite (bind_ok _ _ _ _ _ Hins). rewrite (bind_mmap_read _ _ _ _ _ Hxvs).
  rewrite Hfw. msimpl. cbn [fst snd as_array new_variable]. msimpl.
  cbn [add_vars enable_backprop]. rewrite Hen. msimpl.
  erewrite bind_mmap_read by (cbn [vars]; apply mapM_lookup_app, Hxvs).
  unfold py_max. destruct (generation <$> xvs) as [|g0 gs] eqn:Hg.
  { destruct xvs; [|done]. apply mapM_Some, Forall2_nil_inv_r in Hxvs. done. }
  rewrite <- Hg. msimpl. unfold alloc_func at 1. unfold bind at 1.
  cbn [vars funcs enable_backprop].
  erewrite bind_ok.
  2: { apply set_creator_ok; cbn [vars funcs]; apply lookup_snoc_length. }
  unfold update_var, tracked_store, ret.
  cbn [vars funcs enable_backprop data grad fn_generation].
  cbn [add_vars vars funcs enable_backprop].
  by rewrite insert_snoc_length.
Qed.

Lemma call_var1 o x h xv a sv :
  vars h !! x = Some xv ->
  forward o [data xv] = Ok (a, sv) ->
  enable_backprop h = true ->
  call o [PyVar x] h = (Ok (length (vars h)), tracked_store o [x] [xv] a sv h).
Proof.
  intros Hx Hfw Hen. apply call_run; try done.
  cbn. by rewrite Hx.
Qed.

Lemma call_var1_raise o x h xv e :
  vars h !! x = Some xv ->
  forward o [data xv] = Raise e ->
  call o [PyVar x] h = (Raise e, h).
Proof.
  intros Hx Hfw. unfold call. cbn [mmap as_variable]. msimpl.
  erewrite bind_mmap_read by (cbn; by rewrite Hx).
  cbn [fmap list_fmap]. by rewrite Hfw.
Qed.

Lemma var_shape_ok x h xv a :
  vars h !! x = Some xv -> data xv = Some a -> var_shape x h = (Ok (Np.shape a), h).
Proof. intros Hx Hd. unfold var_shape. by rewrite (bind_get_var _ _ _ _ Hx), Hd. Qed.


Lemma wf_set_enable b h : wf h -> wf (set_enable_backprop b h).
Proof. intros [Hc Hi Ho Ha]. split; cbn; eauto. Qed.

Lemma using_config_evolves {A} b (m : M A) :
  preserves evolves m -> preserves evolves (using_config b m).
Proof.
  intros Hm h r h' H. unfold using_config in H.
  destruct (m (set_enable_backprop b h)) as [r1 h1] eqn:E. simplify_eq.
  apply Hm in E as [V F E W]. split; cbn in *; try done.
  intros Hwf. apply (wf_set_enable b) in Hwf. apply W in Hwf.
  by apply (wf_set_enable (enable_backprop h)) in Hwf.
Qed.

Lemma perform_evolves a : preserves evolves (perform a).
Proof.
  destruct a; cbn [perform].
  - pres_evolves.
  - pres_evolves. apply allocates_to_evolves, call_allocates.
  - pres_evolves. apply using_config_evolves, allocates_to_evolves, call_allocates.
  - apply backward_evolves.
  - apply cleargrad_evolves.
Qed.

Lemma later_evolves h h' : later h h' -> evolves h h'.
Proof.
  induction 1 as [|h h1 a r h2 _ IH Hp]; [reflexivity|].
  etransitivity; [exact IH|]. by eapply perform_evolves.
Qed.


Section Sorting.
Context {A : Type} (key : A -> Z).

Lemma insert_by_perm x l : Np.insert_by key x l ≡ₚ x :: l.
Proof.
  induction l as [|y l IH]; cbn; [done|].
  case_bool_decide; [done|]. rewrite IH. apply Permutation_swap.
Qed.

Lemma sort_by_perm l : Np.sort_by key l ≡ₚ l.
Proof.
  induction l as [|x l IH]; cbn; [done|].
  by rewrite insert_by_perm, IH.
Qed.

Lemma insert_by_sorted x l :
  StronglySorted (key_le key) l -> StronglySorted (key_le key) (Np.insert_by key x l).
Proof.
  induction 1 as [|y l Hl IH Hy]; cbn.
  - by repeat constructor.
  - case_bool_decide as Hxy.
    + constructor; [by constructor|]. constructor; [done|].
      eapply Forall_impl; [exact Hy|]. unfold key_le. intros; cbn in *; lia.
    + constructor; [done|]. rewrite insert_by_perm. constructor; [|done].
      unfold key_le. lia.
Qed.

Lemma sort_by_sorted l : StronglySorted (key_le key) (Np.sort_by key l).
Proof.
  induction l as [|x l IH]; cbn; [constructor|]. by apply insert_by_sorted.
Qed.
End Sorting.

Lemma index_of_lookup p i m : NoDup p -> p !! i = Some m -> Np.index_of m p = i.
Proof.
  intros Hnd. revert i. induction Hnd as [|k p Hk Hnd IH]; intros i Hi; [done|].
  cbn. destruct i as [|i]; cbn in Hi.
  - simplify_eq. by rewrite Nat.eqb_refl.
  - destruct (Nat.eqb_spec k m) as [->|Hne].
    + apply list_elem_of_lookup_2 in Hi. done.
    + f_equal. by apply IH.
Qed.

Lemma lookup_index_of p m : m ∈ p -> p !! Np.index_of m p = Some m.
Proof.
  induction 1 as [m p|m k p Hm IH]; cbn.
  - by rewrite Nat.eqb_refl.
  - destruct (Nat.eqb_spec k m) as [->|Hne]; [done|]. exact IH.
Qed.

Lemma argsort_perm p :
  p ≡ₚ seq 0 (length p) ->
  Np.argsort (Z.of_nat <$> p) = Z.of_nat <$> inverse_perm p.
Proof.
  intros Hp. assert (NoDup p) as Hnd by (rewrite Hp; apply NoDup_seq).
  unfold Np.argsort, inverse_perm.
  set (L := imap (fun i a => (i, a)) (Z.of_nat <$> p)).
  set (f := fun m => (Np.index_of m p, Z.of_nat m)).
  assert (L = f <$> p) as HL.
  { apply list_eq. intros i. unfold L.
    rewrite list_lookup_imap, !list_lookup_fmap.
    destruct (p !! i) as [m|] eqn:Hi; [|done]. cbn. unfold f.
    by rewrite (index_of_lookup _ _ _ Hnd Hi). }
  assert (Np.sort_by snd L = f <$> seq 0 (length p)) as ->.
  { apply (StronglySorted_unique_strong (key_le snd)).
    - intros [i k] x2 H1 H2 Hle1 Hle2. unfold key_le in *. cbn in *.
      rewrite sort_by_perm, HL in H1.
      apply list_elem_of_fmap in H1 as (m1 & E1 & Hm1).
      apply list_elem_of_fmap in H2 as (m2 & -> & Hm2).
      unfold f in *. simplify_eq. cbn in *. f_equal; [f_equal|]; lia.
    - apply sort_by_sorted.
    - apply (StronglySorted_fmap _ lt).
      + intros x y Hxy. unfold key_le, f. cbn. lia.
      + clear. generalize 0. induction (length p) as [|n IH]; intros j; cbn;
          constructor; [apply IH|].
        apply Forall_forall. intros k Hk. apply elem_of_seq in Hk. lia.
    - rewrite sort_by_perm, HL. by rewrite Hp at 1. }
  rewrite <- !list_fmap_compose. done.
Qed.

Lemma normalize_axes_nat nd p :
  Forall (fun k => k < nd) p -> Np.normalize_axes nd (Z.of_nat <$> p) = Some p.
Proof.
  induction 1 as [|k p Hk _ IH]; cbn; [done|].
  rewrite IH. unfold Np.normalize_axis.
  rewrite bool_decide_eq_true_2 by lia.
  rewrite bool_decide_eq_false_2 by lia. by rewrite Nat2Z.id.
Qed.

Lemma perm_seq_lt nd p : p ≡ₚ seq 0 nd -> Forall (fun k => k < nd) p.
Proof.
  intros Hp. apply Forall_forall. intros k Hk. rewrite Hp in Hk.
  apply elem_of_seq in Hk. lia.
Qed.

Lemma transpose_perm_nat nd p :
  p ≡ₚ seq 0 nd -> Np.transpose_perm nd (Some (Z.of_nat <$> p)) = Ok p.
Proof.
  intros Hp. unfold Np.transpose_perm.
  assert (length p = nd) as Hlen by (by rewrite Hp, length_seq).
  rewrite length_fmap, Hlen, Nat.eqb_refl.
  rewrite normalize_axes_nat by (by apply perm_seq_lt).
  rewrite bool_decide_eq_true_2; [done|]. rewrite Hp. apply NoDup_seq.
Qed.

Lemma inverse_perm_lookup p k m :
  NoDup p -> p ≡ₚ seq 0 (length p) -> p !! k = Some m -> inverse_perm p !! m = Some k.
Proof.
  intros Hnd Hp Hk. unfold inverse_perm. rewrite list_lookup_fmap.
  assert (m < length p) as Hm.
  { apply list_elem_of_lookup_2 in Hk. rewrite Hp in Hk. apply elem_of_seq in Hk. lia. }
  rewrite lookup_seq_lt by done. cbn. f_equal. by apply index_of_lookup.
Qed.

Lemma inverse_perm_perm p :
  p ≡ₚ seq 0 (length p) -> inverse_perm p ≡ₚ seq 0 (length p).
Proof.
  intros Hp. assert (NoDup p) as Hnd by (rewrite Hp; apply NoDup_seq).
  apply NoDup_Permutation.
  - unfold inverse_perm. apply NoDup_fmap_2_strong; [|apply NoDup_seq].
    intros m1 m2 H1 H2 E. apply elem_of_seq in H1, H2.
    assert (m1 ∈ p) as I1 by (rewrite Hp; apply elem_of_seq; lia).
    assert (m2 ∈ p) as I2 by (rewrite Hp; apply elem_of_seq; lia).
    apply lookup_index_of in I1, I2. rewrite E in I1. congruence.
  - apply NoDup_seq.
  - intros k. rewrite elem_of_seq. unfold inverse_perm. rewrite list_elem_of_fmap. split.
    + intros (m & -> & Hm). apply elem_of_seq in Hm.
      assert (m ∈ p) as I by (rewrite Hp; apply elem_of_seq; lia).
      apply lookup_index_of, lookup_lt_Some in I. lia.
    + intros [_ Hk]. cbn in Hk. destruct (lookup_lt_is_Some_2 p k Hk) as [m Hm].
      exists m. split; [symmetry; by apply index_of_lookup|].
      apply list_elem_of_lookup_2 in Hm. by rewrite Hp in Hm.
Qed.

Lemma length_inverse_perm p : length (inverse_perm p) = length p.
Proof. unfold inverse_perm. by rewrite length_fmap, length_seq. Qed.

Lemma permute_shape_inverse p s :
  p ≡ₚ seq 0 (length p) -> length s = length p ->
  Np.permute_shape (inverse_perm p) (Np.permute_shape p s) = s.
Proof.
  intros Hp Hlen. assert (NoDup p) as Hnd by (rewrite Hp; apply NoDup_seq).
  apply list_eq. intros m. unfold Np.permute_shape at 1. unfold inverse_perm.
  rewrite !list_lookup_fmap.
  destruct (decide (m < length p)) as [Hm|Hm].
  - rewrite lookup_seq_lt by done. cbn.
    assert (m ∈ p) as I by (rewrite Hp; apply elem_of_seq; lia).
    apply lookup_index_of in I. unfold Np.permute_shape.
    rewrite (nth_lookup_Some _ _ _ (nth m s 0)); cycle 1.
    { by rewrite list_lookup_fmap, I. }
    destruct (nth_lookup_or_length s m 0) as [->|]; [done|lia].
  - rewrite lookup_seq_ge by lia. cbn. symmetry. apply lookup_ge_None. lia.
Qed.

Lemma reverse_seq_perm n : reverse (seq 0 n) ≡ₚ seq 0 (length (reverse (seq 0 n))).
Proof. by rewrite length_reverse, length_seq, reverse_Permutation. Qed.

Lemma inverse_perm_reverse n : inverse_perm (reverse (seq 0 n)) = reverse (seq 0 n).
Proof.
  pose proof (reverse_seq_perm n) as Hp.
  assert (NoDup (reverse (seq 0 n))) as Hnd.
  { rewrite reverse_Permutation. apply NoDup_seq. }
  apply list_eq. intros m.
  destruct (decide (m < n)) as [Hm|Hm].
  - rewrite (inverse_perm_lookup _ (n - S m) m Hnd Hp).
    + rewrite reverse_lookup by (rewrite length_seq; lia).
      rewrite length_seq, lookup_seq_lt by lia. f_equal; lia.
    + rewrite reverse_lookup by (rewrite length_seq; lia).
      rewrite length_seq, lookup_seq_lt by lia. f_equal; lia.
  - rewrite !lookup_ge_None_2; [done| |].
    + rewrite length_reverse, length_seq. lia.
    + rewrite length_inverse_perm, length_reverse, length_seq. lia.
Qed.

Lemma transpose_shape a axes y p :
  Np.transpose_perm (Np.ndim a) axes = Ok p ->
  Np.transpose a axes = Ok y ->
  Np.shape y = Np.permute_shape p (Np.shape a).
Proof. unfold Np.transpose. intros ->. intros ?; by simplify_eq. Qed.

Lemma transpose_ok a axes p :
  Np.transpose_perm (Np.ndim a) axes = Ok p -> exists y, Np.transpose a axes = Ok y.
Proof. unfold Np.transpose. intros ->. eauto. Qed.

Lemma length_permute_shape p s : length (Np.permute_shape p s) = length p.
Proof. unfold Np.permute_shape. by rewrite length_fmap. Qed.

Lemma backward_loop_nil fuel retain s h :
  worklist s = [] -> backward_loop fuel retain s h = (Ok s, h).
Proof. intros Hw. destruct fuel; cbn [backward_loop]; by rewrite Hw. Qed.

Lemma plain_axes_perms nd axes :
  plain_axes nd axes ->
  exists p, Np.transpose_perm nd axes = Ok p /\
            Np.transpose_perm nd (backward_axes axes) = Ok (inverse_perm p) /\
            p ≡ₚ seq 0 (length p) /\ length p = nd.
Proof.
  destruct axes as [ax|]; cbn [plain_axes backward_axes].
  - intros (p & -> & Hp). exists p.
    assert (length p = nd) as Hlen by (by rewrite Hp, length_seq).
    rewrite transpose_perm_nat by done. split; [done|].
    rewrite argsort_perm by (by rewrite Hlen).
    rewrite transpose_perm_nat.
    + by rewrite Hlen.
    + rewrite <- Hlen. apply inverse_perm_perm. by rewrite Hlen.
  - intros _. exists (reverse (seq 0 nd)). cbn.
    rewrite inverse_perm_reverse. split; [done|]. split; [done|].
    split; [apply reverse_seq_perm|]. by rewrite length_reverse, length_seq.
Qed.

Lemma transpose_backward_run h x xv a axes :
  vars h !! x = Some xv -> data xv = Some a -> grad xv = PyNone ->
  creator xv = None -> enable_backprop h = true ->
  plain_axes (Np.ndim a) axes ->
  exists y ga,
    Np.transpose a axes = Ok y /\
    Np.transpose (Np.ones (Np.shape y)) (backward_axes axes) = Ok ga /\
    fst ((y <- transpose (PyVar x) axes ;; backward y false) h) = Ok tt /\
    grad_data (snd ((y <- transpose (PyVar x) axes ;; backward y false) h)) x = Some ga.
Proof.
  intros Hx Hd Hg Hc Hen Hax.
  destruct (plain_axes_perms _ _ Hax) as (p & Hp & Hq & Hperm & Hlen).
  destruct (transpose_ok _ _ _ Hp) as [y Hy].
  pose proof (transpose_shape _ _ _ _ Hp Hy) as Hsy.
  assert (Np.ndim (Np.ones (Np.shape y)) = Np.ndim a) as Hnd.
  { unfold Np.ndim. cbn. rewrite Hsy, length_permute_shape. done. }
  rewrite <- Hnd in Hq.
  destruct (transpose_ok _ _ _ Hq) as [ga Hga].
  exists y, ga. split; [done|]. split; [done|].
  unfold transpose.
  erewrite bind_ok; cycle 1.
  { apply (call_var1 _ _ _ _ y [] Hx); [|done]. rewrite Hd. cbn. by rewrite Hy. }
  set (yid := length (vars h)). set (f := length (funcs h)).
  unfold backward, backward_trace, backward_init. msimpl.
  erewrite bind_get_var by (unfold tracked_store; cbn [vars]; apply lookup_snoc_length).
  cbn [grad data creator]. msimpl. cbn [new_variable]. msimpl.
  erewrite bind_set_grad
    by (unfold tracked_store; cbn [add_vars vars]; apply lookup_app_l_Some, lookup_snoc_length).
  cbn [add_func seen_set worklist processed].
  rewrite bool_decide_eq_false_2 by apply not_elem_of_nil.
  cbn [app mmap]. msimpl.
  erewrite bind_get_func
    by (unfold tracked_store; cbn [update_var add_vars funcs]; apply lookup_snoc_length).
  msimpl. cbn [Np.sort_by foldr Np.insert_by fmap list_fmap fst fn_generation].
  match goal with |- fst (bind _ _ ?st) = _ /\ _ => remember st as h2 eqn:Hh2 end.
  assert (vars h2 = vars h ++
            [ {| data := Some y; grad := PyVar (S yid); creator := Some f;
                 generation := generation xv `max` 0 + 1 |};
              {| data := Some (Np.ones (Np.shape y)); grad := PyNone;
                 creator := None; generation := 0 |} ]) as Hv2.
  { subst h2. unfold update_var, add_vars, tracked_store, with_grad. cbn.
    rewrite <- app_assoc. rewrite insert_app_r_alt by (fold yid; lia).
    fold yid. rewrite Nat.sub_diag. cbn. rewrite length_app. cbn.
    replace (length (vars h) + 1) with (S yid) by (unfold yid; lia). done. }
  assert (funcs h2 = funcs h ++
            [ {| fn_class := Transpose axes; saved := []; fn_generation := generation xv `max` 0;
                 inputs := [x]; outputs := [yid] |} ]) as Hf2.
  { subst h2. done. }
  assert (enable_backprop h2 = true) as Hen2.
  { subst h2. done. }
  clear Hh2. rewrite Hf2, length_app. cbn [length]. rewrite Nat.add_comm.
  cbn [Nat.add backward_loop worklist]. unfold iteration.
  cbn [worklist pop reverse rev_append seen_set processed]. msimpl.
  erewrite bind_get_func by (rewrite Hf2; apply lookup_snoc_length).
  cbn [outputs mmap]. msimpl.
  erewrite bind_get_var by (rewrite Hv2; by apply list_lookup_middle).
  cbn [grad]. msimpl. cbn [backward_rule fn_class inputs].
  replace (match axes with
           | Some ax => r <- transpose (PyVar (S yid)) (Some (Np.argsort ax));; ret [PyVar r]
           | None => r <- transpose (PyVar (S yid)) None;; ret [PyVar r]
           end)
    with (r <- transpose (PyVar (S yid)) (backward_axes axes) ;; ret [PyVar r])
    by (by destruct axes).
  unfold transpose. msimpl.
  assert (vars h2 !! S yid = Some {| data := Some (Np.ones (Np.shape y)); grad := PyNone;
                                     creator := None; generation := 0 |}) as Hgv.
  { rewrite Hv2. rewrite lookup_app_r by (unfold yid; lia).
    replace (S yid - length (vars h)) with 1 by (unfold yid; lia). done. }
  erewrite bind_ok; cycle 1.
  { apply (call_var1 _ _ _ _ ga [] Hgv); [|done]. cbn. by rewrite Hga. }
  msimpl. cbn [zip zip_with mfold accumulate].
  match goal with |- fst (bind _ _ ?st) = _ /\ _ => remember st as h3 eqn:Hh3 end.
  assert (vars h3 = vars h2 ++
            [ {| data := Some ga; grad := PyNone; creator := Some (length (funcs h2));
                 generation := 0 `max` 0 + 1 |} ]) as Hv3.
  { subst h3. done. }
  clear Hh3.
  assert (x < yid) as Hlt by (by eapply lookup_lt_Some).
  assert (vars h3 !! x = Some xv) as Hx3.
  { rewrite Hv3, Hv2. by do 2 apply lookup_app_l_Some. }
  msimpl. rewrite (bind_get_var _ _ _ _ Hx3), Hg. msimpl.
  rewrite (bind_set_grad _ _ _ _ _ Hx3). msimpl.
  erewrite bind_get_var; cycle 1.
  { unfold update_var; cbn [vars]. apply list_lookup_insert_eq. by eapply lookup_lt_Some. }
  cbn [with_grad creator]. rewrite Hc. msimpl.
  erewrite bind_set_grad; cycle 1.
  { unfold update_var; cbn [vars]. rewrite list_lookup_insert_ne by lia.
    rewrite Hv3, Hv2. apply lookup_app_l_Some. by apply list_lookup_middle. }
  msimpl. erewrite bind_ok by (apply backward_loop_nil; reflexivity).
  msimpl. unfold ret. cbn [fst snd]. split; [done|].
  unfold grad_data, update_var. cbn [vars].
  rewrite list_lookup_insert_ne by lia.
  rewrite list_lookup_insert_eq by (by eapply lookup_lt_Some).
  cbn [with_grad grad].
  rewrite list_lookup_insert_ne by (rewrite Hv2, length_app; cbn; lia).
  rewrite list_lookup_insert_ne by (rewrite Hv2, length_app; cbn; lia).
  rewrite Hv3, lookup_snoc_length. done.
Qed.

Lemma insert_by_decorated {A B} (d : A -> B) (k : B -> Z) x l :
  Np.insert_by (fun p => k (snd p)) (x, d x) ((fun g => (g, d g)) <$> l)
  = (fun g => (g, d g)) <$> Np.insert_by (fun g => k (d g)) x l.
Proof.
  induction l as [|y l IH]; cbn; [done|].
  case_bool_decide; cbn; [done|]. by rewrite IH.
Qed.

Lemma sort_by_decorated {A B} (d : A -> B) (k : B -> Z) l :
  Np.sort_by (fun p => k (snd p)) ((fun g => (g, d g)) <$> l)
  = (fun g => (g, d g)) <$> Np.sort_by (fun g => k (d g)) l.
Proof.
  induction l as [|x l IH]; cbn; [done|].
  unfold Np.sort_by in IH. rewrite IH. apply insert_by_decorated.
Qed.

Lemma sort_by_decorate {A B} (d : A -> B) (k : B -> Z) l :
  fst <$> Np.sort_by (fun p => k (snd p)) ((fun g => (g, d g)) <$> l)
  = Np.sort_by (fun g => k (d g)) l.
Proof.
  rewrite sort_by_decorated, <- list_fmap_compose. apply list_fmap_id.
Qed.

Lemma mmap_keys l h r h' :
  mmap (fun g => gr <- get_func g ;; ret (g, fn_generation gr)) l h = (r, h') ->
  h' = h /\
  (forall ks, r = Ok ks ->
     ks = (fun g => (g, gen_of h g)) <$> l /\
     Forall (fun f => is_Some (funcs h !! f)) l).
Proof.
  revert r h'. induction l as [|g l IH]; intros r h' H; cbn [mmap] in H.
  - inv_prim H. split; [done|]. intros ks ?; simplify_eq. by split.
  - destruct (funcs h !! g) as [fr|] eqn:Hfr.
    + rewrite bind_bind, (bind_get_func _ _ _ _ Hfr), bind_ret in H.
      inv_bind H.
      * apply IH in E as [-> Hks]. inv_prim H. split; [done|].
        intros ks ?; simplify_eq. destruct (Hks _ eq_refl) as [-> Hall].
        split; [|constructor; eauto].
        cbn. f_equal. unfold gen_of. by rewrite Hfr.
      * apply IH in E as [-> _]. done.
    + unfold bind, get_func in H. rewrite Hfr in H. by simplify_eq.
Qed.

Lemma add_func_inv f s h s' h' :
  add_func (Some f) s h = (Ok s', h') ->
  h' = h /\
  (((f ∈ seen_set s) /\ s' = s) \/
   ((f ∉ seen_set s) /\
    Forall (fun f => is_Some (funcs h !! f)) (worklist s ++ [f]) /\
    s' = {| worklist := Np.sort_by (fun g => Z.of_nat (gen_of h g)) (worklist s ++ [f]);
            seen_set := f :: seen_set s;
            processed := processed s |})).
Proof.
  intros H. pose proof (add_func_store _ _ _ _ _ H) as ->. split; [done|].
  unfold add_func in H. case_bool_decide as Hin.
  - inv_prim H. by left.
  - right. split; [done|]. inv_bind H. apply mmap_keys in E as [-> Hks].
    destruct (Hks _ eq_refl) as [-> Hall]. inv_prim H. split; [done|].
    f_equal. apply (sort_by_decorate (gen_of h) Z.of_nat).
Qed.

Lemma pop_Some {A} (l : list A) x r : pop l = Some (x, r) <-> l = r ++ [x].
Proof.
  unfold pop. split.
  - destruct (reverse l) as [|y t] eqn:E; cbn; intros ?; simplify_eq.
    rewrite <- (reverse_involutive l), E. apply reverse_cons.
  - intros ->. rewrite reverse_snoc. cbn. by rewrite reverse_involutive.
Qed.

Lemma pop_None {A} (l : list A) : pop l = None <-> l = [].
Proof.
  unfold pop. split.
  - destruct (reverse l) as [|y t] eqn:E; cbn; intros ?; simplify_eq.
    by rewrite <- (reverse_involutive l), E.
  - by intros ->.
Qed.

Lemma allocates_lookup_var h h' v x :
  allocates h h' -> vars h !! v = Some x -> vars h' !! v = Some x.
Proof. intros [[k ->] _ _ _ _] Hv. by apply lookup_app_l_Some. Qed.

Lemma allocates_lookup_func h h' f x :
  allocates h h' -> funcs h !! f = Some x -> funcs h' !! f = Some x.
Proof. intros [_ [k ->] _ _ _] Hv. by apply lookup_app_l_Some. Qed.

Lemma evolves_lookup_func h h' f x :
  evolves h h' -> funcs h !! f = Some x -> funcs h' !! f = Some x.
Proof. intros [_ [k ->] _ _] Hv. by apply lookup_app_l_Some. Qed.

Lemma accumulate_inv x dx s h s' h' :
  accumulate (x, dx) s h = (Ok s', h') ->
  exists xv h1 g',
    vars h !! x = Some xv /\
    allocates h h1 /\
    ((grad xv = PyNone /\ g' = dx /\ h1 = h) \/
     (grad xv <> PyNone /\ py_add (grad xv) dx h = (Ok g', h1))) /\
    h' = update_var x (with_grad g' xv) h1 /\
    ((creator xv = None /\ s' = s) \/
     (exists c, creator xv = Some c /\ add_func (Some c) s h' = (Ok s', h'))).
Proof.
  unfold accumulate. intros H.
  destruct (vars h !! x) as [xv|] eqn:Hx; cycle 1.
  { unfold bind at 1 in H. unfold get_var in H. rewrite Hx in H. by simplify_eq. }
  rewrite (bind_get_var _ _ _ _ Hx) in H.
  assert (exists h1 g',
    allocates h h1 /\
    ((grad xv = PyNone /\ g' = dx /\ h1 = h) \/
     (grad xv <> PyNone /\ py_add (grad xv) dx h = (Ok g', h1))) /\
    (xv0 <- get_var x ;;
     match creator xv0 with
     | Some c => add_func (Some c) s
     | None => ret s
     end) (update_var x (with_grad g' xv) h1) = (Ok s', h')) as (h1 & g' & Hal & Hcase & H').
  { destruct (grad xv) eqn:Hg.
    - rewrite (bind_set_grad _ _ _ _ _ Hx) in H. exists h, dx.
      split; [reflexivity|]. split; [by left|done].
    - rewrite bind_bind in H. inv_bind H. inv_bind H.
      pose proof (py_add_allocates _ _ _ _ _ E) as Hal.
      rewrite (set_grad_ok _ _ _ _ (allocates_lookup_var _ _ _ _ Hal Hx)) in E0.
      simplify_eq. exists h0, a. split; [done|]. split; [right; by split|done].
    - rewrite bind_bind in H. inv_bind H. inv_bind H.
      pose proof (py_add_allocates _ _ _ _ _ E) as Hal.
      rewrite (set_grad_ok _ _ _ _ (allocates_lookup_var _ _ _ _ Hal Hx)) in E0.
      simplify_eq. exists h0, a0. split; [done|]. split; [right; by split|done].
    - rewrite bind_bind in H. inv_bind H. inv_bind H.
      pose proof (py_add_allocates _ _ _ _ _ E) as Hal.
      rewrite (set_grad_ok _ _ _ _ (allocates_lookup_var _ _ _ _ Hal Hx)) in E0.
      simplify_eq. exists h0, a. split; [done|]. split; [right; by split|done]. }
  exists xv, h1, g'. split; [done|]. split; [done|]. split; [done|].
  erewrite bind_get_var in H'; cycle 1.
  { unfold update_var; cbn [vars]. apply list_lookup_insert_eq.
    eapply lookup_lt_Some, allocates_lookup_var; eauto. }
  cbn [with_grad creator] in H'. destruct (creator xv) as [c|] eqn:Hc.
  - pose proof (add_func_store _ _ _ _ _ H') as ->. split; [done|]. right. eauto.
  - inv_prim H'. split; [done|]. by left.
Qed.

Lemma mmap_read_inv {B} (F : PyVariable -> B) l h r h' :
  mmap (fun x => xv <- get_var x ;; ret (F xv)) l h = (r, h') ->
  h' = h /\
  (forall ys, r = Ok ys ->
     exists xvs, mapM (fun x => vars h !! x) l = Some xvs /\ ys = F <$> xvs).
Proof.
  rewrite mmap_read. destruct (mapM _ l) as [xvs|]; intros ?; simplify_eq.
  - split; [done|]. intros ys ?; simplify_eq. eauto.
  - done.
Qed.

Lemma clear_grads_evolves ys :
  preserves evolves (mfold (fun y (_ : unit) => set_grad y PyNone) ys tt).
Proof. pres_evolves. Qed.

(** The steps of one iteration that ends well. *)
Lemma iteration_inv retain s h s' h' f rest :
  worklist s = rest ++ [f] ->
  iteration retain s h = (Ok s', h') ->
  exists fr yvs dxs h1 h2,
    funcs h !! f = Some fr /\
    mapM (fun y => vars h !! y) (outputs fr) = Some yvs /\
    backward_rule fr (grad <$> yvs) h = (Ok dxs, h1) /\
    mfold accumulate (zip (inputs fr) dxs)
      {| worklist := rest; seen_set := seen_set s; processed := f :: processed s |} h1
    = (Ok s', h2) /\
    (if retain then h' = h2
     else mfold (fun y _ => set_grad y PyNone) (outputs fr) tt h2 = (Ok tt, h')).
Proof.
  intros Hw H. unfold iteration in H.
  rewrite (proj2 (pop_Some _ _ _) Hw) in H.
  inv_bind H. apply get_func_inv in E as [-> [(fr & Hfr & ?)|[_ ?]]]; simplify_eq.
  inv_bind H. pose proof (mmap_read_inv grad _ _ _ _ E) as [-> Hys].
  destruct (Hys _ eq_refl) as (yvs & Hyvs & ->).
  inv_bind H. inv_bind H. inv_bind H.
  inv_prim H. exists fr, yvs, a, h0, h1. repeat split; try done.
  destruct retain.
  - by inv_prim E2.
  - by destruct a1.
Qed.

(** Induction over a [for] loop that ends well. *)
Lemma mfold_ind {A S} (P : list A -> store -> S -> Prop) (f : A -> S -> M S) :
  (forall done x s h s' h',
     P done h s -> f x s h = (Ok s', h') -> P (done ++ [x]) h' s') ->
  forall l done s h s' h',
    P done h s -> mfold f l s h = (Ok s', h') -> P (done ++ l) h' s'.
Proof.
  intros Hstep l. induction l as [|x l IH]; intros done s h s' h' HP H; cbn [mfold] in H.
  - inv_prim H. by rewrite app_nil_r.
  - inv_bind H. rewrite cons_middle, app_assoc. eapply IH; [|exact H].
    eapply Hstep; eauto.
Qed.

Lemma gen_of_evolves h h' f :
  evolves h h' -> is_Some (funcs h !! f) -> gen_of h' f = gen_of h f.
Proof.
  intros Hev [fr Hfr]. unfold gen_of.
  by rewrite (evolves_lookup_func _ _ _ _ Hev Hfr), Hfr.
Qed.

Lemma StronglySorted_key_ext {A} (key key' : A -> Z) l :
  Forall (fun x => key x = key' x) l ->
  StronglySorted (key_le key) l -> StronglySorted (key_le key') l.
Proof.
  intros Hl Hs. induction Hs as [|x l Hs IH Hx]; [constructor|].
  apply Forall_cons in Hl as [Hxx Hl]. constructor; [by apply IH|].
  rewrite Forall_forall in Hx, Hl. apply Forall_forall. intros y Hy.
  unfold key_le in *. rewrite <- Hxx, <- (Hl _ Hy). by apply Hx.
Qed.

Lemma sched_ok_evolves h h' s : evolves h h' -> sched_ok h s -> sched_ok h' s.
Proof.
  intros Hev [Hv Hs Hnw Hnp Hsw Hsp Hd]. split; try done.
  - eapply Forall_impl; [exact Hv|]. intros f [fr Hfr]. exists fr.
    by eapply evolves_lookup_func.
  - eapply StronglySorted_key_ext; [|exact Hs].
    eapply Forall_impl; [exact Hv|]. intros f Hf. cbn.
    by rewrite (gen_of_evolves _ _ _ Hev Hf).
Qed.

(** Removing the last entry of the worklist: it is new among the handled
    Functions, and of the highest generation. *)
Lemma sched_ok_pop h s f rest :
  sched_ok h s -> worklist s = rest ++ [f] ->
  (f ∉ processed s) /\
  (forall g, g ∈ rest -> gen_of h g <= gen_of h f) /\
  sched_ok h {| worklist := rest; seen_set := seen_set s; processed := f :: processed s |}.
Proof.
  intros [Hv Hs Hnw Hnp Hsw Hsp Hd] Hw. rewrite Hw in *.
  apply Forall_app in Hv as [Hv _].
  apply NoDup_app in Hnw as (Hnr & Hnf & _).
  split; [apply Hd; set_solver|]. split.
  - intros g Hg. 
    pose proof (StronglySorted_app_1_elem_of _ _ _ g f Hs Hg) as Hle.
    unfold key_le in Hle. specialize (Hle ltac:(set_solver)). lia.
  - split; cbn; try done.
    + by apply StronglySorted_app_1_l in Hs.
    + constructor; [|done]. apply Hd. set_solver.
    + intros g Hg. apply Hsw. set_solver.
    + intros g Hg. apply elem_of_cons in Hg as [->|Hg]; [|by apply Hsp].
      apply Hsw. set_solver.
    + intros g Hg Hg'. apply elem_of_cons in Hg' as [->|Hg'].
      * apply (Hnf f Hg). set_solver.
      * apply (Hd g); [set_solver|done].
Qed.

Lemma sched_ok_add_func h s c s' h' :
  sched_ok h s -> add_func (Some c) s h = (Ok s', h') -> sched_ok h' s'.
Proof.
  intros Hok H. apply add_func_inv in H as [-> [[_ ->]|(Hc & Hall & ->)]]; [done|].
  destruct Hok as [Hv Hs Hnw Hnp Hsw Hsp Hd].
  assert (c ∉ worklist s) as Hcw by (intros ?; by apply Hc, Hsw).
  split; cbn.
  - by rewrite sort_by_perm.
  - apply sort_by_sorted.
  - rewrite sort_by_perm. apply NoDup_app. split; [done|]. split.
    + intros x Hx Hx'. apply list_elem_of_singleton in Hx' as ->. done.
    + apply NoDup_singleton.
  - done.
  - intros f. rewrite sort_by_perm, elem_of_app, list_elem_of_singleton.
    intros [?| ->]; [right; auto | left].
  - intros f ?. right. auto.
  - intros f. rewrite sort_by_perm. intros Hf Hf'. 
    apply elem_of_app in Hf as [Hf|Hf]; [by apply (Hd f)|].
    apply list_elem_of_singleton in Hf as ->. by apply Hc, Hsp.
Qed.

Lemma sched_ok_accumulate h s p s' h' :
  sched_ok h s -> accumulate p s h = (Ok s', h') -> sched_ok h' s'.
Proof.
  intros Hok H. pose proof (accumulate_evolves _ _ _ _ _ H) as Hev.
  destruct p as [x dx].
  apply accumulate_inv in H as (xv & h1 & g' & _ & _ & _ & -> & [[_ ->]|(c & _ & Hadd)]).
  - by eapply sched_ok_evolves.
  - eapply sched_ok_add_func; [|exact Hadd]. by eapply sched_ok_evolves.
Qed.

Lemma sched_ok_iteration retain h s s' h' :
  sched_ok h s -> iteration retain s h = (Ok s', h') -> sched_ok h' s'.
Proof.
  intros Hok H. destruct (pop (worklist s)) as [[f rest]|] eqn:Hpop.
  - apply pop_Some in Hpop.
    destruct (iteration_inv _ _ _ _ _ _ _ Hpop H)
      as (fr & yvs & dxs & h1 & h2 & Hfr & Hyvs & Hrule & Hacc & Hclear).
    destruct (sched_ok_pop _ _ _ _ Hok Hpop) as (_ & _ & Hok1).
    apply (sched_ok_evolves _ h1) in Hok1;
      [|eapply allocates_evolves, backward_rule_allocates, Hrule].
    assert (sched_ok h2 s') as Hok2.
    { revert Hacc. generalize (zip (inputs fr) dxs). intros l.
      apply (mfold_ind (fun _ h s => sched_ok h s) accumulate
               ltac:(intros; by eapply sched_ok_accumulate) l []). done. }
    destruct retain; [by subst|].
    eapply sched_ok_evolves; [|exact Hok2]. by eapply clear_grads_evolves.
  - unfold iteration in H. rewrite Hpop in H. by inv_prim H.
Qed.

Lemma sched_ok_init v h s0 h0 :
  backward_init v h = (Ok s0, h0) -> sched_ok h0 s0.
Proof.
  unfold backward_init. intros H. inv_bind H. inv_bind H.
  destruct (creator a) as [c|]; [|cbn [add_func] in H; by inv_prim H].
  eapply sched_ok_add_func; [|exact H].
  split; cbn; try done; try constructor; set_solver.
Qed.

Lemma reached_sched_ok v retain h s h' : reached v retain h s h' -> sched_ok h' s.
Proof.
  induction 1 as [s0 h0 Hinit|s1 h1 s2 h2 _ IH _ Hit].
  - by eapply sched_ok_init.
  - by eapply sched_ok_iteration.
Qed.

Lemma backward_loop_reached v retain h fuel s h1 s' h2 :
  reached v retain h s h1 ->
  backward_loop fuel retain s h1 = (Ok s', h2) ->
  reached v retain h s' h2 /\ worklist s' = [].
Proof.
  revert s h1. induction fuel as [|n IH]; intros s h1 Hr H; cbn [backward_loop] in H.
  - destruct (worklist s) eqn:Hw; inv_prim H. done.
  - destruct (worklist s) eqn:Hw; [inv_prim H; done|].
    inv_bind H. eapply IH; [|exact H].
    eapply reached_step; [exact Hr| |exact E]. by rewrite Hw.
Qed.

Lemma backward_trace_reached v retain h s h' :
  backward_trace v retain h = (Ok s, h') ->
  reached v retain h s h' /\ worklist s = [].
Proof.
  unfold backward_trace. intros H. inv_bind H. rewrite bind_get_store in H.
  eapply backward_loop_reached; [|exact H]. by constructor.
Qed.


#[global] Instance keeps_preorder P : PreOrder (keeps P).
Proof. split; unfold keeps; [intros h; auto | intros h1 h2 h3; auto]. Qed.

Lemma allocates_length h h' : allocates h h' -> length (vars h) <= length (vars h').
Proof. intros [V _ _ _ _]. by apply prefix_length. Qed.

Lemma none_or_node_mono h h' g :
  length (vars h) <= length (vars h') -> none_or_node h g -> none_or_node h' g.
Proof.
  intros Hle [->|(v & -> & Hv)]; [by left|]. right. exists v. split; [done|lia].
Qed.

Lemma grads_are_nodes_allocates h h' :
  allocates h h' -> grads_are_nodes h -> grads_are_nodes h'.
Proof.
  intros Hal Hg v x Hv. pose proof (allocates_length _ _ Hal) as Hle.
  destruct (decide (v < length (vars h))) as [Hlt|Hge].
  - destruct Hal as [[k Hk] _ _ _ _]. rewrite Hk, lookup_app_l in Hv by done.
    eapply none_or_node_mono; [|by eapply Hg]. done.
  - left. eapply (al_fresh _ _ Hal); [done|lia].
Qed.

Lemma nodes_from_allocates h0 h h' : allocates h h' -> keeps (nodes_from h0) h h'.
Proof.
  intros Hal [Hg Hle]. pose proof (allocates_length _ _ Hal). split.
  - by eapply grads_are_nodes_allocates.
  - lia.
Qed.

Lemma allocates_keeps_nodes {A} h0 (m : M A) :
  preserves allocates m -> preserves (keeps (nodes_from h0)) m.
Proof. apply preserves_weaken, nodes_from_allocates. Qed.

Lemma grads_are_nodes_update h x xv g :
  vars h !! x = Some xv -> none_or_node h g -> grads_are_nodes h ->
  grads_are_nodes (update_var x (with_grad g xv) h).
Proof.
  intros Hx Hg Hall v y Hv. unfold update_var in *. cbn [vars] in *.
  assert (forall g', none_or_node h g' ->
            none_or_node {| vars := <[x:=with_grad g xv]> (vars h); funcs := funcs h;
                            enable_backprop := enable_backprop h |} g') as Hmono.
  { intros g'. apply none_or_node_mono. cbn. by rewrite length_insert. }
  destruct (decide (x = v)) as [->|Hne].
  - rewrite list_lookup_insert_eq in Hv by (by eapply lookup_lt_Some).
    simplify_eq. cbn. by apply Hmono.
  - rewrite list_lookup_insert_ne in Hv by done. apply Hmono. by eapply Hall.
Qed.

Lemma set_grad_keeps_nodes h0 x g :
  none_or_node h0 g -> preserves (keeps (nodes_from h0)) (set_grad x g).
Proof.
  intros Hg h r h' H [Hall Hle].
  apply set_grad_inv in H as [(xv & Hx & -> & ->)|(_ & _ & ->)]; [|done].
  split.
  - apply grads_are_nodes_update; [done| |done]. by eapply none_or_node_mono.
  - unfold update_var; cbn. by rewrite length_insert.
Qed.

Lemma call_valid o args h out h' :
  call o args h = (Ok out, h') -> out < length (vars h').
Proof.
  intros H. apply call_inv in H.
  inversion H as [| ws a Hen Hws | ws ins xvs a sv Hen Hws Hins Hxvs Hne Hfw]; subst.
  - cbn. rewrite !length_app. cbn. lia.
  - cbn. rewrite !length_app. cbn. lia.
Qed.

Lemma call_node o args h out h' :
  call o args h = (Ok out, h') -> is_node h' (PyVar out).
Proof. intros H. exists out. split; [done|]. by eapply call_valid. Qed.

Lemma shape_of_inv x h s h' :
  shape_of x h = (Ok s, h') ->
  h' = h /\ forall v, x = PyVar v -> v < length (vars h).
Proof.
  destruct x; cbn [shape_of]; intros H; try by inv_prim H.
  unfold var_shape in H. inv_bind H.
  apply get_var_inv in E as [-> [(xv & Hx & ?)|[_ ?]]]; simplify_eq.
  destruct (data xv); inv_prim H. split; [done|].
  intros ? ?; simplify_eq. by eapply lookup_lt_Some.
Qed.

Lemma as_variable_valid x h v h' :
  (forall w, x = PyVar w -> w < length (vars h)) ->
  as_variable x h = (Ok v, h') -> v < length (vars h').
Proof.
  intros Hx H. destruct x; cbn in H; inv_prim H; cbn; rewrite ?length_app; cbn; try lia.
  by apply Hx.
Qed.

(** [reshape], [broadcast_to] and [sum_to] have the same shape. *)
Lemma same_shape_or_call_valid o x shape h v h' :
  (s <- shape_of x ;;
   if bool_decide (s = shape) then as_variable x else call o [x]) h = (Ok v, h') ->
  v < length (vars h').
Proof.
  intros H. inv_bind H. apply shape_of_inv in E as [-> Hx].
  case_bool_decide.
  - by eapply as_variable_valid.
  - by eapply call_valid.
Qed.

Lemma sum_to_node x s h v h' : sum_to x s h = (Ok v, h') -> is_node h' (PyVar v).
Proof. intros H. exists v. split; [done|]. by eapply same_shape_or_call_valid. Qed.

Lemma broadcast_to_node x s h v h' : broadcast_to x s h = (Ok v, h') -> is_node h' (PyVar v).
Proof. intros H. exists v. split; [done|]. by eapply same_shape_or_call_valid. Qed.

Lemma reshape_node x s h v h' : reshape x s h = (Ok v, h') -> is_node h' (PyVar v).
Proof. intros H. exists v. split; [done|]. by eapply same_shape_or_call_valid. Qed.

Lemma py_neg_node a h r h' :
  none_or_node h a -> py_neg a h = (Ok r, h') -> is_node h' r.
Proof.
  intros [->|(v & -> & Hv)] H; cbn [py_neg] in H; [by inv_prim H|].
  inv_bind H. inv_prim H. by eapply call_node.
Qed.

Lemma py_mul_var_node a x h r h' : py_mul_var a x h = (Ok r, h') -> is_node h' r.
Proof.
  intros H. unfold py_mul_var, mul in H.
  destruct a; inv_bind H; inv_prim H; by eapply call_node.
Qed.

Lemma py_add_node a b h r h' :
  is_node h a -> py_add a b h = (Ok r, h') -> is_node h' r.
Proof.
  intros (v & -> & Hv) H. cbn [py_add] in H. unfold add in H.
  inv_bind H. inv_prim H. by eapply call_node.
Qed.

Lemma is_node_mono h h' g :
  length (vars h) <= length (vars h') -> is_node h g -> is_node h' g.
Proof. intros Hle (v & -> & Hv). exists v. split; [done|lia]. Qed.

Ltac forall_list := repeat first [ apply Forall_cons_2 | apply Forall_nil_2 ].

Lemma backward_rule_nodes fr dys h dxs h' :
  Forall (none_or_node h) dys ->
  backward_rule fr dys h = (Ok dxs, h') ->
  Forall (none_or_node h') dxs.
Proof.
  intros Hdys H. pose proof (backward_rule_allocates _ _ _ _ _ H) as Hal.
  apply allocates_length in Hal.
  unfold backward_rule in H.
  destruct dys as [|dy [|]]; try by inv_prim H.
  rewrite Forall_singleton in Hdys.
  assert (none_or_node h' dy) as Hdy'
    by (eapply none_or_node_mono; [exact Hal|exact Hdys]).
  destruct (fn_class fr).
  - (* Add *)
    destruct (saved fr) as [|s0 [|s1 [|]]]; try by inv_prim H.
    case_bool_decide; [|inv_prim H; by forall_list].
    inv_bind H. inv_bind H. inv_prim H.
    pose proof (allocates_length _ _ (sum_to_allocates _ _ _ _ _ E0)).
    apply sum_to_node in E, E0. forall_list; right; [|done].
    by eapply is_node_mono.
  - (* Sub *)
    inv_bind H. pose proof (py_neg_allocates _ _ _ _ E) as Hal1.
    apply allocates_length in Hal1. apply py_neg_node in E; [|done].
    destruct (saved fr) as [|s0 [|s1 [|]]]; try by inv_prim H.
    case_bool_decide; [|inv_prim H; forall_list; [done|by right]].
    inv_bind H. inv_bind H. inv_prim H.
    pose proof (allocates_length _ _ (sum_to_allocates _ _ _ _ _ E1)).
    apply sum_to_node in E0, E1. forall_list; right; [|done].
    by eapply is_node_mono.
  - (* Mul *)
    destruct (inputs fr) as [|x0 [|x1 [|]]]; try by inv_prim H.
    inv_bind H. inv_bind H. inv_bind H. inv_bind H.
    pose proof (allocates_length _ _ (py_mul_var_allocates _ _ _ _ _ E0)).
    pose proof (allocates_length _ _ (var_shape_allocates _ _ _ _ E1)).
    pose proof (allocates_length _ _ (var_shape_allocates _ _ _ _ E2)).
    apply py_mul_var_node in E, E0.
    case_bool_decide.
    + inv_bind H. inv_bind H. inv_prim H.
      pose proof (allocates_length _ _ (sum_to_allocates _ _ _ _ _ E4)).
      apply sum_to_node in E3, E4. forall_list; right; [|done].
      by eapply is_node_mono.
    + inv_prim H. forall_list; right.
      * eapply is_node_mono; [|exact E]. lia.
      * eapply is_node_mono; [|exact E0]. lia.
  - (* Neg *)
    inv_bind H. inv_bind H. inv_prim H.
    apply py_neg_node in E; [|done]. apply py_neg_node in E0; [|by right].
    forall_list. by right.
  - (* Reshape *)
    destruct (saved fr) as [|s0 [|]]; try by inv_prim H.
    inv_bind H. inv_prim H. apply reshape_node in E. forall_list. by right.
  - (* Transpose *)
    destruct axes; inv_bind H; inv_prim H; apply call_node in E;
      forall_list; by right.
  - (* BroadcastTo *)
    destruct (saved fr) as [|s0 [|]]; try by inv_prim H.
    inv_bind H. inv_prim H. apply sum_to_node in E. forall_list. by right.
  - (* SumTo *)
    destruct (saved fr) as [|s0 [|]]; try by inv_prim H.
    inv_bind H. inv_prim H. apply broadcast_to_node in E. forall_list. by right.
Qed.

Lemma set_grad_nodes_from h0 x g h r h' :
  set_grad x g h = (r, h') -> none_or_node h g -> nodes_from h0 h -> nodes_from h0 h'.
Proof.
  intros H Hg [Hall Hle].
  apply set_grad_inv in H as [(xv & Hx & -> & ->)|(_ & _ & ->)]; [|done].
  split.
  - by apply grads_are_nodes_update.
  - unfold update_var; cbn. by rewrite length_insert.
Qed.

Lemma enqueue_creator_store x s :
  preserves eq (xv <- get_var x ;;
                match creator xv with
                | Some c => add_func (Some c) s
                | None => ret s
                end).
Proof.
  pres_step; [pres_step|]. destruct (creator a); [|pres_step].
  intros h r h' H. by apply add_func_store in H.
Qed.

Lemma accumulate_keeps_nodes h0 x dx s :
  none_or_node h0 dx -> preserves (keeps (nodes_from h0)) (accumulate (x, dx) s).
Proof.
  intros Hdx h r h' H HP. unfold accumulate in H.
  inv_bind H; [|by apply get_var_inv in E as [-> _]].
  apply get_var_inv in E as [-> [(xv & Hx & ?)|[_ ?]]]; simplify_eq.
  assert (none_or_node h dx) as Hdx' by (eapply none_or_node_mono; [apply HP|done]).
  assert (is_node h (grad xv) -> forall r1 h1, py_add (grad xv) dx h = (Ok r1, h1) ->
          is_node h1 r1) as Hadd by (intros; by eapply py_add_node).
  assert (forall r1 h1, py_add (grad xv) dx h = (r1, h1) -> nodes_from h0 h1) as Hadd'.
  { intros r1 h1 E. eapply nodes_from_allocates; [|exact HP]. by eapply py_add_allocates. }
  destruct (proj1 HP _ _ Hx) as [Hg|Hn].
  - rewrite Hg in H. inv_bind H.
    + apply enqueue_creator_store in H as <-. by eapply set_grad_nodes_from.
    + by eapply set_grad_nodes_from.
  - assert (grad xv <> PyNone) as Hg by (destruct Hn as (? & -> & _); done).
    destruct (grad xv) eqn:Hgx; [done|..]; specialize (Hadd Hn).
    all: inv_bind H;
      [ apply enqueue_creator_store in H as <-; inv_bind E;
        eapply set_grad_nodes_from; [exact E| |eapply Hadd'; exact E0];
        right; eapply Hadd; exact E0
      | inv_bind E;
        [ eapply set_grad_nodes_from; [exact E| |eapply Hadd'; exact E0];
          right; eapply Hadd; exact E0
        | eapply Hadd'; exact E0 ] ].
Qed.

Lemma preserves_mfold_Forall (R : relation store) `{!PreOrder R} {A S}
    (f : A -> S -> M S) l s :
  Forall (fun x => forall s, preserves R (f x s)) l -> preserves R (mfold f l s).
Proof.
  intros Hl. revert s. induction Hl as [|x l Hx _ IH]; intros s; cbn [mfold].
  - apply preserves_ret, _.
  - apply preserves_bind; [apply _|apply Hx|]. intros s'. apply IH.
Qed.

Lemma clear_grads_keeps_nodes h0 ys :
  preserves (keeps (nodes_from h0)) (mfold (fun y (_ : unit) => set_grad y PyNone) ys tt).
Proof.
  pres_step. intros h r h' H HP. eapply set_grad_nodes_from; [exact H| |done]. by left.
Qed.

Lemma iteration_keeps_nodes retain s :
  preserves (keeps grads_are_nodes) (iteration retain s).
Proof.
  intros h r h' H Hall. unfold iteration in H.
  destruct (pop (worklist s)) as [[f rest]|]; [|by inv_prim H].
  inv_bind H; [|by apply get_func_inv in E as [-> _]].
  apply get_func_inv in E as [-> [(fr & Hfr & ?)|[_ ?]]]; simplify_eq.
  inv_bind H; [|by apply (mmap_read_inv grad) in E as [-> _]].
  apply (mmap_read_inv grad) in E as [-> Hys].
  destruct (Hys _ eq_refl) as (yvs & Hyvs & ->).
  assert (Forall (none_or_node h) (grad <$> yvs)) as Hdys.
  { apply Forall_fmap, Forall_forall. intros yv Hyv. cbn.
    apply list_elem_of_lookup in Hyv as [i Hi].
    apply mapM_Some in Hyvs.
    destruct (Forall2_lookup_r _ _ _ _ _ Hyvs Hi) as (y & _ & Hy). by eapply Hall. }
  inv_bind H; cycle 1.
  { eapply grads_are_nodes_allocates; [|exact Hall]. by eapply backward_rule_allocates. }
  pose proof (backward_rule_nodes _ _ _ _ _ Hdys E) as Hdxs.
  assert (nodes_from h0 h0) as HP.
  { split; [|done]. eapply grads_are_nodes_allocates; [|exact Hall].
    by eapply backward_rule_allocates. }
  assert (forall l s1, l ⊆ zip (inputs fr) a ->
            preserves (keeps (nodes_from h0)) (mfold accumulate l s1)) as Hfold.
  { intros l s1 Hl. apply preserves_mfold_Forall; [apply _|].
    apply Forall_forall. intros [x dx] Hx s2. apply accumulate_keeps_nodes.
    rewrite Forall_forall in Hdxs. apply Hdxs.
    apply Hl in Hx. by apply elem_of_zip_r in Hx. }
  inv_bind H; cycle 1.
  { by apply (Hfold _ _ (reflexivity _) _ _ _ E0). }
  apply (Hfold _ _ (reflexivity _)) in E0. specialize (E0 HP).
  inv_bind H.
  - inv_prim H. destruct retain.
    + inv_prim E1. apply E0.
    + by apply (clear_grads_keeps_nodes h0 _ _ _ _ E1).
  - destruct retain; [by inv_prim E1|].
    by apply (clear_grads_keeps_nodes h0 _ _ _ _ E1).
Qed.

Lemma backward_loop_keeps_nodes fuel retain s :
  preserves (keeps grads_are_nodes) (backward_loop fuel retain s).
Proof.
  revert s. induction fuel as [|n IH]; intros s; cbn [backward_loop].
  - destruct (worklist s); pres_step.
  - destruct (worklist s); [pres_step|].
    pres_step; [apply iteration_keeps_nodes|apply IH].
Qed.

Lemma backward_init_keeps_nodes v : preserves (keeps grads_are_nodes) (backward_init v).
Proof.
  intros h r h' H Hall. unfold backward_init in H.
  inv_bind H; [|by apply get_var_inv in E as [-> _]].
  apply get_var_inv in E as [-> [(xv & Hx & ?)|[_ ?]]]; simplify_eq.
  assert (forall h1 r1 h2, add_func (creator xv) {| worklist := []; seen_set := [];
            processed := [] |} h1 = (r1, h2) -> h2 = h1) as Hadd.
  { intros h1 r1 h2. destruct (creator xv); [apply add_func_store|].
    cbn. intros E; by inv_prim E. }
  assert (forall r1 h1,
    match grad xv with
    | PyNone =>
        match data xv with
        | Some a => g <- new_variable (PyArr (Np.ones (Np.shape a))) ;; set_grad v (PyVar g)
        | None => raise AttributeError
        end
    | _ => ret tt
    end h = (r1, h1) -> grads_are_nodes h1) as Hseed.
  { intros r1 h1 E. destruct (grad xv); try by inv_prim E.
    destruct (data xv) as [a|]; [|by inv_prim E].
    cbn [new_variable] in E. rewrite bind_alloc_var in E.
    assert (allocates h (add_vars [{| data := Some (Np.ones (Np.shape a)); grad := PyNone;
                                      creator := None; generation := 0 |}] h)) as Hal.
    { apply adds_leaves_allocates. eexists. split; [|done]. by repeat constructor. }
    pose proof (grads_are_nodes_allocates _ _ Hal Hall) as Hall1.
    eapply (set_grad_nodes_from h); [exact E| |split; [exact Hall1|]].
    - right. eexists. split; [done|]. cbn. rewrite length_app. cbn. lia.
    - by apply allocates_length. }
  inv_bind H.
  - apply Hadd in H as ->. by eapply Hseed.
  - by eapply Hseed.
Qed.

Lemma backward_keeps_nodes v retain : preserves (keeps grads_are_nodes) (backward v retain).
Proof.
  unfold backward, backward_trace.
  repeat first [ pres_step | apply backward_init_keeps_nodes
               | apply backward_loop_keeps_nodes ].
Qed.

Lemma using_config_keeps_nodes {A} b (m : M A) :
  preserves (keeps grads_are_nodes) m -> preserves (keeps grads_are_nodes) (using_config b m).
Proof.
  intros Hm h r h' H Hall. unfold using_config in H.
  destruct (m (set_enable_backprop b h)) as [r1 h1] eqn:E. simplify_eq.
  apply Hm in E. apply E in Hall. exact Hall.
Qed.

Lemma allocates_keeps_grads {A} (m : M A) :
  preserves allocates m -> preserves (keeps grads_are_nodes) m.
Proof.
  apply preserves_weaken. unfold keeps. intros h h' Hal Hg.
  by eapply grads_are_nodes_allocates.
Qed.

Lemma perform_keeps_nodes a : preserves (keeps grads_are_nodes) (perform a).
Proof.
  destruct a; cbn [perform].
  - pres_step; [|pres_step]. apply allocates_keeps_grads, new_variable_allocates.
  - pres_step; [|pres_step]. apply allocates_keeps_grads, call_allocates.
  - pres_step; [|pres_step].
    apply using_config_keeps_nodes, allocates_keeps_grads, call_allocates.
  - apply backward_keeps_nodes.
  - intros h r h' H Hall.
    apply (set_grad_nodes_from h _ _ _ _ _ H); [by left|by split].
Qed.


Lemma py_add_not_none a b h r h' : py_add a b h = (Ok r, h') -> r <> PyNone.
Proof.
  unfold py_add. intros H.
  destruct a, b; try (by inv_prim H); inv_bind H; inv_prim H; done.
Qed.

Lemma py_neg_not_none a h r h' : py_neg a h = (Ok r, h') -> r <> PyNone.
Proof.
  unfold py_neg. intros H.
  destruct a; try (by inv_prim H); inv_bind H; inv_prim H; done.
Qed.

Lemma py_mul_var_not_none a x h r h' : py_mul_var a x h = (Ok r, h') -> r <> PyNone.
Proof.
  unfold py_mul_var. intros H. destruct a; inv_bind H; inv_prim H; done.
Qed.

(** A rule that returns gives one gradient per input, and none of them
    is None when the gradient of the output is not. *)
Lemma backward_rule_results fr dys h dxs h' :
  backward_rule fr dys h = (Ok dxs, h') ->
  length dxs = arity (fn_class fr) /\
  (Forall (fun dy => dy <> PyNone) dys -> Forall (fun dx => dx <> PyNone) dxs).
Proof.
  intros H. unfold backward_rule in H.
  destruct dys as [|dy [|]]; try by inv_prim H.
  rewrite Forall_singleton.
  destruct (fn_class fr); cbn [arity].
  - destruct (saved fr) as [|s0 [|s1 [|]]]; try by inv_prim H.
    case_bool_decide.
    + inv_bind H. inv_bind H. inv_prim H. split; [done|]. intros _. by forall_list.
    + inv_prim H. split; [done|]. intros ?. by forall_list.
  - inv_bind H. apply py_neg_not_none in E.
    destruct (saved fr) as [|s0 [|s1 [|]]]; try by inv_prim H.
    case_bool_decide.
    + inv_bind H. inv_bind H. inv_prim H. split; [done|]. intros _. by forall_list.
    + inv_prim H. split; [done|]. intros ?. by forall_list.
  - destruct (inputs fr) as [|x0 [|x1 [|]]]; try by inv_prim H.
    inv_bind H. inv_bind H. inv_bind H. inv_bind H.
    apply py_mul_var_not_none in E, E0.
    case_bool_decide.
    + inv_bind H. inv_bind H. inv_prim H. split; [done|]. intros _. by forall_list.
    + inv_prim H. split; [done|]. intros _. by forall_list.
  - inv_bind H. inv_bind H. inv_prim H. apply py_neg_not_none in E0.
    split; [done|]. intros _. by forall_list.
  - destruct (saved fr) as [|s0 [|]]; try by inv_prim H.
    inv_bind H. inv_prim H. split; [done|]. intros _. by forall_list.
  - destruct axes; inv_bind H; inv_prim H; (split; [done|]); intros _; by forall_list.
  - destruct (saved fr) as [|s0 [|]]; try by inv_prim H.
    inv_bind H. inv_prim H. split; [done|]. intros _. by forall_list.
  - destruct (saved fr) as [|s0 [|]]; try by inv_prim H.
    inv_bind H. inv_prim H. split; [done|]. intros _. by forall_list.
Qed.

(** Facts of a well-formed graph, by reference. *)
Lemma wf_ins_valid h f x : wf h -> x ∈ ins h f -> is_Some (vars h !! x).
Proof.
  intros Hwf Hx. unfold ins in Hx. destruct (funcs h !! f) as [fr|] eqn:Hf; [|set_solver].
  destruct (wf_inputs _ Hwf _ _ _ Hf Hx) as (xv & -> & _). eauto.
Qed.

Lemma wf_creator_outs h x c :
  wf h -> the_creator h x = Some c -> outs h c = [x] /\ is_Some (funcs h !! c).
Proof.
  intros Hwf Hc. unfold the_creator in Hc. destruct (vars h !! x) as [xv|] eqn:Hx; [|done].
  destruct (wf_creator _ Hwf _ _ _ Hx Hc) as (fr & Hfr & Ho & _).
  unfold outs. rewrite Hfr. eauto.
Qed.

Lemma wf_outs_creator h f x : wf h -> x ∈ outs h f -> the_creator h x = Some f.
Proof.
  intros Hwf Hx. unfold outs in Hx. destruct (funcs h !! f) as [fr|] eqn:Hf; [|set_solver].
  destruct (wf_outputs _ Hwf _ _ _ Hf Hx) as (xv & Hxv & Hc).
  unfold the_creator. by rewrite Hxv.
Qed.

Lemma wf_gen_lt h f x c :
  wf h -> x ∈ ins h f -> the_creator h x = Some c -> gen_of h c < gen_of h f.
Proof.
  intros Hwf Hx Hc. unfold ins in Hx.
  destruct (funcs h !! f) as [fr|] eqn:Hf; [|set_solver].
  destruct (wf_inputs _ Hwf _ _ _ Hf Hx) as (xv & Hxv & Hg).
  unfold the_creator in Hc. rewrite Hxv in Hc.
  destruct (wf_creator _ Hwf _ _ _ Hxv Hc) as (cr & Hcr & _ & Hgc).
  unfold gen_of. rewrite Hf, Hcr. lia.
Qed.

(** What allocation and assignment of a gradient do to the gradients. *)
Lemma the_grad_allocates h h1 v : allocates h h1 -> the_grad h1 v = the_grad h v.
Proof.
  intros Hal. unfold the_grad.
  destruct (vars h !! v) as [xv|] eqn:Hv.
  - by rewrite (allocates_lookup_var _ _ _ _ Hal Hv).
  - destruct (vars h1 !! v) as [xv|] eqn:Hv1; [|done].
    eapply (al_fresh _ _ Hal); [done|]. by apply lookup_ge_None.
Qed.

Lemma the_grad_update_eq h x xv g :
  vars h !! x = Some xv -> the_grad (update_var x (with_grad g xv) h) x = g.
Proof.
  intros Hx. unfold the_grad, update_var. cbn [vars].
  by rewrite list_lookup_insert_eq by (by eapply lookup_lt_Some).
Qed.

Lemma the_grad_update_ne h x w v :
  v <> x -> the_grad (update_var x w h) v = the_grad h v.
Proof.
  intros Hne. unfold the_grad, update_var. cbn [vars].
  by rewrite list_lookup_insert_ne.
Qed.

Lemma the_creator_evolves h h' x :
  evolves h h' -> is_Some (vars h !! x) -> the_creator h' x = the_creator h x.
Proof.
  intros Hev [xv Hx]. destruct (ev_vars _ _ Hev _ _ Hx) as (xv' & Hx' & _ & Hc & _).
  unfold the_creator. by rewrite Hx, Hx'.
Qed.

Lemma ins_evolves h h' f :
  evolves h h' -> is_Some (funcs h !! f) -> ins h' f = ins h f.
Proof.
  intros Hev [fr Hf]. unfold ins.
  by rewrite (evolves_lookup_func _ _ _ _ Hev Hf), Hf.
Qed.

Lemma outs_evolves h h' f :
  evolves h h' -> is_Some (funcs h !! f) -> outs h' f = outs h f.
Proof.
  intros Hev [fr Hf]. unfold outs.
  by rewrite (evolves_lookup_func _ _ _ _ Hev Hf), Hf.
Qed.

Lemma clear_grads_inv ys h h' :
  mfold (fun y (_ : unit) => set_grad y PyNone) ys tt h = (Ok tt, h') ->
  (forall v, v ∈ ys -> the_grad h' v = PyNone) /\
  (forall v, v ∉ ys -> the_grad h' v = the_grad h v).
Proof.
  revert h. induction ys as [|y ys IH]; intros h H; cbn [mfold] in H.
  - inv_prim H. split; [set_solver|done].
  - inv_bind H. destruct a.
    apply set_grad_inv in E as [(xv & Hx & _ & ->)|(_ & ? & _)]; [|done].
    destruct (IH _ H) as [Hin Hout]. split.
    + intros v Hv. destruct (decide (v ∈ ys)) as [?|Hn]; [by apply Hin|].
      apply elem_of_cons in Hv as [->|?]; [|done].
      rewrite (Hout _ Hn). by apply the_grad_update_eq.
    + intros v Hv. apply not_elem_of_cons in Hv as [Hne Hn].
      rewrite (Hout _ Hn). by apply the_grad_update_ne.
Qed.

Section Pass.
Context (hb : store) (f0 : nat) (Hwf : wf hb).

Lemma handled_other cur done f :
  cur <> Some f -> handled hb cur done f = ins hb f.
Proof. intros Hne. unfold handled. by rewrite bool_decide_eq_false_2. Qed.

Lemma handled_cur done f : handled hb (Some f) done f = done.
Proof. unfold handled. by rewrite bool_decide_eq_true_2. Qed.

Lemma pass_inv_pop h s f rest :
  pass_inv hb f0 None [] h s -> sched_ok h s -> worklist s = rest ++ [f] ->
  pass_inv hb f0 (Some f) [] h
    {| worklist := rest; seen_set := seen_set s; processed := f :: processed s |}.
Proof.
  intros [Hev Hseed Hval Hseen Hord Hcur Hlow Hclr Hcls Hlv Hpend] Hok Hw.
  destruct (sched_ok_pop _ _ _ _ Hok Hw) as (Hnew & Hmax & _).
  assert (f ∈ worklist s) as Hfw by (rewrite Hw; set_solver).
  assert (forall g, g ∈ rest -> g ∈ worklist s) as Hrw by (intros; rewrite Hw; set_solver).
  assert (forall g, g ∈ worklist s -> gen_of h g = gen_of hb g) as Hgen.
  { intros g Hg. apply gen_of_evolves; [done|]. apply Hval. by apply (so_seen_w _ _ Hok). }
  split; cbn [worklist seen_set processed].
  - done.
  - done.
  - done.
  - intros g Hg. destruct (Hseen _ Hg) as [Hgw|?]; [|set_solver].
    rewrite Hw in Hgw. set_solver.
  - intros f' g Hf' Hg. apply elem_of_cons in Hf' as [->|Hf']; [|by eauto].
    rewrite <- !Hgen by eauto. by apply Hmax.
  - intros c ?; simplify_eq. set_solver.
  - intros c f' ? Hf'; simplify_eq. apply elem_of_cons in Hf' as [->|Hf']; [done|by eauto].
  - intros f' x Hf' Hne Hx. apply elem_of_cons in Hf' as [->|Hf']; [done|].
    by apply (Hclr f').
  - intros f' x c Hf' Hx Hc. destruct (decide (f' = f)) as [->|Hne].
    + rewrite handled_cur in Hx. set_solver.
    + rewrite handled_other in Hx by congruence.
      apply (Hcls f' x); [set_solver| |done]. by rewrite handled_other.
  - intros f' x Hf' Hx Hc. destruct (decide (f' = f)) as [->|Hne].
    + rewrite handled_cur in Hx. set_solver.
    + rewrite handled_other in Hx by congruence.
      apply (Hlv f' x); [set_solver| |done]. by rewrite handled_other.
  - intros g x Hg Hx. apply (Hpend g x); eauto.
Qed.

Lemma pass_inv_allocates cur done h h1 s :
  allocates h h1 -> pass_inv hb f0 cur done h s -> pass_inv hb f0 cur done h1 s.
Proof.
  intros Hal [Hev Hseed Hval Hseen Hord Hcur Hlow Hclr Hcls Hlv Hpend].
  split.
  - etransitivity; [exact Hev|]. by apply allocates_evolves.
  - done.
  - done.
  - done.
  - done.
  - done.
  - done.
  - intros f x ? ? ?. rewrite (the_grad_allocates _ _ _ Hal). eauto.
  - done.
  - intros f x ? ? ?. rewrite (the_grad_allocates _ _ _ Hal). eauto.
  - intros f x ? ?. rewrite (the_grad_allocates _ _ _ Hal). eauto.
Qed.

Lemma pass_inv_clear f h s h' :
  pass_inv hb f0 (Some f) (ins hb f) h s -> sched_ok h s ->
  mfold (fun y (_ : unit) => set_grad y PyNone) (outs hb f) tt h = (Ok tt, h') ->
  pass_inv hb f0 None [] h' s.
Proof.
  intros [Hev Hseed Hval Hseen Hord Hcur Hlow Hclr Hcls Hlv Hpend] Hok Hc.
  pose proof (clear_grads_evolves _ _ _ _ Hc) as Hev'.
  destruct (clear_grads_inv _ _ _ Hc) as [Hin Hout].
  assert (forall f', handled hb (Some f) (ins hb f) f' = ins hb f') as Hh.
  { intros f'. destruct (decide (f' = f)) as [->|Hne];
      [apply handled_cur|apply handled_other; congruence]. }
  split.
  - by etransitivity.
  - done.
  - done.
  - done.
  - done.
  - done.
  - done.
  - intros f' x Hf' _ Hx. destruct (decide (x ∈ outs hb f)) as [?|Hn]; [by apply Hin|].
    rewrite (Hout _ Hn). destruct (decide (f' = f)) as [->|Hne]; [done|].
    apply (Hclr f'); [done|congruence|done].
  - intros f' x c Hf' Hx. rewrite handled_other in Hx by done.
    apply (Hcls f' x); [done|]. by rewrite Hh.
  - intros f' x Hf' Hx Hleaf. rewrite handled_other in Hx by done.
    rewrite Hout.
    + apply (Hlv f' x); [done| |done]. by rewrite Hh.
    + intros Ho. apply (wf_outs_creator _ _ _ Hwf) in Ho. congruence.
  - intros g x Hg Hx. rewrite Hout; [eauto|].
    intros Ho. apply (wf_outs_creator _ _ _ Hwf) in Ho, Hx.
    assert (g = f) as -> by congruence.
    apply (so_disjoint _ _ Hok f Hg). by apply Hcur.
Qed.

Lemma pass_inv_accumulate f done h s x dx s' h' :
  pass_inv hb f0 (Some f) done h s -> sched_ok h s ->
  x ∈ ins hb f -> dx <> PyNone ->
  accumulate (x, dx) s h = (Ok s', h') ->
  pass_inv hb f0 (Some f) (done ++ [x]) h' s'.
Proof.
  intros [Hev Hseed Hval Hseen Hord Hcur Hlow Hclr Hcls Hlv Hpend] Hok Hx Hdx H.
  pose proof (accumulate_evolves _ _ _ _ _ H) as Hev'.
  apply accumulate_inv in H
    as (xv & h1 & g' & Hxv & Hal & Hcase & -> & Hs').
  assert (g' <> PyNone) as Hg'.
  { destruct Hcase as [(_ & -> & _)|[_ Hadd]]; [done|]. by eapply py_add_not_none. }
  assert (the_grad (update_var x (with_grad g' xv) h1) x = g') as Hgx.
  { apply the_grad_update_eq. by eapply allocates_lookup_var. }
  assert (forall v, v <> x ->
            the_grad (update_var x (with_grad g' xv) h1) v = the_grad h v) as Hgv.
  { intros v Hne. rewrite the_grad_update_ne by done. by apply the_grad_allocates. }
  set (h' := update_var x (with_grad g' xv) h1) in *.
  assert (the_creator hb x = creator xv) as Hcx.
  { rewrite <- (the_creator_evolves _ _ _ Hev (wf_ins_valid _ _ _ Hwf Hx)).
    unfold the_creator. by rewrite Hxv. }
  assert (forall f' v, f' ∈ processed s -> Some f <> Some f' -> v ∈ outs hb f' ->
            the_grad h' v = PyNone) as Hclr'.
  { intros f' v Hf' Hne Hv. rewrite Hgv; [by apply (Hclr f')|]. intros ->.
    apply (wf_outs_creator _ _ _ Hwf) in Hv.
    pose proof (wf_gen_lt _ _ _ _ Hwf Hx Hv). pose proof (Hlow f f' eq_refl Hf'). lia. }
  assert (forall v, the_grad h v <> PyNone -> the_grad h' v <> PyNone) as Hkeep.
  { intros v Hv. destruct (decide (v = x)) as [->|Hne]; [by rewrite Hgx|by rewrite Hgv]. }
  assert (forall f' v, f' ∈ processed s -> v ∈ handled hb (Some f) (done ++ [x]) f' ->
            the_creator hb v = None -> the_grad h' v <> PyNone) as Hlv'.
  { intros f' v Hf' Hv Hleaf. destruct (decide (v = x)) as [->|Hne]; [by rewrite Hgx|].
    apply Hkeep, (Hlv f'); [done| |done].
    destruct (decide (f' = f)) as [->|Hnf].
    - rewrite handled_cur in *. set_solver.
    - rewrite handled_other in * by congruence. done. }
  assert (forall seen : list nat,
            (forall c, creator xv = Some c -> c ∈ seen) ->
            (forall c, c ∈ seen_set s -> c ∈ seen) ->
            forall f' v c, f' ∈ processed s ->
              v ∈ handled hb (Some f) (done ++ [x]) f' ->
              the_creator hb v = Some c -> c ∈ seen) as Hcls'.
  { intros seen Hc Hsub f' v c Hf' Hv Hcv.
    destruct (decide (f' = f)) as [->|Hnf].
    - rewrite handled_cur in Hv. apply elem_of_app in Hv as [Hv|Hv].
      + apply Hsub, (Hcls f v); [done| |done]. by rewrite handled_cur.
      + apply list_elem_of_singleton in Hv as ->. apply Hc. congruence.
    - rewrite handled_other in Hv by congruence.
      apply Hsub, (Hcls f' v); [done| |done]. by rewrite handled_other by congruence. }
  assert (evolves hb h') as Hev'' by (by etransitivity).
  destruct Hs' as [[Hnone ->]|(c & Hc & Hadd)].
  { split; try done.
    - apply (Hcls' (seen_set s)); [congruence|done].
    - intros g v Hg Hv. by apply Hkeep, (Hpend g). }
  apply add_func_inv in Hadd as [_ [[Hin ->]|(Hnin & Hall & ->)]].
  { split; try done.
    - apply (Hcls' (seen_set s)); [|done]. intros ? ?. by simplify_eq.
    - intros g v Hg Hv. by apply Hkeep, (Hpend g). }
  assert (the_creator hb x = Some c) as Hcx' by congruence.
  destruct (wf_creator_outs _ _ _ Hwf Hcx') as [Houts Hcvalid].
  split; cbn [worklist seen_set processed]; try done.
  - set_solver.
  - intros g Hg. apply elem_of_cons in Hg as [->|Hg]; [done|auto].
  - intros g Hg. rewrite sort_by_perm. apply elem_of_cons in Hg as [->|Hg]; [set_solver|].
    destruct (Hseen _ Hg); set_solver.
  - intros f' g Hf' Hg. rewrite sort_by_perm in Hg.
    apply elem_of_app in Hg as [Hg|Hg]; [by apply Hord|].
    apply list_elem_of_singleton in Hg as ->.
    pose proof (wf_gen_lt _ _ _ _ Hwf Hx Hcx'). pose proof (Hlow f f' eq_refl Hf'). lia.
  - apply (Hcls' (c :: seen_set s)); [|set_solver]. intros ? ?. simplify_eq. set_solver.
  - intros g v Hg Hv. rewrite sort_by_perm in Hg.
    apply elem_of_app in Hg as [Hg|Hg]; [by apply Hkeep, (Hpend g)|].
    apply list_elem_of_singleton in Hg as ->. rewrite Houts in Hv.
    apply list_elem_of_singleton in Hv as ->. by rewrite Hgx.
Qed.

Lemma pass_inv_fold f l pre h s s' h' :
  Forall (fun p => fst p ∈ ins hb f /\ snd p <> PyNone) l ->
  pass_inv hb f0 (Some f) (fst <$> pre) h s -> sched_ok h s ->
  mfold accumulate l s h = (Ok s', h') ->
  pass_inv hb f0 (Some f) (fst <$> (pre ++ l)) h' s' /\ sched_ok h' s'.
Proof.
  intros Hq. revert pre h s.
  induction Hq as [|[x dx] l [Hx Hdx] _ IH]; intros pre h s Hinv Hok H; cbn [mfold] in H.
  - inv_prim H. by rewrite app_nil_r.
  - inv_bind H. cbn in Hx, Hdx. rewrite cons_middle, app_assoc.
    apply (IH _ h0 a); [|by eapply sched_ok_accumulate|done].
    rewrite fmap_app. cbn. by eapply pass_inv_accumulate.
Qed.

Lemma pass_inv_iteration h s s' h' :
  pass_inv hb f0 None [] h s -> sched_ok h s ->
  iteration false s h = (Ok s', h') ->
  pass_inv hb f0 None [] h' s'.
Proof.
  intros Hinv Hok H.
  destruct (pop (worklist s)) as [[f rest]|] eqn:Hpop; cycle 1.
  { unfold iteration in H. rewrite Hpop in H. by inv_prim H. }
  apply pop_Some in Hpop.
  destruct (iteration_inv _ _ _ _ _ _ _ Hpop H)
    as (fr & yvs & dxs & h1 & h2 & Hfr & Hyvs & Hrule & Hacc & Hclear).
  destruct (sched_ok_pop _ _ _ _ Hok Hpop) as (_ & _ & Hok1).
  pose proof (pass_inv_pop _ _ _ _ Hinv Hok Hpop) as Hinv1.
  assert (f ∈ worklist s) as Hfw by (rewrite Hpop; set_solver).
  assert (is_Some (funcs hb !! f)) as Hfv.
  { apply (pi_valid _ _ _ _ _ _ Hinv), (so_seen_w _ _ Hok), Hfw. }
  assert (funcs hb !! f = Some fr) as Hfb.
  { destruct Hfv as [fr' Hfr'].
    pose proof (evolves_lookup_func _ _ _ _ (pi_evolves _ _ _ _ _ _ Hinv) Hfr').
    congruence. }
  assert (ins hb f = inputs fr) as Hins by (unfold ins; by rewrite Hfb).
  assert (outs hb f = outputs fr) as Houts by (unfold outs; by rewrite Hfb).
  assert (Forall (fun dy => dy <> PyNone) (grad <$> yvs)) as Hdys.
  { apply Forall_fmap, Forall_forall. intros yv Hyv. cbn.
    apply list_elem_of_lookup in Hyv as [i Hi]. apply mapM_Some in Hyvs.
    destruct (Forall2_lookup_r _ _ _ _ _ Hyvs Hi) as (y & Hy & Hyl).
    pose proof (pi_pending _ _ _ _ _ _ Hinv f y Hfw) as Hp.
    rewrite Houts in Hp. specialize (Hp (list_elem_of_lookup_2 _ _ _ Hy)).
    unfold the_grad in Hp. by rewrite Hyl in Hp. }
  destruct (backward_rule_results _ _ _ _ _ Hrule) as [Hlen Hnn].
  specialize (Hnn Hdys).
  pose proof (backward_rule_allocates _ _ _ _ _ Hrule) as Hal.
  apply (pass_inv_allocates _ _ _ _ _ Hal) in Hinv1.
  apply (sched_ok_evolves _ _ _ (allocates_evolves _ _ Hal)) in Hok1.
  assert (length (inputs fr) = length dxs) as Hlen'.
  { rewrite Hlen. by apply (wf_arity _ Hwf f). }
  assert (pass_inv hb f0 (Some f) (ins hb f) h2 s' /\ sched_ok h2 s') as [Hinv2 Hok2].
  { rewrite Hins. rewrite <- (fst_zip (inputs fr) dxs) at 1 by lia.
    eapply (pass_inv_fold f (zip (inputs fr) dxs) [] h1);
      [|exact Hinv1|exact Hok1|exact Hacc].
    apply Forall_forall. intros [x dx] Hp. cbn. split.
    - rewrite Hins. by apply elem_of_zip_l in Hp.
    - apply elem_of_zip_r in Hp. rewrite Forall_forall in Hnn. by apply Hnn. }
  rewrite <- Houts in Hclear. by eapply pass_inv_clear.
Qed.
End Pass.

Lemma pass_inv_init h y f0 s0 h0 :
  wf h -> the_creator h y = Some f0 ->
  backward_init y h = (Ok s0, h0) ->
  wf h0 /\ evolves h h0 /\ pass_inv h0 f0 None [] h0 s0.
Proof.
  intros Hwf Hc H. pose proof (backward_init_evolves _ _ _ _ H) as Hev.
  pose proof (ev_wf _ _ Hev Hwf) as Hwf0.
  split; [done|]. split; [done|].
  assert (is_Some (vars h !! y)) as Hy.
  { unfold the_creator in Hc. destruct (vars h !! y); [eauto|done]. }
  pose proof (the_creator_evolves _ _ _ Hev Hy) as Hc0. rewrite Hc in Hc0.
  destruct (wf_creator_outs _ _ _ Hwf0 Hc0) as [Houts Hfv].
  unfold backward_init in H. destruct Hy as [yv Hyv].
  rewrite (bind_get_var _ _ _ _ Hyv) in H.
  unfold the_creator in Hc. rewrite Hyv in Hc. rewrite Hc in H.
  inv_bind H. apply add_func_inv in H as [Heq [[Hin _]|(_ & _ & ->)]]; [set_solver|].
  subst h0.
  assert (the_grad h1 y <> PyNone) as Hgy.
  { destruct (grad yv) eqn:Hg.
    - destruct (data yv); [|by inv_prim E].
      cbn [new_variable] in E. rewrite bind_alloc_var in E.
      apply set_grad_inv in E as [(w & Hw & _ & ->)|(_ & ? & _)]; [|done].
      by rewrite (the_grad_update_eq _ _ _ _ Hw).
    - inv_prim E. unfold the_grad. by rewrite Hyv, Hg.
    - inv_prim E. unfold the_grad. by rewrite Hyv, Hg.
    - inv_prim E. unfold the_grad. by rewrite Hyv, Hg. }
  cbn [app Np.sort_by foldr Np.insert_by].
  split; cbn [worklist seen_set processed].
  - reflexivity.
  - set_solver.
  - intros f Hf. apply list_elem_of_singleton in Hf as ->. done.
  - intros f Hf. by left.
  - intros f g Hf. by apply elem_of_nil in Hf.
  - done.
  - done.
  - intros f x Hf. by apply elem_of_nil in Hf.
  - intros f x c Hf. by apply elem_of_nil in Hf.
  - intros f x Hf. by apply elem_of_nil in Hf.
  - intros g x Hg Hx. apply list_elem_of_singleton in Hg as ->. rewrite Houts in Hx.
    apply list_elem_of_singleton in Hx as ->. done.
Qed.

Lemma reached_pass_inv y h f0 s h1 :
  wf h -> the_creator h y = Some f0 ->
  reached y false h s h1 ->
  exists hb, wf hb /\ evolves h hb /\ pass_inv hb f0 None [] h1 s /\ sched_ok h1 s.
Proof.
  intros Hwf Hc Hr. induction Hr as [s0 h0 Hinit|s1 h1 s2 h2 Hr IH Hne Hit].
  - destruct (pass_inv_init _ _ _ _ _ Hwf Hc Hinit) as (Hwf0 & Hev & Hinv).
    exists h0. split; [done|]. split; [done|]. split; [done|]. by eapply sched_ok_init.
  - destruct IH as (hb & Hwfb & Hev & Hinv & Hok). exists hb.
    split; [done|]. split; [done|]. split.
    + by eapply pass_inv_iteration.
    + by eapply sched_ok_iteration.
Qed.

Lemma two_negs_store_wf : wf two_negs_store.
Proof.
  apply (al_wf empty_store); [|apply wf_empty].
  unfold two_negs_store, run.
  match goal with |- allocates _ (snd (?m _)) =>
    assert (preserves allocates m) as Hp
  end.
  { unfold neg, add. pres_alloc. }
  match goal with |- allocates ?h (snd ?r) =>
    apply (Hp h (fst r) (snd r)); by destruct r
  end.
Qed.


Lemma same_data_evolves h h' h1 h1' a a' :
  same_data h h' a a' -> evolves h h1 -> evolves h' h1' -> same_data h1 h1' a a'.
Proof.
  intros (x & x' & Hx & Hx' & Hd) Hev Hev'.
  destruct (ev_vars _ _ Hev _ _ Hx) as (y & Hy & Hdy & _).
  destruct (ev_vars _ _ Hev' _ _ Hx') as (y' & Hy' & Hdy' & _).
  exists y, y'. split; [done|]. split; [done|]. congruence.
Qed.

Lemma same_val_evolves h h' h1 h1' g g' :
  same_val h h' g g' -> evolves h h1 -> evolves h' h1' -> same_val h1 h1' g g'.
Proof.
  destruct g, g'; cbn; try done. intros. by eapply same_data_evolves.
Qed.

Lemma stable_same_data a a' : stable (fun h h' => same_data h h' a a').
Proof. intros h h' h1 h1'. apply same_data_evolves. Qed.

Lemma stable_same_val g g' : stable (fun h h' => same_val h h' g g').
Proof. intros h h' h1 h1'. apply same_val_evolves. Qed.

Lemma stable_same_vals gs gs' : stable (fun h h' => Forall2 (same_val h h') gs gs').
Proof.
  intros h h' h1 h1' H Hev Hev'. eapply Forall2_impl; [exact H|].
  intros g g' Hg. by eapply same_val_evolves.
Qed.

Lemma stable_pure (P : Prop) : stable (fun _ _ => P).
Proof. by intros h h' h1 h1'. Qed.

Lemma stable_and P Q : stable P -> stable Q -> stable (fun h h' => P h h' /\ Q h h').
Proof. intros HP HQ h h' h1 h1' [? ?] ? ?. split; eauto. Qed.

Lemma same_graph_allocates hb h h' h1 h1' :
  same_graph hb h h' -> allocates h h1 -> allocates h' h1' -> same_graph hb h1 h1'.
Proof.
  intros [Hl Hr Hg] Hal Hal'. split.
  - etransitivity; [exact Hl|]. by apply allocates_evolves.
  - etransitivity; [exact Hr|]. by apply allocates_evolves.
  - intros v Hv. rewrite (the_grad_allocates _ _ _ Hal), (the_grad_allocates _ _ _ Hal').
    eapply same_val_evolves; [by apply Hg| |]; by apply allocates_evolves.
Qed.

Section Sim.
Context (hb : store).

Lemma sim_ret {A} P (Q : A -> A -> store -> store -> Prop) a a' :
  (forall h h', P h h' -> Q a a' h h') -> sim hb P Q (ret a) (ret a').
Proof.
  intros HQ h h' b h1 Hsg HP H. inv_prim H.
  exists a', h'. split; [done|]. split; [done|]. split; [reflexivity|].
  split; [reflexivity|]. by apply HQ.
Qed.

Lemma sim_raise {A} P (Q : A -> A -> store -> store -> Prop) e m2 :
  sim hb P Q (raise e) m2.
Proof. intros h h' b h1 Hsg HP H. inv_prim H. Qed.

Lemma sim_bind {A B} P (Q : A -> A -> store -> store -> Prop)
    (Q' : B -> B -> store -> store -> Prop) m1 m2 k1 k2 :
  stable P ->
  sim hb P Q m1 m2 ->
  (forall a a', sim hb (fun h h' => P h h' /\ Q a a' h h') Q' (k1 a) (k2 a')) ->
  sim hb P Q' (bind m1 k1) (bind m2 k2).
Proof.
  intros HP Hm Hk h h' b h2 Hsg HPh H. inv_bind H.
  destruct (Hm _ _ _ _ Hsg HPh E) as (a' & h1' & Hrun & Hsg1 & Hev & Hev' & HQ).
  destruct (Hk a a' _ _ _ _ Hsg1 (conj (HP _ _ _ _ HPh Hev Hev') HQ) H)
    as (b' & h2' & Hrun2 & Hsg2 & Hev2 & Hev2' & HQ').
  exists b', h2'. split; [by rewrite (bind_ok _ _ _ _ _ Hrun)|].
  split; [done|]. split; [by etransitivity|]. split; [by etransitivity|]. done.
Qed.

Lemma sim_pre {A} (P P' : store -> store -> Prop)
    (Q : A -> A -> store -> store -> Prop) m1 m2 :
  (forall h h', P h h' -> P' h h') -> sim hb P' Q m1 m2 -> sim hb P Q m1 m2.
Proof. intros HPP Hm h h' a h1 Hsg HP H. eapply Hm; eauto. Qed.

Lemma sim_post {A} (P : store -> store -> Prop)
    (Q Q' : A -> A -> store -> store -> Prop) m1 m2 :
  (forall a a' h h', Q a a' h h' -> Q' a a' h h') -> sim hb P Q m1 m2 -> sim hb P Q' m1 m2.
Proof.
  intros HQQ Hm h h' a h1 Hsg HP H.
  destruct (Hm _ _ _ _ Hsg HP H) as (a' & h1' & ? & ? & ? & ? & ?).
  exists a', h1'. eauto 10.
Qed.

Lemma sim_pure {A} (phi : Prop) (P : store -> store -> Prop)
    (Q : A -> A -> store -> store -> Prop) m1 m2 :
  (phi -> sim hb P Q m1 m2) -> sim hb (fun h h' => phi /\ P h h') Q m1 m2.
Proof. intros Hm h h' a h1 Hsg [Hphi HP] H. eapply Hm; eauto. Qed.

End Sim.

(** The run of a call that does not record the graph. *)
Lemma call_run_untracked o args h ins h1 xvs a sv :
  mmap as_variable args h = (Ok ins, h1) ->
  mapM (fun x => vars h1 !! x) ins = Some xvs ->
  forward o (data <$> xvs) = Ok (a, sv) ->
  enable_backprop h1 = false ->
  call o args h = (Ok (length (vars h1)), add_vars [leaf_with (Some a)] h1).
Proof.
  intros Hins Hxvs Hfw Hen. unfold call.
  rewrite (bind_ok _ _ _ _ _ Hins). rewrite (bind_mmap_read _ _ _ _ _ Hxvs).
  rewrite Hfw. msimpl. cbn [fst snd as_array new_variable]. msimpl.
  cbn [add_vars enable_backprop]. rewrite Hen. msimpl. done.
Qed.

(** What a call that returns has done. *)
Lemma call_ok_inv o args h out h' :
  call o args h = (Ok out, h') ->
  exists ins h1 xvs a sv ov,
    mmap as_variable args h = (Ok ins, h1) /\
    mapM (fun x => vars h1 !! x) ins = Some xvs /\
    forward o (data <$> xvs) = Ok (a, sv) /\
    ins <> [] /\
    out = length (vars h1) /\
    vars h' !! out = Some ov /\ data ov = Some a.
Proof.
  intros H. pose proof H as H0. unfold call in H0. inv_bind H0.
  unfold bind at 1 in H0. rewrite mmap_read in H0.
  destruct (mapM _ a) as [xvs|] eqn:Hxvs; [|simplify_eq].
  unfold bind at 1, lift at 1 in H0.
  destruct (forward o (data <$> xvs)) as [[y sv]|e] eqn:Hfw; [|simplify_eq].
  clear H0.
  assert (a <> []) as Hne.
  { intros ->. apply mapM_Some, Forall2_nil_inv_l in Hxvs. subst.
    destruct o; discriminate. }
  destruct (enable_backprop h0) eqn:Hen.
  - rewrite (call_run _ _ _ _ _ _ _ _ E Hxvs Hfw Hen Hne) in H.
    injection H as <- <-. eexists a, h0, xvs, y, sv, _.
    repeat (split; [done|]).
    cbn [tracked_store vars]. split; [apply lookup_snoc_length|done].
  - rewrite (call_run_untracked _ _ _ _ _ _ _ _ E Hxvs Hfw Hen) in H.
    injection H as <- <-. exists a, h0, xvs, y, sv, (leaf_with (Some y)).
    repeat (split; [done|]).
    cbn [add_vars vars]. split; [apply lookup_snoc_length|done].
Qed.

Lemma same_data_lookup h h' (ins ins' : list nat) (xvs : list PyVariable) :
  Forall2 (same_data h h') ins ins' ->
  mapM (fun x => vars h !! x) ins = Some xvs ->
  exists xvs' : list PyVariable,
    mapM (fun x => vars h' !! x) ins' = Some xvs' /\ data <$> xvs' = data <$> xvs.
Proof.
  intros Hsd. revert xvs. induction Hsd as [|a a' ins ins' Ha _ IH]; intros xvs Hm.
  - apply mapM_Some, Forall2_nil_inv_l in Hm as ->. by exists [].
  - destruct Ha as (x & x' & Hx & Hx' & Hd).
    apply mapM_Some, Forall2_cons_inv_l in Hm as (y & ys & Hy & Hys & ->).
    apply mapM_Some in Hys. destruct (IH _ Hys) as (ys' & Hys' & Hds).
    exists (x' :: ys'). split.
    + apply mapM_Some. constructor; [done|]. by apply mapM_Some.
    + cbn. simplify_eq. by rewrite Hd, Hds.
Qed.

Lemma as_variables_sim args args' h h' ins h1 :
  Forall2 (same_val h h') args args' ->
  mmap as_variable args h = (Ok ins, h1) ->
  exists ins' h1',
    mmap as_variable args' h' = (Ok ins', h1') /\
    allocates h h1 /\ allocates h' h1' /\
    Forall2 (same_data h1 h1') ins ins'.
Proof.
  intros Hargs. revert args' h h' ins h1 Hargs.
  induction args as [|g args IH]; intros args' h h' ins h1 Hargs H.
  - apply Forall2_nil_inv_l in Hargs as ->. cbn [mmap] in *. inv_prim H.
    exists [], h'. split; [done|]. split; [reflexivity|]. split; [reflexivity|]. done.
  - apply Forall2_cons_inv_l in Hargs as (g' & args1 & Hg & Hargs & ->).
    cbn [mmap] in *. inv_bind H. inv_bind H. inv_prim H.
    assert (exists v' h0', as_variable g' h' = (Ok v', h0') /\ allocates h h0 /\
              allocates h' h0' /\ same_data h0 h0' a v') as (v' & h0' & Hv' & Hal & Hal' & Hsd).
    { destruct g as [| | |w], g' as [| | |w']; cbn in Hg; try done.
      - cbn [as_variable new_variable] in *. inv_prim E.
        eexists _, _. split; [reflexivity|].
        split; [apply adds_leaves_allocates; eexists [_]; split; [|reflexivity]; by repeat constructor|].
        split; [apply adds_leaves_allocates; eexists [_]; split; [|reflexivity]; by repeat constructor|].
        eexists _, _. cbn [vars]. rewrite !lookup_snoc_length. done.
      - cbn [as_variable] in *. inv_prim E.
        exists w', h'. split; [done|]. split; [reflexivity|]. split; [reflexivity|]. done. }
    assert (Forall2 (same_val h0 h0') args args1) as Hargs0.
    { eapply (stable_same_vals _ _ _ _ _ _ Hargs); by apply allocates_evolves. }
    destruct (IH _ _ _ _ _ Hargs0 E0) as (ins' & h1' & Hrun & Hal1 & Hal1' & Hins).
    exists (v' :: ins'), h1'.
    split; [by rewrite (bind_ok _ _ _ _ _ Hv'), (bind_ok _ _ _ _ _ Hrun)|].
    split; [by etransitivity|]. split; [by etransitivity|].
    constructor; [|done].
    eapply same_data_evolves; [exact Hsd| |]; by apply allocates_evolves.
Qed.

Create HintDb stable discriminated.
#[global] Hint Resolve stable_same_data stable_same_val stable_same_vals stable_pure
  stable_and : stable.

(** Steps of a proof of [sim] along the structure of the computations. *)
Ltac sim_step :=
  lazymatch goal with
  | |- sim _ _ _ (bind _ _) (bind _ _) =>
      eapply sim_bind; [ solve [eauto with stable] | | intros ? ? ]
  | |- sim _ _ _ (ret _) (ret _) => apply sim_ret
  | |- sim _ _ _ (raise _) _ => apply sim_raise
  end.

Section SimCalls.
Context (hb : store).

Lemma sim_inspect {A} P (Q : A -> A -> store -> store -> Prop) m1 m2 :
  (forall h h', P h h' -> sim hb P Q m1 m2) -> sim hb P Q m1 m2.
Proof. intros Hm h h' a h1 Hsg HP H. exact (Hm h h' HP h h' a h1 Hsg HP H). Qed.

Lemma sim_bind_eq {A B} P (Q' : B -> B -> store -> store -> Prop)
    (m1 m2 : M A) k1 k2 :
  stable P ->
  sim hb P (fun a a' _ _ => a = a') m1 m2 ->
  (forall a, sim hb P Q' (k1 a) (k2 a)) ->
  sim hb P Q' (bind m1 k1) (bind m2 k2).
Proof.
  intros HP Hm Hk. eapply sim_bind; [done|exact Hm|].
  intros a a'. apply (sim_pre _ _ (fun h h' => a = a' /\ P h h')); [tauto|].
  apply sim_pure. intros <-. apply Hk.
Qed.

Lemma call_sim P o args args' :
  (forall h h', P h h' -> Forall2 (same_val h h') args args') ->
  sim hb P (fun out out' h h' => same_data h h' out out') (call o args) (call o args').
Proof.
  intros Hent h h' out h2 Hsg HP H. pose proof (Hent _ _ HP) as Hargs.
  destruct (call_ok_inv _ _ _ _ _ H) as (ins & h1 & xvs & a & sv & ov & Hins & Hxvs & Hfw & Hne & -> & Hov & Hda).
  destruct (as_variables_sim _ _ _ _ _ _ Hargs Hins) as (ins' & h1' & Hins' & Hal & Hal' & Hsd).
  destruct (same_data_lookup _ _ _ _ _ Hsd Hxvs) as (xvs' & Hxvs' & Hdd).
  assert (ins' <> []) as Hne'.
  { intros ->. apply Forall2_nil_inv_r in Hsd. done. }
  assert (exists h2', call o args' h' = (Ok (length (vars h1')), h2')) as [h2' Hrun].
  { destruct (enable_backprop h1') eqn:Hen'.
    - eexists. eapply call_run; eauto. by rewrite Hdd.
    - eexists. eapply call_run_untracked; eauto. by rewrite Hdd. }
  exists (length (vars h1')), h2'. split; [done|].
  pose proof (call_allocates _ _ _ _ _ H) as Hc.
  pose proof (call_allocates _ _ _ _ _ Hrun) as Hc'.
  split; [by eapply same_graph_allocates|].
  split; [by apply allocates_evolves|]. split; [by apply allocates_evolves|].
  destruct (call_ok_inv _ _ _ _ _ Hrun) as (ins2 & h12 & xvs2 & a2 & sv2 & ov2 & Hins2 & Hxvs2 & Hfw2 & _ & _ & Hov2 & Hda2).
  rewrite Hins' in Hins2. injection Hins2 as <- <-.
  rewrite Hxvs' in Hxvs2. injection Hxvs2 as <-.
  rewrite Hdd, Hfw in Hfw2. injection Hfw2 as <- <-.
  exists ov, ov2. split; [done|]. split; [done|]. congruence.
Qed.

Lemma var_shape_sim P x x' :
  (forall h h', P h h' -> same_data h h' x x') ->
  sim hb P (fun s s' _ _ => s = s') (var_shape x) (var_shape x').
Proof.
  intros Hent h h' s h1 Hsg HP H.
  destruct (Hent _ _ HP) as (xv & xv' & Hx & Hx' & Hd).
  unfold var_shape in H. rewrite (bind_get_var _ _ _ _ Hx) in H.
  destruct (data xv) as [a|] eqn:Ha; inv_prim H.
  exists (Np.shape a), h'. split; [apply (var_shape_ok _ _ xv'); congruence|].
  split; [done|]. split; [reflexivity|]. split; [reflexivity|]. done.
Qed.

Lemma shape_of_sim P x x' :
  (forall h h', P h h' -> same_val h h' x x') ->
  sim hb P (fun s s' _ _ => s = s') (shape_of x) (shape_of x').
Proof.
  intros Hent. apply sim_inspect. intros h0 h0' HP0.
  pose proof (Hent _ _ HP0) as Hs.
  destruct x as [| | |v], x' as [| | |v']; try (cbn in Hs; contradiction); cbn [shape_of].
  - apply sim_raise.
  - apply var_shape_sim. intros h h' HP. exact (Hent _ _ HP).
Qed.

Lemma as_variable_sim P x x' :
  (forall h h', P h h' -> same_val h h' x x') ->
  sim hb P (fun out out' h h' => same_data h h' out out') (as_variable x) (as_variable x').
Proof.
  intros Hent h h' v h1 Hsg HP H.
  assert (mmap as_variable [x] h = (Ok [v], h1)) as Hm.
  { cbn [mmap]. by rewrite (bind_ok _ _ _ _ _ H). }
  assert (Forall2 (same_val h h') [x] [x']) as Hargs.
  { constructor; [by apply Hent|done]. }
  destruct (as_variables_sim _ _ _ _ _ _ Hargs Hm) as (ins' & h1' & Hrun & Hal & Hal' & Hsd).
  apply Forall2_cons_inv_l in Hsd as (v' & l' & Hv & Hl & ->).
  apply Forall2_nil_inv_l in Hl as ->.
  cbn [mmap] in Hrun. inv_bind Hrun. inv_bind Hrun. inv_prim Hrun. inv_prim E0.
  exists v', h1'. split; [done|]. split; [by eapply same_graph_allocates|].
  split; [by apply allocates_evolves|]. split; [by apply allocates_evolves|]. done.
Qed.

Lemma sum_to_sim P x x' shape :
  stable P ->
  (forall h h', P h h' -> same_val h h' x x') ->
  sim hb P (fun out out' h h' => same_data h h' out out') (sum_to x shape) (sum_to x' shape).
Proof.
  intros HP Hent. unfold sum_to.
  eapply sim_bind_eq; [done|by apply shape_of_sim|]. intros s.
  case_bool_decide; [by apply as_variable_sim|].
  apply call_sim. intros h h' HPh. constructor; [by apply Hent|done].
Qed.

Lemma broadcast_to_sim P x x' shape :
  stable P ->
  (forall h h', P h h' -> same_val h h' x x') ->
  sim hb P (fun out out' h h' => same_data h h' out out') (broadcast_to x shape) (broadcast_to x' shape).
Proof.
  intros HP Hent. unfold broadcast_to.
  eapply sim_bind_eq; [done|by apply shape_of_sim|]. intros s.
  case_bool_decide; [by apply as_variable_sim|].
  apply call_sim. intros h h' HPh. constructor; [by apply Hent|done].
Qed.

Lemma reshape_sim P x x' shape :
  stable P ->
  (forall h h', P h h' -> same_val h h' x x') ->
  sim hb P (fun out out' h h' => same_data h h' out out') (reshape x shape) (reshape x' shape).
Proof.
  intros HP Hent. unfold reshape.
  eapply sim_bind_eq; [done|by apply shape_of_sim|]. intros s.
  case_bool_decide; [by apply as_variable_sim|].
  apply call_sim. intros h h' HPh. constructor; [by apply Hent|done].
Qed.

Lemma sim_wrap P (m1 m2 : M nat) :
  stable P ->
  sim hb P (fun out out' h h' => same_data h h' out out') m1 m2 ->
  sim hb P (fun r r' h h' => same_val h h' r r') (r <- m1 ;; ret (PyVar r)) (r <- m2 ;; ret (PyVar r)).
Proof.
  intros HP Hm. eapply sim_bind; [done|exact Hm|]. intros r r'.
  apply sim_ret. intros h h' [_ Hr]. exact Hr.
Qed.

Lemma py_neg_sim P a a' :
  stable P ->
  (forall h h', P h h' -> same_val h h' a a') ->
  sim hb P (fun r r' h h' => same_val h h' r r') (py_neg a) (py_neg a').
Proof.
  intros HP Hent. apply sim_inspect. intros h0 h0' HP0.
  pose proof (Hent _ _ HP0) as Hs.
  destruct a as [| | |v], a' as [| | |v']; try (cbn in Hs; contradiction); cbn [py_neg].
  - apply sim_raise.
  - apply sim_wrap; [done|]. apply call_sim.
    intros h h' HPh. constructor; [by apply Hent|done].
Qed.

Lemma py_add_sim P a a' b b' :
  stable P ->
  (forall h h', P h h' -> same_val h h' a a') ->
  (forall h h', P h h' -> same_val h h' b b') ->
  sim hb P (fun r r' h h' => same_val h h' r r') (py_add a b) (py_add a' b').
Proof.
  intros HP Hea Heb. apply sim_inspect. intros h0 h0' HP0.
  pose proof (Hea _ _ HP0) as Hsa. pose proof (Heb _ _ HP0) as Hsb.
  destruct a as [| | |v], a' as [| | |v']; try (cbn in Hsa; contradiction);
    destruct b as [| | |w], b' as [| | |w']; try (cbn in Hsb; contradiction);
    cbn [py_add].
  - apply sim_raise.
  - apply sim_wrap; [done|]. apply call_sim.
    intros h h' HPh. constructor; [by apply Heb|]. constructor; [by apply Hea|done].
  - apply sim_wrap; [done|]. apply call_sim.
    intros h h' HPh. constructor; [by apply Hea|]. constructor; [by apply Heb|done].
  - apply sim_wrap; [done|]. apply call_sim.
    intros h h' HPh. constructor; [by apply Hea|]. constructor; [by apply Heb|done].
Qed.

Lemma py_mul_var_sim P a a' x :
  stable P ->
  (forall h h', P h h' -> same_val h h' a a') ->
  (forall h h', P h h' -> same_data h h' x x) ->
  sim hb P (fun r r' h h' => same_val h h' r r') (py_mul_var a x) (py_mul_var a' x).
Proof.
  intros HP Hea Hex. apply sim_inspect. intros h0 h0' HP0.
  pose proof (Hea _ _ HP0) as Hsa.
  destruct a as [| | |v], a' as [| | |v']; try (cbn in Hsa; contradiction); cbn [py_mul_var].
  - apply sim_wrap; [done|]. apply call_sim.
    intros h h' HPh. constructor; [by apply Hex|]. constructor; [by apply Hea|done].
  - apply sim_wrap; [done|]. apply call_sim.
    intros h h' HPh. constructor; [by apply Hea|]. constructor; [by apply Hex|done].
Qed.

(** Facts that follow from the relation of the stores at hand. *)
Ltac entail :=
  solve [ intros;
          repeat match goal with
                 | H : _ /\ _ |- _ => destruct H
                 end;
          repeat lazymatch goal with
                 | |- Forall2 _ (_ :: _) (_ :: _) => apply Forall2_cons_2
                 | |- Forall2 _ [] [] => apply Forall2_nil_2
                 end;
          cbn [same_val]; eauto ].

Ltac sim_side :=
  lazymatch goal with
  | |- stable _ => solve [eauto with stable]
  | |- _ => entail
  end.

Ltac sim_first :=
  lazymatch goal with
  | |- sim _ _ _ (sum_to _ _) _ => apply sum_to_sim
  | |- sim _ _ _ (broadcast_to _ _) _ => apply broadcast_to_sim
  | |- sim _ _ _ (reshape _ _) _ => apply reshape_sim
  | |- sim _ _ _ (py_neg _) _ => apply py_neg_sim
  | |- sim _ _ _ (py_mul_var _ _) _ => apply py_mul_var_sim
  | |- sim _ _ _ (call _ _) _ => apply call_sim
  end.

Ltac sim_go :=
  repeat lazymatch goal with
         | |- sim _ _ _ (raise _) _ => apply sim_raise
         | |- sim _ _ _ (ret _) (ret _) => apply sim_ret; entail
         | |- sim _ _ _ (bind (var_shape _) _) _ =>
             eapply sim_bind_eq;
             [ solve [eauto with stable] | apply var_shape_sim; entail | intros ? ]
         | |- sim _ _ _ (bind _ _) _ =>
             eapply sim_bind;
             [ solve [eauto with stable] | sim_first; sim_side | intros ? ? ]
         | |- sim _ _ _ (if bool_decide _ then _ else _) _ => case_bool_decide
         end.

Lemma backward_rule_sim P fr dys dys' :
  stable P ->
  (forall h h', P h h' -> Forall2 (same_val h h') dys dys') ->
  (forall h h' x, P h h' -> x ∈ inputs fr -> same_data h h' x x) ->
  sim hb P (fun dxs dxs' h h' => Forall2 (same_val h h') dxs dxs')
    (backward_rule fr dys) (backward_rule fr dys').
Proof.
  intros HP Hdys Hin. apply sim_inspect. intros h0 h0' HP0.
  pose proof (Hdys _ _ HP0) as Hl. apply Forall2_length in Hl.
  destruct dys as [|dy [|]], dys' as [|dy' [|]]; try discriminate;
    cbn [backward_rule]; try apply sim_raise.
  assert (forall h h', P h h' -> same_val h h' dy dy') as Hdy.
  { intros h h' HPh. specialize (Hdys _ _ HPh). by apply Forall2_cons_1 in Hdys as [? _]. }
  clear Hdys Hl. unfold transpose.
  destruct (fn_class fr).
  - destruct (saved fr) as [|s0 [|s1 [|]]]; sim_go.
  - eapply sim_bind; [done|by apply py_neg_sim|]. intros ndy ndy'.
    destruct (saved fr) as [|s0 [|s1 [|]]]; sim_go.
  - destruct (inputs fr) as [|x0 [|x1 [|]]]; try apply sim_raise.
    assert (forall h h', P h h' -> same_data h h' x0 x0) as Hx0.
    { intros h h' HPh. apply Hin; [done|set_solver]. }
    assert (forall h h', P h h' -> same_data h h' x1 x1) as Hx1.
    { intros h h' HPh. apply Hin; [done|set_solver]. }
    sim_go.
  - sim_go.
  - destruct (saved fr) as [|s0 [|]]; sim_go.
  - destruct axes; sim_go.
  - destruct (saved fr) as [|s0 [|]]; sim_go.
  - destruct (saved fr) as [|s0 [|]]; sim_go.
Qed.

End SimCalls.

(** * The scheduler over two stores *)

Lemma insert_by_ext {A} (k1 k2 : A -> Z) x l :
  k1 x = k2 x -> Forall (fun y => k1 y = k2 y) l ->
  Np.insert_by k1 x l = Np.insert_by k2 x l.
Proof.
  intros Hx Hl. induction Hl as [|y l Hy Hl IH]; cbn; [done|].
  rewrite Hx, Hy, IH. done.
Qed.

Lemma sort_by_ext {A} (k1 k2 : A -> Z) l :
  Forall (fun y => k1 y = k2 y) l -> Np.sort_by k1 l = Np.sort_by k2 l.
Proof.
  intros Hl. induction Hl as [|y l Hy Hl IH]; cbn; [done|].
  unfold Np.sort_by in IH. rewrite IH. apply insert_by_ext; [done|].
  apply Forall_forall. intros z Hz. rewrite Forall_forall in Hl. apply Hl.
  change (z ∈ Np.sort_by k2 l) in Hz. by rewrite sort_by_perm in Hz.
Qed.

Lemma mmap_keys_run l h :
  Forall (fun f => is_Some (funcs h !! f)) l ->
  mmap (fun g => gr <- get_func g ;; ret (g, fn_generation gr)) l h
  = (Ok ((fun g => (g, gen_of h g)) <$> l), h).
Proof.
  intros Hl. induction Hl as [|g l [fr Hg] Hl IH]; cbn [mmap]; [done|].
  rewrite bind_bind, (bind_get_func _ _ _ _ Hg), bind_ret.
  rewrite (bind_ok _ _ _ _ _ IH). unfold ret.
  replace (fn_generation fr) with (gen_of h g) by (unfold gen_of; by rewrite Hg).
  done.
Qed.

Lemma add_func_run c s h :
  Forall (fun f => is_Some (funcs h !! f)) (worklist s ++ [c]) ->
  add_func (Some c) s h
  = (Ok (if bool_decide (c ∈ seen_set s) then s
         else {| worklist := Np.sort_by (fun g => Z.of_nat (gen_of h g)) (worklist s ++ [c]);
                 seen_set := c :: seen_set s;
                 processed := processed s |}), h).
Proof.
  intros Hl. unfold add_func. case_bool_decide; [done|].
  rewrite (bind_ok _ _ _ _ _ (mmap_keys_run _ _ Hl)). unfold ret. do 2 f_equal.
  f_equal. apply (sort_by_decorate (gen_of h) Z.of_nat).
Qed.

Lemma backward_loop_more_fuel k k' retain s h s1 h1 :
  backward_loop k retain s h = (Ok s1, h1) -> k <= k' ->
  backward_loop k' retain s h = (Ok s1, h1).
Proof.
  revert k' s h. induction k as [|k IH]; intros k' s h H Hle; cbn [backward_loop] in H.
  - destruct (worklist s) eqn:Hw; inv_prim H.
    destruct k'; cbn [backward_loop]; by rewrite Hw.
  - destruct k' as [|k']; [lia|]. cbn [backward_loop].
    destruct (worklist s) eqn:Hw; [done|].
    inv_bind H. rewrite (bind_ok _ _ _ _ _ E). apply IH; [done|lia].
Qed.

(** Solves the side conditions on the relation of the stores. *)
Ltac stable_tac := cbn beta; solve [eauto 20 with stable].

Section SimSched.
Context (hb : store) (Hwf : wf hb).

Lemma same_graph_data h h' x :
  same_graph hb h h' -> x < length (vars hb) ->
  exists xb xv xv',
    vars hb !! x = Some xb /\ vars h !! x = Some xv /\ vars h' !! x = Some xv' /\
    data xv = data xb /\ data xv' = data xb /\
    creator xv = creator xb /\ creator xv' = creator xb /\
    same_val h h' (grad xv) (grad xv').
Proof.
  intros [Hl Hr Hg] Hx. destruct (lookup_lt_is_Some_2 _ _ Hx) as [xb Hxb].
  destruct (ev_vars _ _ Hl _ _ Hxb) as (xv & Hxv & Hd & Hc & _).
  destruct (ev_vars _ _ Hr _ _ Hxb) as (xv' & Hxv' & Hd' & Hc' & _).
  exists xb, xv, xv'. repeat (split; [done|]).
  specialize (Hg _ Hx). unfold the_grad in Hg. by rewrite Hxv, Hxv' in Hg.
Qed.

Lemma same_graph_update h h' x xv xv' g g' :
  same_graph hb h h' ->
  vars h !! x = Some xv -> vars h' !! x = Some xv' ->
  same_val h h' g g' ->
  same_graph hb (update_var x (with_grad g xv) h) (update_var x (with_grad g' xv') h').
Proof.
  intros [Hl Hr Hg] Hx Hx' Hs.
  pose proof (update_grad_evolves x g xv h Hx) as Hev.
  pose proof (update_grad_evolves x g' xv' h' Hx') as Hev'.
  split.
  - etransitivity; [exact Hl|exact Hev].
  - etransitivity; [exact Hr|exact Hev'].
  - intros v Hv. destruct (decide (v = x)) as [->|Hne].
    + rewrite !the_grad_update_eq by done. by eapply same_val_evolves.
    + rewrite !the_grad_update_ne by done. eapply same_val_evolves; eauto.
Qed.

Lemma sim_graph {A} P (Q : A -> A -> store -> store -> Prop) m1 m2 :
  (forall h0 h0', same_graph hb h0 h0' -> P h0 h0' -> sim hb P Q m1 m2) ->
  sim hb P Q m1 m2.
Proof. intros Hm h h' a h1 Hsg HP H. exact (Hm h h' Hsg HP h h' a h1 Hsg HP H). Qed.

Lemma sim_bind_pure {A B} P (phi : A -> A -> Prop)
    (Q' : B -> B -> store -> store -> Prop) (m1 m2 : M A) k1 k2 :
  stable P ->
  sim hb P (fun a a' _ _ => phi a a') m1 m2 ->
  (forall a a', phi a a' -> sim hb P Q' (k1 a) (k2 a')) ->
  sim hb P Q' (bind m1 k1) (bind m2 k2).
Proof.
  intros HP Hm Hk. eapply sim_bind; [done|exact Hm|].
  intros a a'. apply (sim_pre _ _ (fun h h' => phi a a' /\ P h h')); [tauto|].
  apply sim_pure. apply Hk.
Qed.

Lemma get_func_sim P f fr :
  funcs hb !! f = Some fr ->
  sim hb P (fun a a' _ _ => a = fr /\ a' = fr) (get_func f) (get_func f).
Proof.
  intros Hf h h' a h1 Hsg HP H.
  pose proof (evolves_lookup_func _ _ _ _ (sg_left _ _ _ Hsg) Hf) as Hfh.
  pose proof (evolves_lookup_func _ _ _ _ (sg_right _ _ _ Hsg) Hf) as Hfh'.
  rewrite (get_func_ok _ _ _ Hfh) in H. injection H as <- <-.
  exists fr, h'. split; [by apply get_func_ok|]. split; [done|].
  split; [reflexivity|]. split; [reflexivity|]. done.
Qed.

Lemma get_var_sim P x :
  x < length (vars hb) ->
  sim hb P (fun xv xv' h h' =>
              data xv = data xv' /\ creator xv = the_creator hb x /\
              creator xv' = the_creator hb x /\ same_val h h' (grad xv) (grad xv'))
    (get_var x) (get_var x).
Proof.
  intros Hx h h' a h1 Hsg HP H.
  destruct (same_graph_data _ _ _ Hsg Hx)
    as (xb & xv & xv' & Hxb & Hxv & Hxv' & Hd & Hd' & Hc & Hc' & Hg).
  rewrite (get_var_ok _ _ _ Hxv) in H. injection H as <- <-.
  exists xv', h'. split; [by apply get_var_ok|]. split; [done|].
  split; [reflexivity|]. split; [reflexivity|].
  unfold the_creator. rewrite Hxb. split; [congruence|]. done.
Qed.

Lemma set_grad_sim P x g g' :
  x < length (vars hb) ->
  (forall h h', P h h' -> same_val h h' g g') ->
  sim hb P (fun _ _ _ _ => True) (set_grad x g) (set_grad x g').
Proof.
  intros Hx Hent h h' a h1 Hsg HP H.
  destruct (same_graph_data _ _ _ Hsg Hx)
    as (xb & xv & xv' & Hxb & Hxv & Hxv' & _).
  rewrite (set_grad_ok _ _ _ _ Hxv) in H. injection H as <- <-.
  eexists tt, _. split; [by apply set_grad_ok|].
  split; [apply same_graph_update; auto|].
  split; [by apply update_grad_evolves|]. split; [by apply update_grad_evolves|]. done.
Qed.

Lemma new_variable_sim P a :
  sim hb P (fun g g' h h' => same_data h h' g g')
    (new_variable (PyArr a)) (new_variable (PyArr a)).
Proof.
  intros h h' g h1 Hsg HP H.
  pose proof (new_variable_allocates _ _ _ _ H) as Hal.
  cbn [new_variable] in *. inv_prim H.
  eexists _, _. split; [reflexivity|].
  assert (allocates h' (add_vars [leaf_with (Some a)] h')) as Hal'.
  { apply adds_leaves_allocates. eexists [_]. split; [|reflexivity]. by repeat constructor. }
  split; [by eapply same_graph_allocates|].
  split; [by apply allocates_evolves|]. split; [by apply allocates_evolves|].
  eexists _, _. cbn [vars add_vars]. rewrite !lookup_snoc_length. done.
Qed.

Lemma add_func_sim P c s :
  is_Some (funcs hb !! c) -> valid_funcs hb (worklist s) ->
  sim hb P (fun s1 s1' _ _ => s1 = s1' /\ valid_funcs hb (worklist s1))
    (add_func (Some c) s) (add_func (Some c) s).
Proof.
  intros Hc Hs h h' s1 h1 Hsg HP H.
  assert (valid_funcs hb (worklist s ++ [c])) as Hall.
  { apply Forall_app. split; [done|]. by apply Forall_singleton. }
  assert (forall k, evolves hb k ->
            Forall (fun f => is_Some (funcs k !! f)) (worklist s ++ [c]) /\
            Forall (fun g => Z.of_nat (gen_of k g) = Z.of_nat (gen_of hb g)) (worklist s ++ [c]))
    as Hk.
  { intros k Hev. split.
    - eapply Forall_impl; [exact Hall|]. intros f [fr Hf]. exists fr.
      by eapply evolves_lookup_func.
    - eapply Forall_impl; [exact Hall|]. intros f Hf. cbn beta.
      by rewrite (gen_of_evolves _ _ _ Hev Hf). }
  destruct (Hk _ (sg_left _ _ _ Hsg)) as [Hv Hg].
  destruct (Hk _ (sg_right _ _ _ Hsg)) as [Hv' Hg'].
  rewrite (add_func_run _ _ _ Hv) in H. injection H as <- <-.
  eexists _, h'. split; [by apply add_func_run|]. split; [done|].
  split; [reflexivity|]. split; [reflexivity|].
  rewrite (sort_by_ext _ _ _ Hg), (sort_by_ext _ _ _ Hg').
  split; [done|]. case_bool_decide; [done|]. cbn [worklist].
  apply Forall_forall. intros z Hz. rewrite sort_by_perm in Hz.
  unfold valid_funcs in Hall. rewrite Forall_forall in Hall. by apply Hall.
Qed.

Lemma accumulate_sim P x dx dx' s :
  stable P ->
  x < length (vars hb) -> valid_funcs hb (worklist s) ->
  (forall h h', P h h' -> same_val h h' dx dx') ->
  sim hb P (fun s1 s1' _ _ => s1 = s1' /\ valid_funcs hb (worklist s1))
    (accumulate (x, dx) s) (accumulate (x, dx') s).
Proof.
  intros HP Hx Hs Hent. unfold accumulate.
  eapply sim_bind; [done|by apply get_var_sim|]. intros xv xv'.
  eapply sim_bind.
  { stable_tac. }
  { apply sim_inspect. intros h0 h0' (HP0 & _ & _ & _ & Hg).
    instantiate (1 := fun _ _ _ _ => True).
    destruct (grad xv) as [| | |g], (grad xv') as [| | |g'];
      try (cbn in Hg; contradiction).
    - apply set_grad_sim; [done|]. intros h h' [HPh _]. by apply Hent.
    - eapply sim_bind.
      + stable_tac.
      + apply py_add_sim.
        * stable_tac.
        * intros h h' (_ & _ & _ & _ & Hgh). exact Hgh.
        * intros h h' [HPh _]. by apply Hent.
      + intros r r'. apply set_grad_sim; [done|]. intros h h' [_ Hr]. exact Hr. }
  intros [] [].
  eapply sim_bind.
  { stable_tac. }
  { apply get_var_sim. exact Hx. }
  intros yv yv'. apply sim_inspect. intros h0 h0' (_ & _ & Hc & Hc' & _).
  rewrite Hc, Hc'. destruct (the_creator hb x) as [c|] eqn:Hcx.
  - apply add_func_sim; [|done]. by destruct (wf_creator_outs _ _ _ Hwf Hcx).
  - apply sim_ret. done.
Qed.

Lemma accumulate_all_sim P xs dxs dxs' s :
  stable P ->
  Forall (fun x => x < length (vars hb)) xs -> valid_funcs hb (worklist s) ->
  (forall h h', P h h' -> Forall2 (same_val h h') dxs dxs') ->
  sim hb P (fun s1 s1' _ _ => s1 = s1' /\ valid_funcs hb (worklist s1))
    (mfold accumulate (zip xs dxs) s) (mfold accumulate (zip xs dxs') s).
Proof.
  intros HP Hxs. revert dxs dxs' s.
  induction Hxs as [|x xs Hx Hxs IH]; intros dxs dxs' s Hs Hent.
  - cbn [zip zip_with mfold]. by apply sim_ret.
  - apply sim_inspect. intros h0 h0' HP0. pose proof (Hent _ _ HP0) as H0.
    destruct H0 as [|dx dx' dxs1 dxs1' _ _].
    { cbn [zip zip_with mfold]. by apply sim_ret. }
    assert (forall h h', P h h' -> same_val h h' dx dx') as Hdx.
    { intros h h' HPh. specialize (Hent _ _ HPh). by apply Forall2_cons_1 in Hent as [? _]. }
    assert (forall h h', P h h' -> Forall2 (same_val h h') dxs1 dxs1') as Hdxs.
    { intros h h' HPh. specialize (Hent _ _ HPh). by apply Forall2_cons_1 in Hent as [_ ?]. }
    cbn [zip zip_with mfold].
    eapply sim_bind_pure; [done|by apply accumulate_sim|].
    intros s1 s1' [<- Hs1]. by apply IH.
Qed.

Lemma read_grads_sim P ys :
  stable P ->
  Forall (fun y => y < length (vars hb)) ys ->
  sim hb P (fun dys dys' h h' => Forall2 (same_val h h') dys dys')
    (mmap (fun y => yv <- get_var y ;; ret (grad yv)) ys)
    (mmap (fun y => yv <- get_var y ;; ret (grad yv)) ys).
Proof.
  intros HP Hys. induction Hys as [|y ys Hy Hys IH]; cbn [mmap].
  - by apply sim_ret.
  - eapply (sim_bind hb P (fun g g' h h' => same_val h h' g g')).
    { stable_tac. }
    { eapply sim_bind; [stable_tac|by apply get_var_sim|].
      intros yv yv'. apply sim_ret. intros h h' (_ & _ & _ & _ & Hg). exact Hg. }
    intros g g'. eapply sim_bind.
    { stable_tac. }
    { eapply sim_pre; [|exact IH]. by intros h h' [? _]. }
    intros gs gs'. apply sim_ret. intros h h' [[_ Hg] Hgs]. by constructor.
Qed.

Lemma clear_grads_sim P ys :
  stable P ->
  Forall (fun y => y < length (vars hb)) ys ->
  sim hb P (fun _ _ _ _ => True)
    (mfold (fun y (_ : unit) => set_grad y PyNone) ys tt)
    (mfold (fun y (_ : unit) => set_grad y PyNone) ys tt).
Proof.
  intros HP Hys. induction Hys as [|y ys Hy Hys IH]; cbn [mfold].
  - by apply sim_ret.
  - eapply sim_bind; [done|by apply set_grad_sim|].
    intros [] []. eapply sim_pre; [|exact IH]. by intros h h' [? _].
Qed.

Lemma stable_old :
  stable (fun h h' => forall x, x < length (vars hb) -> same_data h h' x x).
Proof. intros h h' h1 h1' H Hev Hev' x Hx. eapply same_data_evolves; eauto. Qed.

Lemma sim_old {A} P (Q : A -> A -> store -> store -> Prop) m1 m2 :
  sim hb (fun h h' => P h h' /\
            forall x, x < length (vars hb) -> same_data h h' x x) Q m1 m2 ->
  sim hb P Q m1 m2.
Proof.
  intros Hm h h' a h1 Hsg HP H. eapply Hm; eauto. split; [done|].
  intros x Hx. destruct (same_graph_data _ _ _ Hsg Hx)
    as (xb & xv & xv' & _ & Hxv & Hxv' & Hd & Hd' & _).
  exists xv, xv'. split; [done|]. split; [done|]. congruence.
Qed.

Lemma iteration_sim retain s :
  valid_funcs hb (worklist s) ->
  sim hb (fun _ _ => True) (fun s1 s1' _ _ => s1 = s1' /\ valid_funcs hb (worklist s1))
    (iteration retain s) (iteration retain s).
Proof.
  intros Hs. unfold iteration.
  destruct (pop (worklist s)) as [[f rest]|] eqn:Hpop; [|by apply sim_ret].
  apply pop_Some in Hpop. rewrite Hpop in Hs. unfold valid_funcs in Hs.
  apply Forall_app in Hs as [Hrest Hf]. apply Forall_singleton in Hf as [fr Hf].
  assert (Forall (fun x => x < length (vars hb)) (inputs fr)) as Hins.
  { apply Forall_forall. intros x Hx.
    destruct (wf_inputs _ Hwf _ _ _ Hf Hx) as (xv & Hxv & _). by eapply lookup_lt_Some. }
  assert (Forall (fun y => y < length (vars hb)) (outputs fr)) as Houts.
  { apply Forall_forall. intros y Hy.
    destruct (wf_outputs _ Hwf _ _ _ Hf Hy) as (yv & Hyv & _). by eapply lookup_lt_Some. }
  pose proof stable_old as Hold.
  apply sim_old.
  eapply sim_bind_pure; [stable_tac|by apply get_func_sim|].
  intros ? ? [-> ->].
  eapply sim_bind; [stable_tac|apply read_grads_sim; [stable_tac|done]|].
  intros dys dys'.
  eapply sim_bind.
  { stable_tac. }
  { apply backward_rule_sim.
    - stable_tac.
    - intros h h' [_ Hd]. exact Hd.
    - intros h h' x [[_ Ho] _] Hx. apply Ho. rewrite Forall_forall in Hins. by apply Hins. }
  intros dxs dxs'.
  eapply sim_bind_pure.
  { stable_tac. }
  { apply accumulate_all_sim; [stable_tac|done|done|].
    intros h h' [_ Hd]. exact Hd. }
  intros s1 s1' [<- Hs1].
  eapply sim_bind.
  { stable_tac. }
  { instantiate (1 := fun _ _ _ _ => True). destruct retain.
    - by apply sim_ret.
    - apply clear_grads_sim; [stable_tac|done]. }
  intros [] []. apply sim_ret. done.
Qed.

Lemma backward_loop_sim fuel retain s :
  valid_funcs hb (worklist s) ->
  sim hb (fun _ _ => True) (fun s1 s1' _ _ => s1 = s1')
    (backward_loop fuel retain s) (backward_loop fuel retain s).
Proof.
  revert s. induction fuel as [|k IH]; intros s Hs; cbn [backward_loop].
  - destruct (worklist s); [by apply sim_ret|apply sim_raise].
  - destruct (worklist s) eqn:Hw; [by apply sim_ret|]. rewrite <- Hw in Hs.
    eapply sim_bind_pure; [stable_tac|by apply iteration_sim|].
    intros s1 s1' [<- Hs1]. by apply IH.
Qed.

Lemma backward_init_sim y :
  y < length (vars hb) ->
  sim hb (fun _ _ => True) (fun s1 s1' _ _ => s1 = s1' /\ valid_funcs hb (worklist s1))
    (backward_init y) (backward_init y).
Proof.
  intros Hy. unfold backward_init.
  eapply sim_bind; [stable_tac|by apply get_var_sim|]. intros xv xv'.
  apply sim_inspect. intros h0 h0' (_ & Hd & Hc & Hc' & Hg).
  eapply sim_bind.
  { stable_tac. }
  { instantiate (1 := fun _ _ _ _ => True).
    destruct (grad xv) as [| | |g], (grad xv') as [| | |g'];
      try (cbn in Hg; contradiction).
    - rewrite <- Hd. destruct (data xv) as [a|]; [|apply sim_raise].
      eapply sim_bind; [stable_tac|apply new_variable_sim|].
      intros r r'. apply set_grad_sim; [done|]. intros h h' [_ Hr]. exact Hr.
    - by apply sim_ret. }
  intros [] []. rewrite Hc, Hc'.
  destruct (the_creator hb y) as [c|] eqn:Hcy; [|apply sim_raise].
  apply add_func_sim; [|by apply Forall_nil].
  by destruct (wf_creator_outs _ _ _ Hwf Hcy).
Qed.

End SimSched.

Lemma backward_init_funcs v h r h' : backward_init v h = (r, h') -> funcs h' = funcs h.
Proof.
  intros H. unfold backward_init in H.
  destruct (vars h !! v) as [xv|] eqn:Hv; cycle 1.
  { unfold bind at 1 in H. unfold get_var in H. rewrite Hv in H. by simplify_eq. }
  rewrite (bind_get_var _ _ _ _ Hv) in H.
  apply bind_inv in H as [(a & h1 & E & H)|(e & E & _)].
  - apply add_func_store in H as ->.
    destruct (grad xv); try (by inv_prim E).
    destruct (data xv); [|by inv_prim E].
    cbn [new_variable] in E. rewrite bind_alloc_var in E.
    apply set_grad_inv in E as [(x & _ & _ & ->)|(_ & _ & ->)]; done.
  - destruct (grad xv); try (by inv_prim E).
    destruct (data xv); [|by inv_prim E].
    cbn [new_variable] in E. rewrite bind_alloc_var in E.
    apply set_grad_inv in E as [(x & _ & _ & ->)|(_ & _ & ->)]; done.
Qed.

Lemma same_val_grad_data h h' x :
  same_val h h' (the_grad h x) (the_grad h' x) ->
  is_Some (vars h !! x) -> is_Some (vars h' !! x) ->
  grad_data h' x = grad_data h x.
Proof.
  unfold the_grad, grad_data. intros Hs [xv Hx] [xv' Hx']. rewrite Hx, Hx' in *.
  destruct (grad xv) as [| | |g], (grad xv') as [| | |g']; try (cbn in Hs; contradiction).
  - done.
  - destruct Hs as (gv & gv' & -> & -> & Hd). done.
Qed.

Lemma neg_store_wf : wf neg_store.
Proof.
  apply (al_wf empty_store); [|apply wf_empty].
  unfold neg_store, run.
  match goal with |- allocates _ (snd (?m _)) =>
    assert (preserves allocates m) as Hp
  end.
  { unfold neg. pres_alloc. }
  match goal with |- allocates ?h (snd ?r) =>
    apply (Hp h (fst r) (snd r)); by destruct r
  end.
Qed.

Lemma neg_store_cleared_evolves : evolves neg_store neg_store_cleared.
Proof.
  unfold neg_store_cleared.
  match goal with |- evolves _ (snd (?m _)) =>
    assert (preserves evolves m) as Hp
  end.
  { pres_evolves; first [apply backward_evolves | apply cleargrad_evolves]. }
  match goal with |- evolves ?h (snd ?r) =>
    apply (Hp h (fst r) (snd r)); by destruct r
  end.
Qed.
(** * The claims *)

(** C3, as stated, fails: [as_variable] does not wrap a raw Python
    scalar, it raises TypeError. *)
Lemma as_variable_scalar_raises :
  ~ (exists v h', as_variable (PyFloat 2) empty_store = (Ok v, h')).
Proof. intros (v & h' & H). vm_compute in H. discriminate. Qed.

(** C3, amended: [as_variable] passes a Node through unchanged and
    allocates nothing; it wraps a raw array, and None, into a fresh leaf
    Node; on a raw Python scalar it raises TypeError and leaves the store
    as it was. *)
Theorem as_variable_cases (x : pyval) (h : store) :
  match x with
  | PyVar v => as_variable x h = (Ok v, h)
  | PyArr a => as_variable x h = (Ok (length (vars h)), add_vars [leaf_with (Some a)] h)
  | PyNone => as_variable x h = (Ok (length (vars h)), add_vars [leaf_with None] h)
  | PyFloat _ => as_variable x h = (Raise TypeError, h)
  end.
Proof. destruct x; reflexivity. Qed.


(** C1: on a Variable without creator, a leaf or the output of a call
    made with gradient tracking off, [backward] raises AttributeError. *)
Theorem backward_on_leaf_raises :
  fst (run (x <- new_variable (PyArr (Np.ones [2])) ;; backward x false))
  = Raise AttributeError /\
  fst (run (x <- new_variable (PyArr (Np.ones [2])) ;;
            y <- no_backward (neg (PyVar x)) ;;
            backward y false))
  = Raise AttributeError.
Proof. split; vm_compute; reflexivity. Qed.


(** C9: [BroadcastTo] and [SumTo] are dual.  When the target shape is the
    shape of the Node [x], both [broadcast_to] and [sum_to] return [x]
    itself and leave the store, hence the graph, as it was.  Otherwise
    the Function that [broadcast_to] records has [sum_to] of the gradient
    to the shape of [x] as its backward rule, and the Function that
    [sum_to] records has [broadcast_to] of the gradient to the shape of
    [x] as its backward rule. *)
Theorem broadcast_sum_dual (x : nat) (s : list nat) (h : store)
    (xv : PyVariable) (a : Np.ndarray) :
  vars h !! x = Some xv ->
  data xv = Some a ->
  enable_backprop h = true ->
  (Np.shape a = s ->
   broadcast_to (PyVar x) s h = (Ok x, h) /\ sum_to (PyVar x) s h = (Ok x, h)) /\
  (Np.shape a <> s ->
   (forall out h', broadcast_to (PyVar x) s h = (Ok out, h') ->
      exists ov f fr,
        vars h' !! out = Some ov /\ creator ov = Some f /\
        funcs h' !! f = Some fr /\ fn_class fr = BroadcastTo s /\ inputs fr = [x] /\
        forall dy, backward_rule fr [dy] =
                   (dx <- sum_to dy (Np.shape a) ;; ret [PyVar dx])) /\
   (forall out h', sum_to (PyVar x) s h = (Ok out, h') ->
      exists ov f fr,
        vars h' !! out = Some ov /\ creator ov = Some f /\
        funcs h' !! f = Some fr /\ fn_class fr = SumTo s /\ inputs fr = [x] /\
        forall dy, backward_rule fr [dy] =
                   (dx <- broadcast_to dy (Np.shape a) ;; ret [PyVar dx]))).
Proof.
  intros Hx Hd Hen. split.
  - intros <-. unfold broadcast_to, sum_to. cbn [shape_of].
    rewrite !(bind_ok _ _ _ _ _ (var_shape_ok _ _ _ _ Hx Hd)).
    by rewrite bool_decide_eq_true_2.
  - intros Hne. split.
    + intros out h'. unfold broadcast_to. cbn [shape_of].
      rewrite (bind_ok _ _ _ _ _ (var_shape_ok _ _ _ _ Hx Hd)).
      rewrite bool_decide_eq_false_2 by done.
      destruct (forward (BroadcastTo s) [data xv]) as [[y sv]|e] eqn:Hfw.
      * rewrite (call_var1 _ _ _ _ _ _ Hx Hfw Hen). intros ?; simplify_eq.
        rewrite Hd in Hfw. cbn in Hfw. destruct (Np.broadcast_to a s); simplify_eq.
        eexists _, _, _. unfold tracked_store; cbn [vars funcs].
        split; [apply lookup_snoc_length|]. split; [done|].
        split; [apply lookup_snoc_length|]. done.
      * rewrite (call_var1_raise _ _ _ _ _ Hx Hfw). done.
    + intros out h'. unfold sum_to. cbn [shape_of].
      rewrite (bind_ok _ _ _ _ _ (var_shape_ok _ _ _ _ Hx Hd)).
      rewrite bool_decide_eq_false_2 by done.
      destruct (forward (SumTo s) [data xv]) as [[y sv]|e] eqn:Hfw.
      * rewrite (call_var1 _ _ _ _ _ _ Hx Hfw Hen). intros ?; simplify_eq.
        rewrite Hd in Hfw. cbn in Hfw. destruct (Np.sum_to a s); simplify_eq.
        eexists _, _, _. unfold tracked_store; cbn [vars funcs].
        split; [apply lookup_snoc_length|]. split; [done|].
        split; [apply lookup_snoc_length|]. done.
      * rewrite (call_var1_raise _ _ _ _ _ Hx Hfw). done.
Qed.

Lemma broadcast_sum_dual_witness :
  broadcast_to (PyVar 0) [3] (snd (run (new_variable (PyArr (Np.ones [3])))))
  = (Ok 0, snd (run (new_variable (PyArr (Np.ones [3]))))) /\
  sum_to (PyVar 0) [3] (snd (run (new_variable (PyArr (Np.ones [3])))))
  = (Ok 0, snd (run (new_variable (PyArr (Np.ones [3]))))).
Proof.
  exact (proj1 (broadcast_sum_dual 0 [3]
                  (snd (run (new_variable (PyArr (Np.ones [3])))))
                  _ _ eq_refl eq_refl eq_refl) eq_refl).
Defined.

(** C7: after a call with gradient tracking on, the Function has the
    coerced arguments as inputs, its generation is the maximum of their
    generations, and its output is one generation above it; and whatever
    the program does later, every Variable keeps its generation. *)
Theorem generation_invariant (o : op) (args : list pyval) (h h' : store) (out : nat) :
  call o args h = (Ok out, h') ->
  enable_backprop h = true ->
  (exists f fr ov xvs h1,
      funcs h !! f = None /\ funcs h' !! f = Some fr /\
      mmap as_variable args h = (Ok (inputs fr), h1) /\
      inputs fr <> [] /\
      mapM (fun x => vars h' !! x) (inputs fr) = Some xvs /\
      fn_generation fr = max_list (generation <$> xvs) /\
      outputs fr = [out] /\
      vars h' !! out = Some ov /\ creator ov = Some f /\
      generation ov = fn_generation fr + 1) /\
  (forall h'' v x,
      later h' h'' -> vars h' !! v = Some x ->
      exists x', vars h'' !! v = Some x' /\ generation x' = generation x).
Proof.
  intros Hcall Hen. split.
  - apply call_inv in Hcall.
    inversion Hcall as [| ws a Hen' | ws ins xvs a sv _ Hws Hins Hxvs Hne Hfw];
      subst; [congruence|].
    eexists (length (funcs h)), _, _, xvs, _. cbn [vars funcs].
    split; [by apply lookup_ge_None|].
    split; [apply lookup_snoc_length|]. cbn [inputs fn_generation outputs].
    split; [exact Hins|]. split; [done|].
    split; [rewrite app_assoc; by apply mapM_lookup_app|].
    split; [done|]. split; [done|].
    split; [rewrite app_assoc; apply lookup_snoc_length|]. done.
  - intros h'' v x Hl Hv. apply later_evolves in Hl as [V _ _ _].
    destruct (V _ _ Hv) as (x' & ? & _ & _ & ?). eauto.
Qed.

Lemma generation_invariant_witness :
  exists f fr ov xvs h1,
    funcs (snd (run (new_variable (PyArr (Np.ones [2]))))) !! f = None /\
    funcs neg_store !! f = Some fr /\
    mmap as_variable [PyVar 0] (snd (run (new_variable (PyArr (Np.ones [2])))))
    = (Ok (inputs fr), h1) /\
    inputs fr <> [] /\
    mapM (fun x => vars neg_store !! x) (inputs fr) = Some xvs /\
    fn_generation fr = max_list (generation <$> xvs) /\
    outputs fr = [1] /\
    vars neg_store !! 1 = Some ov /\ creator ov = Some f /\
    generation ov = fn_generation fr + 1.
Proof.
  exact (proj1 (generation_invariant Neg [PyVar 0]
                  (snd (run (new_variable (PyArr (Np.ones [2])))))
                  neg_store 1 eq_refl eq_refl)).
Defined.

(** C2: for [x] with data [[3, 5]], [y = neg(x)] and [y.backward()], the
    gradient of [x] is the seed, all ones, and not its negation: the
    backward rule of [Neg] negates twice. *)
Theorem neg_backward_returns_seed :
  grad_data (snd (run (x <- new_variable (PyArr {| Np.shape := [2]; Np.elems := [3; 5]%Z |}) ;;
                       y <- neg (PyVar x) ;;
                       backward y false))) 0
  = Some (Np.ones [2]) /\
  Np.ones [2] <> Np.neg (Np.ones [2]).
Proof. split; [vm_compute; reflexivity | vm_compute; discriminate]. Qed.

(** C4, as stated, fails: with [axes] unspecified the backward rule does
    not apply the identity permutation to the gradient.  For [x] of shape
    (2, 3) it transposes the seed of shape (3, 2) by the permutation
    (1, 0), and the gradient of [x] is not the seed. *)
Lemma transpose_backward_not_identity :
  Np.transpose_perm 2 (backward_axes None) = Ok [1; 0] /\
  [1; 0] <> [0; 1] /\
  grad_data (snd (run (x <- new_variable (PyArr (Np.ones [2; 3])) ;;
                       y <- transpose (PyVar x) None ;;
                       backward y false))) 0
  = Some (Np.ones [2; 3]) /\
  Np.ones [2; 3] <> Np.ones [3; 2].
Proof. repeat split; vm_compute; congruence. Qed.

(** With negative entries in [axes] the argsort is not the inverse
    permutation: for [x] of shape (2, 3) and axes (-1, 0) the gradient of
    [x] has shape (3, 2). *)
Lemma transpose_backward_negative_axes :
  Np.shape <$>
    grad_data (snd (run (x <- new_variable (PyArr (Np.ones [2; 3])) ;;
                         y <- transpose (PyVar x) (Some [-1; 0]%Z) ;;
                         backward y false))) 0
  = Some [3; 2].
Proof. vm_compute. reflexivity. Qed.

(** C4, amended: for [axes] a permutation of the axes written with
    non-negative entries, the backward rule of [Transpose(axes)]
    transposes the gradient by the argsort of [axes], which is the
    inverse permutation; with [axes] unspecified it reverses the axes of
    the gradient, which undoes the reversal made forward.  In both cases,
    for a leaf [x] without gradient, [transpose(x, axes).backward()]
    returns and leaves in [x.grad] a Node whose data is the transposed
    seed and has the shape of [x]. *)
Theorem transpose_backward_inverse (h : store) (x : nat) (xv : PyVariable)
    (a : Np.ndarray) (axes : option (list Z)) :
  vars h !! x = Some xv -> data xv = Some a -> grad xv = PyNone ->
  creator xv = None -> enable_backprop h = true ->
  plain_axes (Np.ndim a) axes ->
  exists p y ga,
    Np.transpose_perm (Np.ndim a) axes = Ok p /\
    (axes = None -> p = reverse (seq 0 (Np.ndim a))) /\
    Np.transpose a axes = Ok y /\
    Np.transpose_perm (Np.ndim y) (backward_axes axes) = Ok (inverse_perm p) /\
    (forall k m, p !! k = Some m -> inverse_perm p !! m = Some k) /\
    (forall fr dy, fn_class fr = Transpose axes ->
       backward_rule fr [dy] = (r <- transpose dy (backward_axes axes) ;; ret [PyVar r])) /\
    fst ((y <- transpose (PyVar x) axes ;; backward y false) h) = Ok tt /\
    grad_data (snd ((y <- transpose (PyVar x) axes ;; backward y false) h)) x = Some ga /\
    Np.transpose (Np.ones (Np.shape y)) (backward_axes axes) = Ok ga /\
    Np.shape ga = Np.shape a.
Proof.
  intros Hx Hd Hg Hc Hen Hax.
  destruct (plain_axes_perms _ _ Hax) as (p & Hp & Hq & Hperm & Hlen).
  destruct (transpose_backward_run h x xv a axes Hx Hd Hg Hc Hen Hax)
    as (y & ga & Hy & Hga & Hrun & Hgrad).
  pose proof (transpose_shape _ _ _ _ Hp Hy) as Hsy.
  assert (Np.ndim y = Np.ndim a) as Hnd.
  { unfold Np.ndim. by rewrite Hsy, length_permute_shape. }
  assert (NoDup p) as Hndp by (rewrite Hperm; apply NoDup_seq).
  exists p, y, ga. repeat split; try done.
  - intros ->. cbn in Hp. by simplify_eq.
  - by rewrite Hnd.
  - intros k m. by apply inverse_perm_lookup.
  - intros fr dy Hfr. cbn [backward_rule]. rewrite Hfr. by destruct axes.
  - assert (Np.transpose_perm (Np.ndim (Np.ones (Np.shape y))) (backward_axes axes)
            = Ok (inverse_perm p)) as Hq'.
    { unfold Np.ndim. cbn. rewrite Hsy, length_permute_shape, Hlen. done. }
    rewrite (transpose_shape _ _ _ _ Hq' Hga). cbn [Np.ones Np.shape]. rewrite Hsy.
    apply permute_shape_inverse; [done|]. by rewrite Hlen.
Qed.

Lemma transpose_backward_inverse_witness :
  exists p y ga,
    Np.transpose_perm 2 (Some [1; 0]%Z) = Ok p /\
    Np.transpose (Np.from_fun [2; 3] (fun _ => 7%Z)) (Some [1; 0]%Z) = Ok y /\
    grad_data
      (snd ((y <- transpose (PyVar 0) (Some [1; 0]%Z) ;; backward y false)
              (snd (run (new_variable (PyArr (Np.from_fun [2; 3] (fun _ => 7%Z))))))))
      0 = Some ga /\
    Np.shape ga = [2; 3].
Proof.
  destruct (transpose_backward_inverse
              (snd (run (new_variable (PyArr (Np.from_fun [2; 3] (fun _ => 7%Z))))))
              0 _ _ (Some [1; 0]%Z) eq_refl eq_refl eq_refl eq_refl eq_refl
              (ex_intro _ [1; 0] (conj eq_refl (perm_swap 0 1 []))))
    as (p & y & ga & Hp & _ & Hy & _ & _ & _ & _ & Hg & _ & Hs).
  exists p, y, ga. repeat split; assumption.
Defined.

(** C6: at every turn of the loop of [backward], no Function has had its
    backward rule invoked twice, the Function removed from the worklist
    has not had it invoked before, and its generation is not below that
    of any Function left in the worklist; and a run of [backward] that
    returns has been through such turns only, so it invoked each rule at
    most once. *)
Theorem scheduler_order (v : nat) (retain : bool) (h : store) :
  (forall s h', reached v retain h s h' ->
     NoDup (processed s) /\
     forall f rest, pop (worklist s) = Some (f, rest) ->
       (f ∉ processed s) /\
       forall g, g ∈ rest -> is_Some (funcs h' !! g) /\ gen_of h' g <= gen_of h' f) /\
  (forall s h', backward_trace v retain h = (Ok s, h') ->
     reached v retain h s h' /\ NoDup (processed s)).
Proof.
  split.
  - intros s h' Hr. apply reached_sched_ok in Hr. split; [apply Hr|].
    intros f rest Hpop. apply pop_Some in Hpop.
    destruct (sched_ok_pop _ _ _ _ Hr Hpop) as (Hnew & Hgen & Hok).
    split; [done|]. intros g Hg. split; [|by apply Hgen].
    destruct Hok as [Hv _ _ _ _ _ _]. cbn in Hv. rewrite Forall_forall in Hv. auto.
  - intros s h' H. apply backward_trace_reached in H as [Hr _]. split; [done|].
    by apply reached_sched_ok in Hr as [].
Qed.

(** Two Functions of the same class, with the same input, the same
    generation and the same saved state are two entries of the worklist:
    for [z = neg(x) + neg(x)] all three rules are invoked, once each. *)
Lemma scheduler_order_witness :
  exists s h',
    backward_trace 3 false two_negs_store = (Ok s, h') /\
    processed s = [0; 1; 2] /\
    NoDup (processed s).
Proof.
  eexists _, _. split; [vm_compute; reflexivity|]. split; [reflexivity|].
  eapply (proj2 (scheduler_order 3 false two_negs_store)).
  vm_compute; reflexivity.
Defined.

(** C10: in every store that a program reaches from the empty one by
    creating Variables, calling Functions, running [backward] and
    clearing gradients, every [grad] attribute is None or a Variable of
    the store, never a raw array; and [backward], whatever its outcome,
    keeps this so from any store where it holds. *)
Theorem grads_are_variables :
  (forall h, later empty_store h -> grads_are_nodes h) /\
  (forall h v retain r h',
     grads_are_nodes h -> backward v retain h = (r, h') -> grads_are_nodes h').
Proof.
  split.
  - intros h Hl. remember empty_store as h0 eqn:Hh0.
    induction Hl as [h|h h1 a r h2 _ IH Hp]; subst.
    + intros v x Hv. done.
    + eapply perform_keeps_nodes; [exact Hp|]. by apply IH.
  - intros h v retain r h' Hall H. by eapply backward_keeps_nodes.
Qed.

Lemma grads_are_variables_witness :
  grads_are_nodes (snd (backward 3 false two_negs_store)).
Proof.
  refine (proj2 grads_are_variables two_negs_store 3 false
            (fst (backward 3 false two_negs_store)) _ _ _).
  - intros v x Hv. left.
    do 4 (destruct v as [|v]; [vm_compute in Hv; injection Hv as <-; reflexivity|]).
    vm_compute in Hv. discriminate.
  - vm_compute. reflexivity.
Defined.

(** C8: after [y.backward()] without retained gradients has returned,
    every Variable the pass visited that has a creator, [y] included, has
    no gradient, and every visited Variable without creator has one. *)
Theorem backward_clears_intermediates (h : store) (y f0 : nat) (h' : store) :
  wf h ->
  the_creator h y = Some f0 ->
  backward y false h = (Ok tt, h') ->
  forall x, ancestor h y x ->
    is_Some (vars h' !! x) /\
    the_creator h' x = the_creator h x /\
    (the_creator h x <> None -> the_grad h' x = PyNone) /\
    (the_creator h x = None -> the_grad h' x <> PyNone).
Proof.
  intros Hwf Hc H. unfold backward in H. inv_bind H. inv_prim H.
  apply backward_trace_reached in E as [Hr Hw].
  destruct (reached_pass_inv _ _ _ _ _ Hwf Hc Hr) as (hb & Hwfb & Hev & Hinv & Hok).
  assert (forall f, f ∈ seen_set a -> f ∈ processed a) as Hall.
  { intros f Hf. destruct (pi_seen _ _ _ _ _ _ Hinv f Hf) as [Hf'|]; [|done].
    rewrite Hw in Hf'. by apply elem_of_nil in Hf'. }
  assert (forall x, ancestor h y x ->
            is_Some (vars h !! x) /\
            (forall c, the_creator hb x = Some c -> c ∈ processed a) /\
            (x = y \/ exists f, f ∈ processed a /\ x ∈ ins hb f)) as Hanc.
  { intros x Hx. induction Hx as [|z f x Hz IH Hcz Hxf].
    - split; [|split; [|by left]].
      + unfold the_creator in Hc. destruct (vars h !! y); [eauto|done].
      + intros c Hcy. rewrite (the_creator_evolves _ _ _ Hev) in Hcy.
        * assert (c = f0) as -> by congruence.
          apply Hall, (pi_seed _ _ _ _ _ _ Hinv).
        * unfold the_creator in Hc. destruct (vars h !! y); [eauto|done].
    - destruct IH as (Hzv & Hzc & _).
      destruct (wf_creator_outs _ _ _ Hwf Hcz) as [_ Hfv].
      assert (x ∈ ins hb f) as Hxb by (by rewrite (ins_evolves _ _ _ Hev Hfv)).
      assert (f ∈ processed a) as Hfp.
      { apply Hzc. by rewrite (the_creator_evolves _ _ _ Hev Hzv). }
      split; [by eapply wf_ins_valid|]. split; [|right; eauto].
      intros c Hcx. apply Hall. eapply (pi_closed _ _ _ _ _ _ Hinv f x c); [done| |done].
      by rewrite handled_other. }
  intros x Hx. destruct (Hanc x Hx) as (Hxv & Hcre & Hin).
  pose proof (the_creator_evolves _ _ _ Hev Hxv) as Hcb.
  assert (evolves h h') as Hev'.
  { etransitivity; [exact Hev|]. apply (pi_evolves _ _ _ _ _ _ Hinv). }
  split; [|split; [|split]].
  - destruct Hxv as [xv Hxv]. destruct (ev_vars _ _ Hev' _ _ Hxv) as (xv' & -> & _). eauto.
  - by apply the_creator_evolves.
  - intros Hsome. destruct (the_creator hb x) as [c|] eqn:Hcx; [|congruence].
    specialize (Hcre c eq_refl).
    apply (pi_cleared _ _ _ _ _ _ Hinv c x); [done|done|].
    destruct (wf_creator_outs _ _ _ Hwfb Hcx) as [-> _]. set_solver.
  - intros Hnone. destruct Hin as [->|(f & Hf & Hxf)]; [congruence|].
    apply (pi_leaves _ _ _ _ _ _ Hinv f x); [done| |congruence].
    by rewrite handled_other.
Qed.

Lemma backward_clears_intermediates_witness :
  the_grad (snd (backward 3 false two_negs_store)) 3 = PyNone /\
  the_grad (snd (backward 3 false two_negs_store)) 1 = PyNone /\
  the_grad (snd (backward 3 false two_negs_store)) 0 <> PyNone.
Proof.
  pose proof (backward_clears_intermediates two_negs_store 3 2
                (snd (backward 3 false two_negs_store))
                two_negs_store_wf eq_refl eq_refl) as Hall.
  assert (ancestor two_negs_store 3 1) as H1.
  { apply ancestor_input with (z := 3) (f := 2);
      [apply ancestor_self | vm_compute; reflexivity | vm_compute; apply list_elem_of_here]. }
  assert (ancestor two_negs_store 3 0) as H0.
  { apply ancestor_input with (z := 1) (f := 0);
      [exact H1 | vm_compute; reflexivity | vm_compute; apply list_elem_of_here]. }
  split; [|split].
  - apply (Hall 3 (ancestor_self _ _)). vm_compute. discriminate.
  - apply (Hall 1 H1). vm_compute. discriminate.
  - apply (Hall 0 H0). vm_compute. reflexivity.
Defined.

(** C5, as stated, fails: gradients accumulate over runs of [backward].
    For a leaf [x] with data [[1, 1]] and [y = neg(x)], a single run of
    [y.backward(True)] gives [x] the gradient [[1, 1]]; the same run
    followed by [y.cleargrad()] and a second run of [backward], with
    either value of [retain_grad], gives [x] the gradient [[2, 2]]. *)
Lemma rerun_accumulates :
  grad_data (snd (backward 1 true neg_store)) 0
  = Some {| Np.shape := [2]; Np.elems := [1; 1]%Z |} /\
  forall retain,
    (backward 1 true ;;; cleargrad 1 ;;; backward 1 retain) neg_store
    = (Ok tt, snd ((backward 1 true ;;; cleargrad 1 ;;; backward 1 retain) neg_store)) /\
    grad_data (snd ((backward 1 true ;;; cleargrad 1 ;;; backward 1 retain) neg_store)) 0
    = Some {| Np.shape := [2]; Np.elems := [2; 2]%Z |}.
Proof.
  split; [vm_compute; reflexivity|].
  intros []; split; vm_compute; reflexivity.
Qed.

(** C5, amended: a run of [backward] adds to the gradients it finds, so
    it repeats a fresh run only on a graph without gradients.  Let [h] be
    a well-formed store in which no Variable has a gradient, and let
    [y.backward(retain)] return in it.  In every store [h2] that the
    program reaches from [h] by allocating objects and assigning
    gradients (by that run of [backward] and calls of [cleargrad], for
    one), and in which again no Variable of [h] has a gradient,
    [y.backward(retain)] returns too, and it leaves every Variable of [h]
    a gradient with the same data as the run in [h] does, or none where
    that run leaves none. *)
Theorem rerun_on_cleared_graph (h h1 h2 : store) (y : nat) (retain : bool) :
  wf h ->
  (forall x, x < length (vars h) -> the_grad h x = PyNone) ->
  backward y retain h = (Ok tt, h1) ->
  evolves h h2 ->
  (forall x, x < length (vars h) -> the_grad h2 x = PyNone) ->
  exists h3,
    backward y retain h2 = (Ok tt, h3) /\
    forall x, x < length (vars h) -> grad_data h3 x = grad_data h1 x.
Proof.
  intros Hwf Hfresh H Hev Hclear.
  unfold backward in H. inv_bind H. inv_prim H.
  unfold backward_trace in E. inv_bind E. rewrite bind_get_store in E.
  assert (y < length (vars h)) as Hy.
  { unfold backward_init in E0. inv_bind E0.
    apply get_var_inv in E1 as [-> [(xv & Hxv & ?)|[_ ?]]]; simplify_eq.
    by eapply lookup_lt_Some. }
  assert (same_graph h h h2) as Hsg.
  { split; [reflexivity|done|]. intros v Hv. by rewrite Hfresh, Hclear. }
  destruct (backward_init_sim h Hwf y Hy _ _ _ _ Hsg I E0)
    as (s0 & h0' & Hinit & Hsg0 & _ & _ & <- & Hs0).
  destruct (backward_loop_sim h Hwf _ retain _ Hs0 _ _ _ _ Hsg0 I E)
    as (s1 & h3 & Hloop & Hsg1 & _ & _ & <-).
  exists h3. split.
  - unfold backward, backward_trace.
    rewrite bind_bind, (bind_ok _ _ _ _ _ Hinit), bind_bind, bind_get_store.
    erewrite bind_ok; [reflexivity|].
    eapply backward_loop_more_fuel; [exact Hloop|].
    rewrite (backward_init_funcs _ _ _ _ E0).
    apply prefix_length, (ev_funcs _ _ (sg_right _ _ _ Hsg0)).
  - intros x Hx.
    destruct (same_graph_data _ _ _ _ Hsg1 Hx) as (xb & xv & xv' & _ & Hxv & Hxv' & _).
    apply same_val_grad_data; [by apply (sg_grads _ _ _ Hsg1)|eauto|eauto].
Qed.

Lemma rerun_on_cleared_graph_witness :
  exists h3,
    backward 1 true neg_store_cleared = (Ok tt, h3) /\
    forall x, x < length (vars neg_store) ->
      grad_data h3 x = grad_data (snd (backward 1 true neg_store)) x.
Proof.
  apply (rerun_on_cleared_graph neg_store (snd (backward 1 true neg_store))
           neg_store_cleared 1 true neg_store_wf).
  - intros x Hx. change (x < 2) in Hx.
    destruct x as [|[|x]]; [reflexivity|reflexivity|lia].
  - vm_compute. reflexivity.
  - exact neg_store_cleared_evolves.
  - intros x Hx. change (x < 2) in Hx.
    destruct x as [|[|x]]; [vm_compute; reflexivity|vm_compute; reflexivity|lia].
Defined.
(** * Further properties of the code *)

Lemma later_wf h : later empty_store h -> wf h.
Proof. intros Hl. apply (ev_wf _ _ (later_evolves _ _ Hl)), wf_empty. Qed.

Lemma later_two_negs_store : later empty_store two_negs_store.
Proof.
  eapply (later_step _ _ (Call Add [PyVar 1; PyVar 2]) (Ok tt)).
  - eapply (later_step _ _ (Call Neg [PyVar 0]) (Ok tt)).
    + eapply (later_step _ _ (Call Neg [PyVar 0]) (Ok tt)).
      * eapply (later_step _ _ (NewVariable (PyArr (Np.ones [2]))) (Ok tt));
          [apply later_refl|reflexivity].
      * reflexivity.
    + reflexivity.
  - vm_compute. reflexivity.
Qed.

(** X1: a call made inside [with no_backward():] records nothing: no
    Function object enters the store, the Variables that were there stay
    as they are, the flag [Config.enable_backprop] is afterwards what it
    was before, also when the call raises, and the output of a call that
    returns is a Variable with data and without gradient, creator or
    generation. *)
Theorem no_backward_call_records_nothing (o : op) (args : list pyval) (h : store) :
  let r := fst (no_backward (call o args) h) in
  let h' := snd (no_backward (call o args) h) in
  enable_backprop h' = enable_backprop h /\
  funcs h' = funcs h /\
  vars h `prefix_of` vars h' /\
  match r with
  | Ok out => exists a, vars h' !! out = Some (leaf_with (Some a))
  | Raise _ => True
  end.
Proof.
  unfold no_backward, using_config. cbn zeta.
  destruct (call o args (set_enable_backprop false h)) as [r h1] eqn:E.
  cbn [fst snd]. apply call_inv in E.
  inversion E as [e ws Hws | ws a Hen Hws | ws ins xvs a sv Hen Hws Hins Hxvs Hne Hfw];
    subst; try discriminate; cbn [set_enable_backprop add_vars enable_backprop funcs vars].
  - split; [done|]. split; [done|]. split; [by apply prefix_app_r|done].
  - split; [done|]. split; [done|]. split; [by apply prefix_app_r|].
    exists a. rewrite app_assoc. apply lookup_snoc_length.
Qed.

(** X2: a call that raises an exception leaves the graph as it was: no
    Function object is recorded, and the Variables of the store are
    unchanged; at most fresh leaf Variables, made from the raw arguments
    before the exception, are left behind. *)
Theorem failed_call_leaves_graph (o : op) (args : list pyval) (h h' : store) (e : exn) :
  call o args h = (Raise e, h') ->
  funcs h' = funcs h /\
  enable_backprop h' = enable_backprop h /\
  exists ws, Forall leaf ws /\ vars h' = vars h ++ ws.
Proof.
  intros H. apply call_inv in H.
  inversion H as [e' ws Hws | |]; subst.
  split; [done|]. split; [done|]. by exists ws.
Qed.

Lemma failed_call_leaves_graph_witness :
  funcs (snd (call Add [PyArr (Np.ones [2]); PyArr (Np.ones [3])] empty_store)) = [] /\
  enable_backprop (snd (call Add [PyArr (Np.ones [2]); PyArr (Np.ones [3])] empty_store))
  = true /\
  exists ws, Forall leaf ws /\
    vars (snd (call Add [PyArr (Np.ones [2]); PyArr (Np.ones [3])] empty_store)) = [] ++ ws.
Proof.
  exact (failed_call_leaves_graph Add [PyArr (Np.ones [2]); PyArr (Np.ones [3])]
           empty_store _ ValueError eq_refl).
Defined.

(** X3: in every store that a program reaches from the empty one by
    creating Variables, calling Functions, running [backward] and
    clearing gradients, generations order the graph topologically: an
    input of a Function is not above the generation of the Function, and
    the creator of an input is strictly below it.  So the graph has no
    cycle, and the scheduler, which takes the highest generation first,
    handles a Function before the creators of its inputs. *)
Theorem generations_order_graph (h : store) :
  later empty_store h ->
  forall f fr x xv,
    funcs h !! f = Some fr -> x ∈ inputs fr -> vars h !! x = Some xv ->
    generation xv <= fn_generation fr /\
    forall c, creator xv = Some c ->
      exists cr, funcs h !! c = Some cr /\ fn_generation cr < fn_generation fr.
Proof.
  intros Hl f fr x xv Hf Hx Hxv. apply later_wf in Hl.
  destruct (wf_inputs _ Hl _ _ _ Hf Hx) as (xv' & Hxv' & Hle). simplify_eq.
  split; [done|]. intros c Hc.
  destruct (wf_creator _ Hl _ _ _ Hxv Hc) as (cr & Hcr & _ & Hgen).
  exists cr. split; [done|]. lia.
Qed.

Lemma generations_order_graph_witness :
  exists fr xv cr,
    funcs two_negs_store !! 2 = Some fr /\
    vars two_negs_store !! 1 = Some xv /\
    funcs two_negs_store !! 0 = Some cr /\
    generation xv <= fn_generation fr /\
    fn_generation cr < fn_generation fr.
Proof.
  destruct (generations_order_graph two_negs_store later_two_negs_store
              2 _ 1 _ eq_refl (list_elem_of_here 1 [2]) eq_refl) as [Hle Hc].
  destruct (Hc 0 eq_refl) as (cr & Hcr & Hlt).
  eexists _, _, cr. split; [reflexivity|]. split; [reflexivity|].
  split; [exact Hcr|]. split; [exact Hle|exact Hlt].
Defined.

(** * Arrays: indices and elementwise operations *)

Lemma map_add_seq c b n : map (fun k => c + k) (seq b n) = seq (c + b) n.
Proof.
  revert b. induction n as [|n IH]; intros b; cbn [seq map]; [done|].
  f_equal. rewrite IH. f_equal. lia.
Qed.

Lemma flat_map_rows n a d :
  flat_map (fun i => map (fun k => i * n + k) (seq 0 n)) (seq a d) = seq (a * n) (d * n).
Proof.
  revert a. induction d as [|d IH]; intros a; cbn [seq flat_map]; [done|].
  rewrite IH, map_add_seq, Nat.add_0_r. cbn [Nat.mul]. rewrite seq_app. do 2 f_equal. lia.
Qed.

Lemma ravel_indices s : map (Np.ravel s) (Np.indices s) = seq 0 (Np.size_of s).
Proof.
  induction s as [|d s IH]; [done|].
  cbn [Np.indices Np.size_of foldr]. fold (Np.size_of s).
  rewrite flat_map_concat_map, concat_map, map_map.
  rewrite <- flat_map_concat_map.
  erewrite flat_map_ext; cycle 1.
  { intros i. rewrite map_map. cbn [Np.ravel].
    rewrite <- (map_map (Np.ravel s) (fun k => i * Np.size_of s + k)), IH. reflexivity. }
  apply (flat_map_rows (Np.size_of s) 0 d).
Qed.

Lemma length_indices s : length (Np.indices s) = Np.size_of s.
Proof. by rewrite <- (length_map (Np.ravel s)), ravel_indices, length_seq. Qed.

Lemma map_nth_seq {A} (l : list A) d : map (fun k => nth k l d) (seq 0 (length l)) = l.
Proof.
  induction l as [|x l IH]; [done|]. cbn [length seq map nth]. f_equal.
  rewrite <- seq_shift, map_map. exact IH.
Qed.

Lemma map_item_indices (F : Z -> Z) a :
  array_ok a ->
  map (fun j => F (Np.item a j)) (Np.indices (Np.shape a)) = F <$> Np.elems a.
Proof.
  intros Ha. unfold Np.item.
  rewrite <- (map_map (Np.ravel (Np.shape a)) (fun k => F (nth k (Np.elems a) 0%Z))).
  rewrite ravel_indices, <- Ha.
  rewrite <- (map_map (fun k => nth k (Np.elems a) 0%Z) F), map_nth_seq. done.
Qed.

Lemma map_item2_indices (f : Z -> Z -> Z) a b :
  array_ok a -> array_ok b -> Np.shape a = Np.shape b ->
  map (fun j => f (Np.item a j) (Np.item b j)) (Np.indices (Np.shape a))
  = zip_with f (Np.elems a) (Np.elems b).
Proof.
  intros Ha Hb Hs. unfold Np.item. rewrite <- Hs.
  rewrite <- (map_map (Np.ravel (Np.shape a))
                (fun k => f (nth k (Np.elems a) 0%Z) (nth k (Np.elems b) 0%Z))).
  rewrite ravel_indices, <- Ha.
  assert (length (Np.elems a) = length (Np.elems b)) as Hl.
  { unfold array_ok in *. congruence. }
  clear Ha Hb Hs. revert Hl. generalize (Np.elems a) (Np.elems b).
  intros l. induction l as [|x l IH]; intros [|y k] Hl; try discriminate; [done|].
  cbn [length seq map nth zip_with]. f_equal.
  rewrite <- seq_shift, map_map. apply IH. by injection Hl.
Qed.

Lemma indices_bounds s j :
  In j (Np.indices s) -> Forall2 (fun i d => i < d) j s.
Proof.
  revert j. induction s as [|d s IH]; intros j Hj; cbn [Np.indices] in Hj.
  - destruct Hj as [<-|[]]. constructor.
  - apply in_flat_map in Hj as (i & Hi & Hj). apply in_map_iff in Hj as (j' & <- & Hj').
    apply in_seq in Hi. constructor; [lia|by apply IH].
Qed.

Lemma source_index_same s j : In j (Np.indices s) -> Np.source_index s j = j.
Proof.
  intros Hj. apply indices_bounds in Hj. unfold Np.source_index.
  rewrite (Forall2_length _ _ _ Hj), Nat.sub_diag, drop_0.
  induction Hj as [|i d j s Hi Hj IH]; [done|]. cbn [zip_with]. rewrite IH. f_equal.
  destruct (d =? 1) eqn:E; [|done]. apply Nat.eqb_eq in E. lia.
Qed.

Lemma broadcast_rev_same r : Np.broadcast_rev r r = Some r.
Proof. induction r as [|a r IH]; [done|]. cbn. by rewrite IH, Nat.eqb_refl. Qed.

Lemma broadcast_shapes_same s : Np.broadcast_shapes s s = Some s.
Proof. unfold Np.broadcast_shapes. by rewrite broadcast_rev_same, reverse_involutive. Qed.

Lemma broadcast_shapes_scalar s : Np.broadcast_shapes s [] = Some s.
Proof.
  unfold Np.broadcast_shapes. rewrite reverse_nil.
  replace (Np.broadcast_rev (reverse s) []) with (Some (reverse s))
    by (by destruct (reverse s)).
  by rewrite reverse_involutive.
Qed.

(** An elementwise operation on two arrays of one shape. *)
Lemma binop_same_shape f a b :
  array_ok a -> array_ok b -> Np.shape a = Np.shape b ->
  Np.binop f a b = Ok (zip_array f a b).
Proof.
  intros Ha Hb Hs. unfold Np.binop. rewrite <- Hs, broadcast_shapes_same.
  unfold Np.from_fun, zip_array. do 2 f_equal.
  rewrite <- (map_item2_indices f a b Ha Hb Hs).
  apply map_ext_in. intros j Hj. by rewrite (source_index_same _ _ Hj).
Qed.

(** An elementwise operation on an array and a 0-dimensional array. *)
Lemma binop_scalar f a z :
  array_ok a ->
  Np.binop f a (Np.scalar z) = Ok (map_array (fun x => f x z) a).
Proof.
  intros Ha. unfold Np.binop. cbn [Np.scalar Np.shape]. rewrite broadcast_shapes_scalar.
  unfold Np.from_fun, map_array. do 2 f_equal.
  rewrite <- (map_item_indices (fun x => f x z) a Ha).
  apply map_ext_in. intros j Hj. rewrite (source_index_same _ _ Hj). done.
Qed.

Lemma array_ok_ones s : array_ok (Np.ones s).
Proof. unfold array_ok, Np.ones. cbn. by rewrite length_replicate. Qed.

Lemma zip_with_ones_mul (l : list Z) n :
  length l = n -> zip_with Z.mul (replicate n 1%Z) l = l.
Proof.
  revert n. induction l as [|x l IH]; intros [|n] Hl; try discriminate; [done|].
  cbn. rewrite IH by (by injection Hl). f_equal. lia.
Qed.

(** * Runs of [backward] over a graph of one Function *)

Lemma lookup_update_var_ne h x w v :
  v <> x -> vars (update_var x w h) !! v = vars h !! v.
Proof. intros Hne. unfold update_var. cbn [vars]. by rewrite list_lookup_insert_ne. Qed.

Lemma lookup_update_var_eq h x w xv :
  vars h !! x = Some xv -> vars (update_var x w h) !! x = Some w.
Proof.
  intros Hx. unfold update_var. cbn [vars].
  by rewrite list_lookup_insert_eq by (by eapply lookup_lt_Some).
Qed.

Lemma lookup_add_vars_old ws h v xv :
  vars h !! v = Some xv -> vars (add_vars ws h) !! v = Some xv.
Proof. intros Hv. unfold add_vars. cbn [vars]. by apply lookup_app_l_Some. Qed.

Lemma lookup_tracked_old o ins xvs a sv h v xv :
  vars h !! v = Some xv -> vars (tracked_store o ins xvs a sv h) !! v = Some xv.
Proof. intros Hv. unfold tracked_store. cbn [vars]. by apply lookup_app_l_Some. Qed.

Lemma call_var2 o x0 x1 h xv0 xv1 a sv :
  vars h !! x0 = Some xv0 -> vars h !! x1 = Some xv1 ->
  forward o [data xv0; data xv1] = Ok (a, sv) ->
  enable_backprop h = true ->
  call o [PyVar x0; PyVar x1] h
  = (Ok (length (vars h)), tracked_store o [x0; x1] [xv0; xv1] a sv h).
Proof.
  intros Hx0 Hx1 Hfw Hen. apply call_run; try done.
  cbn. by rewrite Hx0, Hx1.
Qed.

Lemma backward_init_run y h yv a f :
  vars h !! y = Some yv -> grad yv = PyNone -> data yv = Some a ->
  creator yv = Some f -> is_Some (funcs h !! f) ->
  backward_init y h
  = (Ok {| worklist := [f]; seen_set := [f]; processed := [] |},
     update_var y (with_grad (PyVar (length (vars h))) yv)
       (add_vars [leaf_with (Some (Np.ones (Np.shape a)))] h)).
Proof.
  intros Hy Hg Hd Hc Hf. unfold backward_init.
  rewrite (bind_get_var _ _ _ _ Hy), Hg, Hd. cbn [new_variable]. msimpl.
  rewrite (bind_set_grad _ _ _ _ yv) by (by apply lookup_add_vars_old).
  rewrite Hc. rewrite add_func_run; [done|].
  cbn [worklist app]. apply Forall_singleton. done.
Qed.

Lemma iteration_run (retain : bool) s h f rest fr (yvs : list PyVariable) dxs h1 s'
    (h2 h3 : store) :
  worklist s = rest ++ [f] ->
  funcs h !! f = Some fr ->
  mapM (fun y => vars h !! y) (outputs fr) = Some yvs ->
  backward_rule fr (grad <$> yvs) h = (Ok dxs, h1) ->
  mfold accumulate (zip (inputs fr) dxs)
    {| worklist := rest; seen_set := seen_set s; processed := f :: processed s |} h1
  = (Ok s', h2) ->
  (if retain then h3 = h2
   else mfold (fun y (_ : unit) => set_grad y PyNone) (outputs fr) tt h2 = (Ok tt, h3)) ->
  iteration retain s h = (Ok s', h3).
Proof.
  intros Hw Hf Hys Hrule Hacc Hclear. unfold iteration.
  rewrite (proj2 (pop_Some _ _ _) Hw).
  rewrite (bind_get_func _ _ _ _ Hf), (bind_mmap_read _ _ _ _ _ Hys).
  rewrite (bind_ok _ _ _ _ _ Hrule), (bind_ok _ _ _ _ _ Hacc).
  destruct retain.
  - subst h3. done.
  - by rewrite (bind_ok _ _ _ _ _ Hclear).
Qed.

Lemma backward_run y retain h s0 h1 s1 h2 :
  backward_init y h = (Ok s0, h1) ->
  worklist s0 <> [] -> funcs h1 <> [] ->
  iteration retain s0 h1 = (Ok s1, h2) ->
  worklist s1 = [] ->
  backward y retain h = (Ok tt, h2).
Proof.
  intros Hinit Hw Hf Hit Hw1. unfold backward, backward_trace.
  rewrite bind_bind, (bind_ok _ _ _ _ _ Hinit), bind_bind, bind_get_store.
  destruct (funcs h1) as [|fr0 fs]; [done|]. cbn [length backward_loop].
  destruct (worklist s0) as [|w ws] eqn:E; [done|].
  rewrite bind_bind, (bind_ok _ _ _ _ _ Hit).
  by rewrite (bind_ok _ _ _ _ _ (backward_loop_nil _ _ _ _ Hw1)).
Qed.

Lemma accumulate_leaf x dx s h xv :
  vars h !! x = Some xv -> grad xv = PyNone -> creator xv = None ->
  accumulate (x, dx) s h = (Ok s, update_var x (with_grad dx xv) h).
Proof.
  intros Hx Hg Hc. unfold accumulate.
  rewrite (bind_get_var _ _ _ _ Hx), Hg.
  rewrite (bind_set_grad _ _ _ _ _ Hx).
  rewrite (bind_get_var _ _ _ _ (lookup_update_var_eq _ _ _ _ Hx)).
  cbn [with_grad creator]. by rewrite Hc.
Qed.

Lemma accumulate_leaf_add x dx s h xv g r h1 :
  vars h !! x = Some xv -> grad xv = PyVar g -> creator xv = None ->
  py_add (PyVar g) dx h = (Ok r, h1) ->
  accumulate (x, dx) s h = (Ok s, update_var x (with_grad r xv) h1).
Proof.
  intros Hx Hg Hc Hadd. unfold accumulate.
  pose proof (allocates_lookup_var _ _ _ _ (py_add_allocates _ _ _ _ _ Hadd) Hx) as Hx1.
  rewrite (bind_get_var _ _ _ _ Hx), Hg.
  rewrite bind_bind, (bind_ok _ _ _ _ _ Hadd).
  rewrite (bind_set_grad _ _ _ _ _ Hx1).
  rewrite (bind_get_var _ _ _ _ (lookup_update_var_eq _ _ _ _ Hx1)).
  cbn [with_grad creator]. by rewrite Hc.
Qed.

Lemma the_grad_lookup h x xv : vars h !! x = Some xv -> the_grad h x = grad xv.
Proof. unfold the_grad. by intros ->. Qed.

(** [backward] on the output of a call with two distinct leaf inputs: the
    store in which the backward rule runs, and the store at the end in
    terms of what the rule returns. *)
Lemma backward_after_call2 o h x0 x1 xv0 xv1 y sv (retain : bool) :
  enable_backprop h = true -> x0 <> x1 ->
  vars h !! x0 = Some xv0 -> vars h !! x1 = Some xv1 ->
  grad xv0 = PyNone -> grad xv1 = PyNone ->
  creator xv0 = None -> creator xv1 = None ->
  forward o [data xv0; data xv1] = Ok (y, sv) ->
  exists h2 fr,
    fn_class fr = o /\ saved fr = sv /\ inputs fr = [x0; x1] /\
    enable_backprop h2 = true /\
    vars h2 !! x0 = Some xv0 /\ vars h2 !! x1 = Some xv1 /\
    vars h2 !! S (length (vars h)) = Some (leaf_with (Some (Np.ones (Np.shape y)))) /\
    length (vars h2) = S (S (length (vars h))) /\
    forall dx0 dx1 h3,
      backward_rule fr [PyVar (S (length (vars h)))] h2 = (Ok [dx0; dx1], h3) ->
      exists h',
        (r <- call o [PyVar x0; PyVar x1] ;; backward r retain) h = (Ok tt, h') /\
        the_grad h' x0 = dx0 /\ the_grad h' x1 = dx1 /\
        the_grad h' (length (vars h)) = (if retain then PyVar (S (length (vars h))) else PyNone) /\
        forall v, v <> x0 -> v <> x1 -> v <> length (vars h) ->
                  vars h' !! v = vars h3 !! v.
Proof.
  intros Hen Hne Hx0 Hx1 Hg0 Hg1 Hc0 Hc1 Hfw.
  pose proof (call_var2 _ _ _ _ _ _ _ _ Hx0 Hx1 Hfw Hen) as Hcall.
  set (z := length (vars h)) in *. set (f := length (funcs h)) in *.
  set (h1 := tracked_store o [x0; x1] [xv0; xv1] y sv h) in *.
  set (zv := {| data := Some y; grad := PyNone; creator := Some f;
                generation := max_list (generation <$> [xv0; xv1]) + 1 |}).
  set (fr := {| fn_class := o; saved := sv;
                fn_generation := max_list (generation <$> [xv0; xv1]);
                inputs := [x0; x1]; outputs := [z] |}).
  assert (x0 < z) as Hlt0 by (by eapply lookup_lt_Some).
  assert (x1 < z) as Hlt1 by (by eapply lookup_lt_Some).
  assert (vars h1 !! z = Some zv) as Hz1 by apply lookup_snoc_length.
  assert (funcs h1 !! f = Some fr) as Hf1 by apply lookup_snoc_length.
  assert (length (vars h1) = S z) as Hl1.
  { unfold h1, tracked_store. cbn [vars]. rewrite length_app. cbn. unfold z. lia. }
  pose proof (backward_init_run z h1 zv y f Hz1 eq_refl eq_refl eq_refl
                (ex_intro _ _ Hf1)) as Hinit.
  rewrite Hl1 in Hinit.
  set (h2 := update_var z (with_grad (PyVar (S z)) zv)
               (add_vars [leaf_with (Some (Np.ones (Np.shape y)))] h1)) in *.
  assert (vars h2 !! x0 = Some xv0) as Hx02.
  { unfold h2. rewrite lookup_update_var_ne by lia.
    by apply lookup_add_vars_old, lookup_tracked_old. }
  assert (vars h2 !! x1 = Some xv1) as Hx12.
  { unfold h2. rewrite lookup_update_var_ne by lia.
    by apply lookup_add_vars_old, lookup_tracked_old. }
  assert (vars h2 !! z = Some (with_grad (PyVar (S z)) zv)) as Hz2.
  { unfold h2. apply (lookup_update_var_eq _ _ _ zv). apply lookup_add_vars_old. exact Hz1. }
  assert (funcs h2 !! f = Some fr) as Hf2 by exact Hf1.
  exists h2, fr. repeat (split; [done|]).
  split.
  { unfold h2. rewrite lookup_update_var_ne by lia.
    unfold add_vars. cbn [vars]. rewrite <- Hl1. apply lookup_snoc_length. }
  split.
  { unfold h2, update_var, add_vars. cbn [vars].
    rewrite length_insert, length_app, Hl1. cbn. lia. }
  intros dx0 dx1 h3 Hrule.
  pose proof (backward_rule_allocates _ _ _ _ _ Hrule) as Hal.
  pose proof (allocates_lookup_var _ _ _ _ Hal Hx02) as Hx03.
  pose proof (allocates_lookup_var _ _ _ _ Hal Hx12) as Hx13.
  pose proof (allocates_lookup_var _ _ _ _ Hal Hz2) as Hz3.
  set (h4 := update_var x0 (with_grad dx0 xv0) h3).
  set (h5 := update_var x1 (with_grad dx1 xv1) h4).
  assert (vars h4 !! x1 = Some xv1) as Hx14.
  { unfold h4. by rewrite lookup_update_var_ne. }
  assert (vars h5 !! z = Some (with_grad (PyVar (S z)) zv)) as Hz5.
  { unfold h5, h4. rewrite !lookup_update_var_ne by lia. done. }
  set (h6 := if retain then h5
             else update_var z (with_grad PyNone (with_grad (PyVar (S z)) zv)) h5).
  exists h6. split.
  { rewrite (bind_ok _ _ _ _ _ Hcall). fold z.
    eapply (backward_run _ _ _ _ _ {| worklist := []; seen_set := [f]; processed := [f] |});
      [exact Hinit|done| | |reflexivity].
    { intros Hnil. by rewrite Hnil in Hf2. }
    eapply (iteration_run retain _ h2 f [] fr [with_grad (PyVar (S z)) zv] [dx0; dx1] h3 _ h5 h6).
    - done.
    - exact Hf2.
    - apply mapM_Some. apply Forall2_cons_2; [exact Hz2|apply Forall2_nil_2].
    - exact Hrule.
    - cbn [inputs fr zip zip_with mfold].
      rewrite (bind_ok _ _ _ _ _ (accumulate_leaf _ _ _ _ _ Hx03 Hg0 Hc0)).
      fold h4.
      rewrite (bind_ok _ _ _ _ _ (accumulate_leaf _ _ _ _ _ Hx14 Hg1 Hc1)).
      reflexivity.
    - unfold h6. destruct retain; [done|]. cbn [outputs fr mfold].
      rewrite (bind_set_grad _ _ _ _ _ Hz5). done. }
  assert (forall v, v <> z -> vars h6 !! v = vars h5 !! v) as H65.
  { intros v Hv. unfold h6. destruct retain; [done|]. by rewrite lookup_update_var_ne. }
  split.
  { unfold the_grad. rewrite H65 by lia. unfold h5.
    rewrite lookup_update_var_ne by done. unfold h4.
    by rewrite (lookup_update_var_eq _ _ _ _ Hx03). }
  split.
  { unfold the_grad. rewrite H65 by lia. unfold h5.
    by rewrite (lookup_update_var_eq _ _ _ _ Hx14). }
  split.
  { unfold the_grad, h6. destruct retain.
    - by rewrite Hz5.
    - by rewrite (lookup_update_var_eq _ _ _ _ Hz5). }
  intros v Hv0 Hv1 Hvz. rewrite H65 by done. unfold h5, h4.
  by rewrite !lookup_update_var_ne.
Qed.

Lemma binop_same_shape_ok f a b :
  Np.shape a = Np.shape b ->
  exists y, Np.binop f a b = Ok y /\ Np.shape y = Np.shape a.
Proof.
  intros Hs. unfold Np.binop. rewrite <- Hs, broadcast_shapes_same. eauto.
Qed.

Lemma grad_data_lookup h x g gv :
  the_grad h x = PyVar g -> vars h !! g = Some gv -> grad_data h x = data gv.
Proof.
  unfold the_grad, grad_data. destruct (vars h !! x) as [xv|]; [|done].
  intros -> ->. done.
Qed.

(** X4: for [z = add(x0, x1)] over two distinct leaves of one shape,
    [z.backward(retain_grad)] returns and gives both leaves the very same
    gradient object: the seed, a Variable of ones of that shape, which
    with [retain_grad] is also the gradient that [z] keeps. *)
Theorem add_backward_shares_seed (h : store) (x0 x1 : nat) (a0 a1 : Np.ndarray)
    (retain : bool) :
  enable_backprop h = true -> x0 <> x1 ->
  leaf_at h x0 a0 -> leaf_at h x1 a1 -> Np.shape a0 = Np.shape a1 ->
  exists h' g,
    (z <- add (PyVar x0) (PyVar x1) ;; backward z retain) h = (Ok tt, h') /\
    the_grad h' x0 = PyVar g /\ the_grad h' x1 = PyVar g /\
    data_at h' g = Some (Np.ones (Np.shape a0)) /\
    the_grad h' (length (vars h)) = (if retain then PyVar g else PyNone).
Proof.
  intros Hen Hne (xv0 & Hx0 & Hd0 & Hg0 & Hc0) (xv1 & Hx1 & Hd1 & Hg1 & Hc1) Hs.
  destruct (binop_same_shape_ok Z.add a0 a1 Hs) as (y & Hy & Hsy).
  assert (forward Add [data xv0; data xv1] = Ok (y, [Np.shape a0; Np.shape a1])) as Hfw.
  { rewrite Hd0, Hd1. cbn [forward]. unfold Np.add. by rewrite Hy. }
  destruct (backward_after_call2 Add h x0 x1 xv0 xv1 y _ retain
              Hen Hne Hx0 Hx1 Hg0 Hg1 Hc0 Hc1 Hfw)
    as (h2 & fr & Hcls & Hsv & Hin & Hen2 & Hx02 & Hx12 & Hseed & Hlen & Hrun).
  set (g := S (length (vars h))) in *.
  assert (backward_rule fr [PyVar g] h2 = (Ok [PyVar g; PyVar g], h2)) as Hrule.
  { unfold backward_rule. rewrite Hcls, Hsv, Hs.
    by rewrite bool_decide_eq_false_2 by (intros Hc; by apply Hc). }
  destruct (Hrun _ _ _ Hrule) as (h' & Hprog & Hgx0 & Hgx1 & Hgz & Hframe).
  exists h', g. split; [exact Hprog|]. split; [done|]. split; [done|].
  split; [|done].
  assert (x0 < length (vars h)) by (by eapply lookup_lt_Some).
  assert (x1 < length (vars h)) by (by eapply lookup_lt_Some).
  unfold data_at. rewrite Hframe by (unfold g; lia). rewrite Hseed. cbn. by rewrite Hsy.
Qed.

Lemma two_leaves_store_0 : leaf_at two_leaves_store 0 (Np.ones [2]).
Proof. eexists. split; [reflexivity|]. done. Qed.

Lemma two_leaves_store_1 :
  leaf_at two_leaves_store 1 {| Np.shape := [2]; Np.elems := [2; 3]%Z |}.
Proof. eexists. split; [reflexivity|]. done. Qed.

Lemma add_backward_shares_seed_witness :
  exists h' g,
    (z <- add (PyVar 0) (PyVar 1) ;; backward z true) two_leaves_store = (Ok tt, h') /\
    the_grad h' 0 = PyVar g /\ the_grad h' 1 = PyVar g /\
    data_at h' g = Some (Np.ones [2]) /\
    the_grad h' 2 = PyVar g.
Proof.
  apply (add_backward_shares_seed two_leaves_store 0 1 (Np.ones [2])
           {| Np.shape := [2]; Np.elems := [2; 3]%Z |} true eq_refl);
    [lia|exact two_leaves_store_0|exact two_leaves_store_1|reflexivity].
Defined.

(** X5: for [z = sub(x0, x1)] over two distinct leaves of one shape,
    [z.backward()] returns and gives [x0] the seed, all ones, and [x1] a
    new Variable holding the negated seed, all minus ones. *)
Theorem sub_backward_gradients (h : store) (x0 x1 : nat) (a0 a1 : Np.ndarray)
    (retain : bool) :
  enable_backprop h = true -> x0 <> x1 ->
  leaf_at h x0 a0 -> leaf_at h x1 a1 -> Np.shape a0 = Np.shape a1 ->
  exists h',
    (z <- sub (PyVar x0) (PyVar x1) ;; backward z retain) h = (Ok tt, h') /\
    grad_data h' x0 = Some (Np.ones (Np.shape a0)) /\
    grad_data h' x1 = Some (Np.neg (Np.ones (Np.shape a0))) /\
    the_grad h' x0 <> the_grad h' x1.
Proof.
  intros Hen Hne (xv0 & Hx0 & Hd0 & Hg0 & Hc0) (xv1 & Hx1 & Hd1 & Hg1 & Hc1) Hs.
  destruct (binop_same_shape_ok Z.sub a0 a1 Hs) as (y & Hy & Hsy).
  assert (forward Sub [data xv0; data xv1] = Ok (y, [Np.shape a0; Np.shape a1])) as Hfw.
  { rewrite Hd0, Hd1. cbn [forward]. unfold Np.sub. by rewrite Hy. }
  destruct (backward_after_call2 Sub h x0 x1 xv0 xv1 y _ retain
              Hen Hne Hx0 Hx1 Hg0 Hg1 Hc0 Hc1 Hfw)
    as (h2 & fr & Hcls & Hsv & Hin & Hen2 & Hx02 & Hx12 & Hseed & Hlen & Hrun).
  set (g := S (length (vars h))) in *.
  pose proof (call_var1 Neg g h2 _ (Np.neg (Np.ones (Np.shape y))) [] Hseed eq_refl Hen2)
    as Hneg.
  rewrite Hlen in Hneg. fold g in Hneg.
  set (h3 := tracked_store Neg [g] [leaf_with (Some (Np.ones (Np.shape y)))]
               (Np.neg (Np.ones (Np.shape y))) [] h2) in *.
  assert (backward_rule fr [PyVar g] h2 = (Ok [PyVar g; PyVar (S g)], h3)) as Hrule.
  { unfold backward_rule. rewrite Hcls, Hsv, Hs. cbn [py_neg]. unfold neg.
    rewrite bind_bind, (bind_ok _ _ _ _ _ Hneg), bind_ret.
    by rewrite bool_decide_eq_false_2 by (intros Hc; by apply Hc). }
  destruct (Hrun _ _ _ Hrule) as (h' & Hprog & Hgx0 & Hgx1 & Hgz & Hframe).
  assert (x0 < length (vars h)) by (by eapply lookup_lt_Some).
  assert (x1 < length (vars h)) by (by eapply lookup_lt_Some).
  exists h'. split; [exact Hprog|].
  split; [|split].
  - erewrite (grad_data_lookup _ _ _ _ Hgx0); cycle 1.
    { rewrite Hframe by (unfold g; lia). unfold h3. by apply lookup_tracked_old. }
    cbn. by rewrite Hsy.
  - erewrite (grad_data_lookup _ _ _ _ Hgx1); cycle 1.
    { rewrite Hframe by (unfold g; lia). unfold h3, tracked_store. cbn [vars].
      rewrite <- Hlen. apply lookup_snoc_length. }
    cbn. by rewrite Hsy.
  - rewrite Hgx0, Hgx1. intros ?; simplify_eq. lia.
Qed.

Lemma sub_backward_gradients_witness :
  exists h',
    (z <- sub (PyVar 0) (PyVar 1) ;; backward z false) two_leaves_store = (Ok tt, h') /\
    grad_data h' 0 = Some (Np.ones [2]) /\
    grad_data h' 1 = Some (Np.neg (Np.ones [2])) /\
    the_grad h' 0 <> the_grad h' 1.
Proof.
  apply (sub_backward_gradients two_leaves_store 0 1 (Np.ones [2])
           {| Np.shape := [2]; Np.elems := [2; 3]%Z |} false eq_refl);
    [lia|exact two_leaves_store_0|exact two_leaves_store_1|reflexivity].
Defined.

Lemma mul_ones_l a : array_ok a -> zip_array Z.mul (Np.ones (Np.shape a)) a = a.
Proof.
  intros Ha. destruct a as [s l]. unfold zip_array, Np.ones, array_ok in *. cbn in *.
  f_equal. by apply zip_with_ones_mul.
Qed.

Lemma mul_ones_run s a :
  array_ok a -> Np.shape a = s -> Np.mul (Np.ones s) a = Ok a.
Proof.
  intros Ha <-. unfold Np.mul.
  rewrite (binop_same_shape _ _ _ (array_ok_ones _) Ha eq_refl).
  cbn [Np.ones Np.shape]. f_equal. by apply mul_ones_l.
Qed.

(** X6: for [z = mul(x0, x1)] over two distinct leaves of one shape,
    [z.backward()] returns and gives each leaf a gradient that holds the
    data of the other leaf (the seed of ones times the other operand). *)
Theorem mul_backward_gradients (h : store) (x0 x1 : nat) (a0 a1 : Np.ndarray)
    (retain : bool) :
  enable_backprop h = true -> x0 <> x1 ->
  leaf_at h x0 a0 -> leaf_at h x1 a1 ->
  array_ok a0 -> array_ok a1 -> Np.shape a0 = Np.shape a1 ->
  exists h',
    (z <- mul (PyVar x0) (PyVar x1) ;; backward z retain) h = (Ok tt, h') /\
    grad_data h' x0 = Some a1 /\
    grad_data h' x1 = Some a0.
Proof.
  intros Hen Hne (xv0 & Hx0 & Hd0 & Hg0 & Hc0) (xv1 & Hx1 & Hd1 & Hg1 & Hc1) Ha0 Ha1 Hs.
  destruct (binop_same_shape_ok Z.mul a0 a1 Hs) as (y & Hy & Hsy).
  assert (forward Mul [data xv0; data xv1] = Ok (y, [])) as Hfw.
  { rewrite Hd0, Hd1. cbn [forward]. unfold Np.mul. by rewrite Hy. }
  destruct (backward_after_call2 Mul h x0 x1 xv0 xv1 y _ retain
              Hen Hne Hx0 Hx1 Hg0 Hg1 Hc0 Hc1 Hfw)
    as (h2 & fr & Hcls & Hsv & Hin & Hen2 & Hx02 & Hx12 & Hseed & Hlen & Hrun).
  set (g := S (length (vars h))) in *.
  set (seed := leaf_with (Some (Np.ones (Np.shape y)))) in *.
  assert (forward Mul [data seed; data xv1] = Ok (a1, [])) as Hfw1.
  { rewrite Hd1. cbn [seed leaf_with data forward].
    rewrite (mul_ones_run _ _ Ha1); [done|congruence]. }
  assert (forward Mul [data seed; data xv0] = Ok (a0, [])) as Hfw0.
  { rewrite Hd0. cbn [seed leaf_with data forward].
    rewrite (mul_ones_run _ _ Ha0); [done|congruence]. }
  pose proof (call_var2 Mul g x1 h2 _ _ _ _ Hseed Hx12 Hfw1 Hen2) as Hm1.
  rewrite Hlen in Hm1. fold g in Hm1.
  set (h3 := tracked_store Mul [g; x1] [seed; xv1] a1 [] h2) in *.
  assert (length (vars h3) = S (S g)) as Hlen3.
  { unfold h3, tracked_store. cbn [vars]. rewrite length_app, Hlen. cbn. lia. }
  pose proof (call_var2 Mul g x0 h3 _ _ _ _
                (lookup_tracked_old _ _ _ _ _ _ _ _ Hseed)
                (lookup_tracked_old _ _ _ _ _ _ _ _ Hx02) Hfw0 Hen2) as Hm0.
  rewrite Hlen3 in Hm0.
  set (h4 := tracked_store Mul [g; x0] [seed; xv0] a0 [] h3) in *.
  assert (vars h4 !! x0 = Some xv0) as Hx04 by (by do 2 apply lookup_tracked_old).
  assert (vars h4 !! x1 = Some xv1) as Hx14 by (by do 2 apply lookup_tracked_old).
  assert (backward_rule fr [PyVar g] h2 = (Ok [PyVar (S g); PyVar (S (S g))], h4)) as Hrule.
  { unfold backward_rule. rewrite Hcls, Hin. cbn [py_mul_var]. unfold mul. cbn [as_array].
    rewrite bind_bind, (bind_ok _ _ _ _ _ Hm1), bind_ret.
    rewrite bind_bind, (bind_ok _ _ _ _ _ Hm0), bind_ret.
    rewrite (bind_ok _ _ _ _ _ (var_shape_ok _ _ _ _ Hx04 Hd0)).
    rewrite (bind_ok _ _ _ _ _ (var_shape_ok _ _ _ _ Hx14 Hd1)).
    by rewrite bool_decide_eq_false_2 by (intros Hc; by apply Hc). }
  destruct (Hrun _ _ _ Hrule) as (h' & Hprog & Hgx0 & Hgx1 & Hgz & Hframe).
  assert (x0 < length (vars h)) by (by eapply lookup_lt_Some).
  assert (x1 < length (vars h)) by (by eapply lookup_lt_Some).
  exists h'. split; [exact Hprog|]. split.
  - erewrite (grad_data_lookup _ _ _ _ Hgx0); cycle 1.
    { rewrite Hframe by (unfold g; lia). unfold h4. apply lookup_tracked_old.
      unfold h3, tracked_store. cbn [vars]. rewrite <- Hlen. apply lookup_snoc_length. }
    done.
  - erewrite (grad_data_lookup _ _ _ _ Hgx1); cycle 1.
    { rewrite Hframe by (unfold g; lia). unfold h4, tracked_store. cbn [vars].
      rewrite <- Hlen3. apply lookup_snoc_length. }
    done.
Qed.

Lemma mul_backward_gradients_witness :
  exists h',
    (z <- mul (PyVar 0) (PyVar 1) ;; backward z false) two_leaves_store = (Ok tt, h') /\
    grad_data h' 0 = Some {| Np.shape := [2]; Np.elems := [2; 3]%Z |} /\
    grad_data h' 1 = Some (Np.ones [2]).
Proof.
  apply (mul_backward_gradients two_leaves_store 0 1 (Np.ones [2])
           {| Np.shape := [2]; Np.elems := [2; 3]%Z |} false eq_refl);
    [lia|exact two_leaves_store_0|exact two_leaves_store_1
    |reflexivity|reflexivity|reflexivity].
Defined.

(** [backward] on the output of a call that takes one leaf as both of its
    inputs: the second contribution is added to the first. *)
Lemma backward_after_call_twice o h x xv y sv (retain : bool) :
  enable_backprop h = true ->
  vars h !! x = Some xv -> grad xv = PyNone -> creator xv = None ->
  forward o [data xv; data xv] = Ok (y, sv) ->
  exists h2 fr,
    fn_class fr = o /\ saved fr = sv /\ inputs fr = [x; x] /\
    enable_backprop h2 = true /\
    vars h2 !! x = Some xv /\
    vars h2 !! S (length (vars h)) = Some (leaf_with (Some (Np.ones (Np.shape y)))) /\
    length (vars h2) = S (S (length (vars h))) /\
    forall d0 dx1 h3 r h5,
      backward_rule fr [PyVar (S (length (vars h)))] h2 = (Ok [PyVar d0; dx1], h3) ->
      py_add (PyVar d0) dx1 (update_var x (with_grad (PyVar d0) xv) h3) = (Ok r, h5) ->
      exists h',
        (z <- call o [PyVar x; PyVar x] ;; backward z retain) h = (Ok tt, h') /\
        the_grad h' x = r /\
        forall v, v <> x -> v <> length (vars h) -> vars h' !! v = vars h5 !! v.
Proof.
  intros Hen Hx Hg Hc Hfw.
  pose proof (call_var2 _ _ _ _ _ _ _ _ Hx Hx Hfw Hen) as Hcall.
  set (z := length (vars h)) in *. set (f := length (funcs h)) in *.
  set (h1 := tracked_store o [x; x] [xv; xv] y sv h) in *.
  set (zv := {| data := Some y; grad := PyNone; creator := Some f;
                generation := max_list (generation <$> [xv; xv]) + 1 |}).
  set (fr := {| fn_class := o; saved := sv;
                fn_generation := max_list (generation <$> [xv; xv]);
                inputs := [x; x]; outputs := [z] |}).
  assert (x < z) as Hlt by (by eapply lookup_lt_Some).
  assert (vars h1 !! z = Some zv) as Hz1 by apply lookup_snoc_length.
  assert (funcs h1 !! f = Some fr) as Hf1 by apply lookup_snoc_length.
  assert (length (vars h1) = S z) as Hl1.
  { unfold h1, tracked_store. cbn [vars]. rewrite length_app. cbn. unfold z. lia. }
  pose proof (backward_init_run z h1 zv y f Hz1 eq_refl eq_refl eq_refl
                (ex_intro _ _ Hf1)) as Hinit.
  rewrite Hl1 in Hinit.
  set (h2 := update_var z (with_grad (PyVar (S z)) zv)
               (add_vars [leaf_with (Some (Np.ones (Np.shape y)))] h1)) in *.
  assert (vars h2 !! x = Some xv) as Hx2.
  { unfold h2. rewrite lookup_update_var_ne by lia.
    by apply lookup_add_vars_old, lookup_tracked_old. }
  assert (vars h2 !! z = Some (with_grad (PyVar (S z)) zv)) as Hz2.
  { unfold h2. apply (lookup_update_var_eq _ _ _ zv). apply lookup_add_vars_old. exact Hz1. }
  assert (funcs h2 !! f = Some fr) as Hf2 by exact Hf1.
  exists h2, fr. repeat (split; [done|]).
  split.
  { unfold h2. rewrite lookup_update_var_ne by lia.
    unfold add_vars. cbn [vars]. rewrite <- Hl1. apply lookup_snoc_length. }
  split.
  { unfold h2, update_var, add_vars. cbn [vars].
    rewrite length_insert, length_app, Hl1. cbn. lia. }
  intros d0 dx1 h3 r h5 Hrule Hadd.
  pose proof (backward_rule_allocates _ _ _ _ _ Hrule) as Hal.
  pose proof (allocates_lookup_var _ _ _ _ Hal Hx2) as Hx3.
  pose proof (allocates_lookup_var _ _ _ _ Hal Hz2) as Hz3.
  set (h4 := update_var x (with_grad (PyVar d0) xv) h3) in *.
  assert (vars h4 !! x = Some (with_grad (PyVar d0) xv)) as Hx4.
  { unfold h4. by apply (lookup_update_var_eq _ _ _ xv). }
  assert (vars h4 !! z = Some (with_grad (PyVar (S z)) zv)) as Hz4.
  { unfold h4. rewrite lookup_update_var_ne by lia. done. }
  pose proof (py_add_allocates _ _ _ _ _ Hadd) as Hal5.
  pose proof (allocates_lookup_var _ _ _ _ Hal5 Hx4) as Hx5.
  pose proof (allocates_lookup_var _ _ _ _ Hal5 Hz4) as Hz5.
  set (h6 := update_var x (with_grad r (with_grad (PyVar d0) xv)) h5).
  assert (vars h6 !! z = Some (with_grad (PyVar (S z)) zv)) as Hz6.
  { unfold h6. rewrite lookup_update_var_ne by lia. done. }
  set (h7 := if retain then h6
             else update_var z (with_grad PyNone (with_grad (PyVar (S z)) zv)) h6).
  exists h7. split.
  { rewrite (bind_ok _ _ _ _ _ Hcall). fold z.
    eapply (backward_run _ _ _ _ _ {| worklist := []; seen_set := [f]; processed := [f] |});
      [exact Hinit|done| | |reflexivity].
    { intros Hnil. by rewrite Hnil in Hf2. }
    eapply (iteration_run retain _ h2 f [] fr [with_grad (PyVar (S z)) zv]
              [PyVar d0; dx1] h3 _ h6 h7).
    - done.
    - exact Hf2.
    - apply mapM_Some. apply Forall2_cons_2; [exact Hz2|apply Forall2_nil_2].
    - exact Hrule.
    - cbn [inputs fr zip zip_with mfold].
      rewrite (bind_ok _ _ _ _ _ (accumulate_leaf _ _ _ _ _ Hx3 Hg Hc)).
      fold h4.
      rewrite (bind_ok _ _ _ _ _
                 (accumulate_leaf_add _ _ _ _ _ d0 _ _ Hx4 eq_refl Hc Hadd)).
      reflexivity.
    - unfold h7. destruct retain; [done|]. cbn [outputs fr mfold].
      rewrite (bind_set_grad _ _ _ _ _ Hz6). done. }
  assert (forall v, v <> z -> vars h7 !! v = vars h6 !! v) as H76.
  { intros v Hv. unfold h7. destruct retain; [done|]. by rewrite lookup_update_var_ne. }
  split.
  { unfold the_grad. rewrite H76 by lia. unfold h6.
    by rewrite (lookup_update_var_eq _ _ _ _ Hx5). }
  intros v Hvx Hvz. rewrite H76 by done. unfold h6.
  by rewrite lookup_update_var_ne.
Qed.

(** X7: the contributions of both uses of an input are added up within
    one pass: for [z = mul(x, x)] over a leaf [x] with data [a],
    [z.backward()] returns and gives [x] a gradient that holds [a + a]. *)
Theorem square_backward_accumulates (h : store) (x : nat) (a : Np.ndarray)
    (retain : bool) :
  enable_backprop h = true -> leaf_at h x a -> array_ok a ->
  exists h',
    (z <- mul (PyVar x) (PyVar x) ;; backward z retain) h = (Ok tt, h') /\
    grad_data h' x = Some (zip_array Z.add a a).
Proof.
  intros Hen (xv & Hx & Hd & Hg & Hc) Ha.
  destruct (binop_same_shape_ok Z.mul a a eq_refl) as (y & Hy & Hsy).
  assert (forward Mul [data xv; data xv] = Ok (y, [])) as Hfw.
  { rewrite Hd. cbn [forward]. unfold Np.mul. by rewrite Hy. }
  destruct (backward_after_call_twice Mul h x xv y _ retain Hen Hx Hg Hc Hfw)
    as (h2 & fr & Hcls & Hsv & Hin & Hen2 & Hx2 & Hseed & Hlen & Hrun).
  set (g := S (length (vars h))) in *.
  set (seed := leaf_with (Some (Np.ones (Np.shape y)))) in *.
  assert (x < length (vars h)) as Hlt by (by eapply lookup_lt_Some).
  assert (forward Mul [data seed; data xv] = Ok (a, [])) as Hfw1.
  { rewrite Hd. cbn [seed leaf_with data forward].
    rewrite (mul_ones_run _ _ Ha); [done|congruence]. }
  pose proof (call_var2 Mul g x h2 _ _ _ _ Hseed Hx2 Hfw1 Hen2) as Hm1.
  rewrite Hlen in Hm1. fold g in Hm1.
  set (h3 := tracked_store Mul [g; x] [seed; xv] a [] h2) in *.
  assert (length (vars h3) = S (S g)) as Hlen3.
  { unfold h3, tracked_store. cbn [vars]. rewrite length_app, Hlen. cbn. lia. }
  pose proof (call_var2 Mul g x h3 _ _ _ _
                (lookup_tracked_old _ _ _ _ _ _ _ _ Hseed)
                (lookup_tracked_old _ _ _ _ _ _ _ _ Hx2) Hfw1 Hen2) as Hm0.
  rewrite Hlen3 in Hm0.
  set (h4 := tracked_store Mul [g; x] [seed; xv] a [] h3) in *.
  assert (length (vars h4) = S (S (S g))) as Hlen4.
  { unfold h4, tracked_store. cbn [vars]. rewrite length_app, Hlen3. cbn. lia. }
  assert (vars h4 !! x = Some xv) as Hx4 by (by do 2 apply lookup_tracked_old).
  assert (exists d0, vars h4 !! S g = Some d0 /\ data d0 = Some a) as (d0 & Hd0 & Hdd0).
  { eexists. split.
    - unfold h4. apply lookup_tracked_old.
      unfold h3, tracked_store. cbn [vars]. rewrite <- Hlen. apply lookup_snoc_length.
    - reflexivity. }
  assert (exists d1, vars h4 !! S (S g) = Some d1 /\ data d1 = Some a) as (d1 & Hd1 & Hdd1).
  { eexists. split.
    - unfold h4, tracked_store. cbn [vars]. rewrite <- Hlen3. apply lookup_snoc_length.
    - reflexivity. }
  assert (backward_rule fr [PyVar g] h2 = (Ok [PyVar (S g); PyVar (S (S g))], h4)) as Hrule.
  { unfold backward_rule. rewrite Hcls, Hin. cbn [py_mul_var]. unfold mul. cbn [as_array].
    rewrite bind_bind, (bind_ok _ _ _ _ _ Hm1), bind_ret.
    rewrite bind_bind, (bind_ok _ _ _ _ _ Hm0), bind_ret.
    rewrite (bind_ok _ _ _ _ _ (var_shape_ok _ _ _ _ Hx4 Hd)).
    rewrite (bind_ok _ _ _ _ _ (var_shape_ok _ _ _ _ Hx4 Hd)).
    by rewrite bool_decide_eq_false_2 by (intros Hc'; by apply Hc'). }
  set (h5 := update_var x (with_grad (PyVar (S g)) xv) h4).
  assert (forward Add [data d0; data d1] = Ok (zip_array Z.add a a, [Np.shape a; Np.shape a]))
    as Hfwa.
  { rewrite Hdd0, Hdd1. cbn [forward]. unfold Np.add.
    by rewrite (binop_same_shape _ _ _ Ha Ha eq_refl). }
  assert (vars h5 !! S g = Some d0) as Hd05.
  { unfold h5. rewrite lookup_update_var_ne by (unfold g; lia). done. }
  assert (vars h5 !! S (S g) = Some d1) as Hd15.
  { unfold h5. rewrite lookup_update_var_ne by (unfold g; lia). done. }
  pose proof (call_var2 Add (S g) (S (S g)) h5 _ _ _ _ Hd05 Hd15 Hfwa Hen2) as Hadd.
  assert (py_add (PyVar (S g)) (PyVar (S (S g))) h5
          = (Ok (PyVar (length (vars h5))),
             tracked_store Add [S g; S (S g)] [d0; d1] (zip_array Z.add a a)
               [Np.shape a; Np.shape a] h5)) as Hpy.
  { cbn [py_add]. unfold add. cbn [as_array]. by rewrite (bind_ok _ _ _ _ _ Hadd). }
  destruct (Hrun _ _ _ _ _ Hrule Hpy) as (h' & Hprog & Hgx & Hframe).
  exists h'. split; [exact Hprog|].
  erewrite (grad_data_lookup _ _ _ _ Hgx); cycle 1.
  { rewrite Hframe; [| |].
    - unfold tracked_store. cbn [vars]. apply lookup_snoc_length.
    - unfold h5, update_var. cbn [vars]. rewrite length_insert, Hlen4. unfold g. lia.
    - unfold h5, update_var. cbn [vars]. rewrite length_insert, Hlen4. unfold g. lia. }
  done.
Qed.

Lemma square_backward_accumulates_witness :
  exists h',
    (z <- mul (PyVar 1) (PyVar 1) ;; backward z false) two_leaves_store = (Ok tt, h') /\
    grad_data h' 1 = Some {| Np.shape := [2]; Np.elems := [4; 6]%Z |}.
Proof.
  exact (square_backward_accumulates two_leaves_store 1
           {| Np.shape := [2]; Np.elems := [2; 3]%Z |} false eq_refl
           two_leaves_store_1 eq_refl).
Defined.

(** * Raw operands *)

Lemma broadcast_shapes_scalar_l s : Np.broadcast_shapes [] s = Some s.
Proof. unfold Np.broadcast_shapes. rewrite reverse_nil. cbn. by rewrite reverse_involutive. Qed.

Lemma binop_scalar_l f z a :
  array_ok a ->
  Np.binop f (Np.scalar z) a = Ok (map_array (fun x => f z x) a).
Proof.
  intros Ha. unfold Np.binop. cbn [Np.scalar Np.shape]. rewrite broadcast_shapes_scalar_l.
  unfold Np.from_fun, map_array. do 2 f_equal.
  rewrite <- (map_item_indices (fun x => f z x) a Ha).
  apply map_ext_in. intros j Hj. rewrite (source_index_same _ _ Hj). done.
Qed.

Lemma data_at_lookup h x xv : vars h !! x = Some xv -> data_at h x = data xv.
Proof. unfold data_at. by intros ->. Qed.

(** A call on a Variable and a raw array, in either order. *)
Lemma call_var_arr o x s h xv y sv :
  vars h !! x = Some xv ->
  forward o [data xv; Some s] = Ok (y, sv) ->
  exists out h', call o [PyVar x; PyArr s] h = (Ok out, h') /\ data_at h' out = Some y.
Proof.
  intros Hx Hfw.
  set (h1 := add_vars [leaf_with (Some s)] h).
  assert (mmap as_variable [PyVar x; PyArr s] h = (Ok [x; length (vars h)], h1)) as Hins
    by reflexivity.
  assert (mapM (fun v => vars h1 !! v) [x; length (vars h)]
          = Some [xv; leaf_with (Some s)]) as Hxvs.
  { apply mapM_Some. apply Forall2_cons_2; [by apply lookup_add_vars_old|].
    apply Forall2_cons_2; [apply lookup_snoc_length|apply Forall2_nil_2]. }
  destruct (enable_backprop h1) eqn:Hen.
  - eexists _, _. split.
    + eapply call_run; [exact Hins|exact Hxvs|exact Hfw|exact Hen|done].
    + unfold data_at, tracked_store. cbn [vars]. by rewrite lookup_snoc_length.
  - eexists _, _. split.
    + eapply call_run_untracked; [exact Hins|exact Hxvs|exact Hfw|exact Hen].
    + unfold data_at. cbn [add_vars vars]. by rewrite lookup_snoc_length.
Qed.

Lemma call_arr_var o x s h xv y sv :
  vars h !! x = Some xv ->
  forward o [Some s; data xv] = Ok (y, sv) ->
  exists out h', call o [PyArr s; PyVar x] h = (Ok out, h') /\ data_at h' out = Some y.
Proof.
  intros Hx Hfw.
  set (h1 := add_vars [leaf_with (Some s)] h).
  assert (mmap as_variable [PyArr s; PyVar x] h = (Ok [length (vars h); x], h1)) as Hins
    by reflexivity.
  assert (mapM (fun v => vars h1 !! v) [length (vars h); x]
          = Some [leaf_with (Some s); xv]) as Hxvs.
  { apply mapM_Some. apply Forall2_cons_2; [apply lookup_snoc_length|].
    apply Forall2_cons_2; [by apply lookup_add_vars_old|apply Forall2_nil_2]. }
  destruct (enable_backprop h1) eqn:Hen.
  - eexists _, _. split.
    + eapply call_run; [exact Hins|exact Hxvs|exact Hfw|exact Hen|done].
    + unfold data_at, tracked_store. cbn [vars]. by rewrite lookup_snoc_length.
  - eexists _, _. split.
    + eapply call_run_untracked; [exact Hins|exact Hxvs|exact Hfw|exact Hen].
    + unfold data_at. cbn [add_vars vars]. by rewrite lookup_snoc_length.
Qed.

(** X8: a Python number is accepted as the second operand only.  For a
    Variable [x] with data [a], [add(x, c)] and [mul(x, c)] return a
    Variable that holds [a + c], [a * c] element by element, whereas
    [add(c, x)] and [mul(c, x)] raise TypeError and leave the store as it
    was: only the second operand goes through [as_array]. *)
Theorem scalar_operand_second_only (h : store) (x : nat) (xv : PyVariable)
    (a : Np.ndarray) (c : Z) :
  vars h !! x = Some xv -> data xv = Some a -> array_ok a ->
  (exists out h', add (PyVar x) (PyFloat c) h = (Ok out, h') /\
     data_at h' out = Some (map_array (fun v => (v + c)%Z) a)) /\
  (exists out h', mul (PyVar x) (PyFloat c) h = (Ok out, h') /\
     data_at h' out = Some (map_array (fun v => (v * c)%Z) a)) /\
  add (PyFloat c) (PyVar x) h = (Raise TypeError, h) /\
  mul (PyFloat c) (PyVar x) h = (Raise TypeError, h).
Proof.
  intros Hx Hd Ha. split; [|split; [|split; reflexivity]].
  - unfold add. cbn [as_array]. eapply call_var_arr; [exact Hx|].
    rewrite Hd. cbn [forward]. unfold Np.add. by rewrite (binop_scalar _ _ _ Ha).
  - unfold mul. cbn [as_array]. eapply call_var_arr; [exact Hx|].
    rewrite Hd. cbn [forward]. unfold Np.mul. by rewrite (binop_scalar _ _ _ Ha).
Qed.

Lemma scalar_operand_second_only_witness :
  (exists out h', add (PyVar 1) (PyFloat 5) two_leaves_store = (Ok out, h') /\
     data_at h' out = Some {| Np.shape := [2]; Np.elems := [7; 8]%Z |}) /\
  (exists out h', mul (PyVar 1) (PyFloat 5) two_leaves_store = (Ok out, h') /\
     data_at h' out = Some {| Np.shape := [2]; Np.elems := [10; 15]%Z |}) /\
  add (PyFloat 5) (PyVar 1) two_leaves_store = (Raise TypeError, two_leaves_store) /\
  mul (PyFloat 5) (PyVar 1) two_leaves_store = (Raise TypeError, two_leaves_store).
Proof.
  exact (scalar_operand_second_only two_leaves_store 1 _
           {| Np.shape := [2]; Np.elems := [2; 3]%Z |} 5 eq_refl eq_refl eq_refl).
Defined.

(** X9: the reflected subtraction swaps its operands: for a Variable [x]
    with data [a], [rsub(x, c)], which is [c - x] in Python, returns a
    Variable that holds [c - a] element by element, and [sub(x, c)] one
    that holds [a - c]. *)
Theorem rsub_swaps_operands (h : store) (x : nat) (xv : PyVariable)
    (a : Np.ndarray) (c : Z) :
  vars h !! x = Some xv -> data xv = Some a -> array_ok a ->
  (exists out h', rsub (PyVar x) (PyFloat c) h = (Ok out, h') /\
     data_at h' out = Some (map_array (fun v => (c - v)%Z) a)) /\
  (exists out h', sub (PyVar x) (PyFloat c) h = (Ok out, h') /\
     data_at h' out = Some (map_array (fun v => (v - c)%Z) a)).
Proof.
  intros Hx Hd Ha. split.
  - unfold rsub, sub. cbn [as_array]. eapply call_arr_var; [exact Hx|].
    rewrite Hd. cbn [forward]. unfold Np.sub. by rewrite (binop_scalar_l _ _ _ Ha).
  - unfold sub. cbn [as_array]. eapply call_var_arr; [exact Hx|].
    rewrite Hd. cbn [forward]. unfold Np.sub. by rewrite (binop_scalar _ _ _ Ha).
Qed.

Lemma rsub_swaps_operands_witness :
  (exists out h', rsub (PyVar 1) (PyFloat 5) two_leaves_store = (Ok out, h') /\
     data_at h' out = Some {| Np.shape := [2]; Np.elems := [3; 2]%Z |}) /\
  (exists out h', sub (PyVar 1) (PyFloat 5) two_leaves_store = (Ok out, h') /\
     data_at h' out = Some {| Np.shape := [2]; Np.elems := [-3; -2]%Z |}).
Proof.
  exact (rsub_swaps_operands two_leaves_store 1 _
           {| Np.shape := [2]; Np.elems := [2; 3]%Z |} 5 eq_refl eq_refl eq_refl).
Defined.

(** * [utils.sum_to] *)

Lemma omap_fmap_pointwise {A B C} (F : A -> option C) (G : A -> option B) (g : B -> C)
    (l : list A) :
  (forall x, F x = g <$> G x) -> omap F l = g <$> omap G l.
Proof.
  intros H. induction l as [|x l IH]; [done|]. cbn. rewrite H.
  destruct (G x); cbn; by rewrite IH.
Qed.

Lemma normalize_axes_of_nat nd (l : list nat) :
  Forall (fun k => k < nd) l -> Np.normalize_axes nd (Z.of_nat <$> l) = Some l.
Proof.
  induction 1 as [|k l Hk Hl IH]; [done|]. cbn [fmap list_fmap Np.normalize_axes].
  fold (fmap Z.of_nat l). rewrite IH. unfold Np.normalize_axis.
  rewrite bool_decide_eq_true_2 by lia. rewrite bool_decide_eq_false_2 by lia.
  by rewrite Nat2Z.id.
Qed.

Lemma elem_of_sum_to_axes lead s k :
  k ∈ sum_to_axes lead s <-> exists i, k = i + lead /\ s !! i = Some 1.
Proof.
  unfold sum_to_axes. rewrite list_elem_of_omap. split.
  - intros ([i sx] & Hin & Hf). apply elem_of_lookup_imap in Hin as (j & y & Heq & Hj).
    simplify_eq. cbn in Hf. destruct (y =? 1) eqn:E; [|done].
    apply Nat.eqb_eq in E. simplify_eq. eauto.
  - intros (i & -> & Hi). exists (i, 1). split; [|done].
    apply elem_of_lookup_imap. eauto.
Qed.

Lemma omap_imap_shift lead (f : nat -> nat) (s : list nat) :
  omap (fun p : nat * nat => if snd p =? 1 then Some (fst p + lead) else None)
    (imap (fun i sx => (S (f i), sx)) s)
  = omap (fun p : nat * nat => if snd p =? 1 then Some (fst p + S lead) else None)
      (imap (fun i sx => (f i, sx)) s).
Proof.
  revert f. induction s as [|y s IH]; intros f; [done|].
  rewrite !imap_cons. cbn.
  pose proof (IH (f ∘ S)) as IH'.
  destruct (y =? 1).
  - f_equal; [f_equal; lia|exact IH'].
  - exact IH'.
Qed.

Lemma sum_to_axes_cons lead sx s :
  sum_to_axes lead (sx :: s)
  = (if sx =? 1 then [lead] else []) ++ sum_to_axes (S lead) s.
Proof.
  unfold sum_to_axes. rewrite imap_cons. cbn.
  pose proof (omap_imap_shift lead (fun i => i) s) as Hs.
  destruct (sx =? 1); cbn [app]; [f_equal|]; exact Hs.
Qed.

Lemma sum_to_axes_NoDup lead s : NoDup (sum_to_axes lead s).
Proof.
  revert lead. induction s as [|sx s IH]; intros lead; [constructor|].
  rewrite sum_to_axes_cons. destruct (sx =? 1); [|apply IH].
  cbn [app]. constructor; [|apply IH].
  rewrite elem_of_sum_to_axes. intros (i & Hi & _). lia.
Qed.

Lemma keepdims_shape_split lead (s xs ax : list nat) :
  length xs = lead + length s ->
  (forall k, k ∈ ax <-> k < lead \/ exists i, k = i + lead /\ s !! i = Some 1) ->
  imap (fun k d => if bool_decide (k ∈ ax) then 1 else d) xs
  = replicate lead 1 ++ zip_with (fun sx d => if sx =? 1 then 1 else d) s (drop lead xs).
Proof.
  intros Hlen Hax. apply list_eq. intros i. rewrite list_lookup_imap.
  destruct (decide (i < lead)) as [Hi|Hi].
  - rewrite lookup_app_l by (by rewrite length_replicate).
    rewrite lookup_replicate_2 by done.
    destruct (lookup_lt_is_Some_2 xs i ltac:(lia)) as [d ->]. cbn.
    rewrite bool_decide_eq_true_2; [done|]. apply Hax. by left.
  - rewrite lookup_app_r by (rewrite length_replicate; lia).
    rewrite length_replicate, lookup_zip_with, lookup_drop.
    replace (lead + (i - lead)) with i by lia.
    destruct (s !! (i - lead)) as [sx|] eqn:Hs; cbn.
    + destruct (lookup_lt_is_Some_2 xs i) as [d ->].
      { apply lookup_lt_Some in Hs. lia. }
      cbn. f_equal. destruct (sx =? 1) eqn:E.
      * apply Nat.eqb_eq in E. subst. rewrite bool_decide_eq_true_2; [done|].
        apply Hax. right. exists (i - lead). split; [lia|done].
      * apply Nat.eqb_neq in E. rewrite bool_decide_eq_false_2; [done|].
        rewrite Hax. intros [?|(j & Hj & Hsj)]; [lia|].
        replace (i - lead) with j in Hs by lia. congruence.
    + apply lookup_ge_None in Hs. rewrite (lookup_ge_None_2 xs i) by lia. done.
Qed.

Lemma forallb_replicate_ones n : forallb (Nat.eqb 1) (replicate n 1) = true.
Proof. induction n as [|n IH]; [done|]. cbn. exact IH. Qed.

Lemma zip_with_keep_iff (s post : list nat) :
  length s = length post ->
  zip_with (fun sx d => if sx =? 1 then 1 else d) s post = s
  <-> Forall2 (fun sx d => sx = 1 \/ sx = d) s post.
Proof.
  revert post. induction s as [|sx s IH]; intros [|d post] Hl; try discriminate.
  - split; [constructor|done].
  - cbn [zip_with]. injection Hl as Hl. split.
    + intros H. injection H as Hh Ht. constructor; [|by apply IH].
      destruct (sx =? 1) eqn:E; [left; by apply Nat.eqb_eq|by right].
    + intros H. apply Forall2_cons_1 in H as [Hh Ht]. f_equal; [|by apply IH].
      destruct (sx =? 1) eqn:E; [symmetry; by apply Nat.eqb_eq|].
      apply Nat.eqb_neq in E. by destruct Hh.
Qed.

(** The shape of the result of [utils.sum_to]. *)
Lemma sum_to_ok_shape (x : Np.ndarray) (s : list nat) :
  length s <= Np.ndim x ->
  exists y, Np.sum_to x s = Ok y /\ Np.shape y = sum_to_shape s (Np.shape x).
Proof.
  intros Hle. unfold Np.ndim in *. set (xs := Np.shape x) in *.
  set (lead := length xs - length s).
  assert (length xs = lead + length s) as Hlen by (unfold lead; lia).
  set (ax := seq 0 lead ++ sum_to_axes lead s).
  assert (forall k, k ∈ ax <-> k < lead \/ exists i, k = i + lead /\ s !! i = Some 1) as Hax.
  { intros k. unfold ax. rewrite elem_of_app, elem_of_seq, elem_of_sum_to_axes.
    split; (intros [?|?]; [left; lia|by right]). }
  assert (Forall (fun k => k < length xs) ax) as Hbound.
  { apply Forall_forall. intros k Hk. apply Hax in Hk as [?|(i & -> & Hi)]; [lia|].
    apply lookup_lt_Some in Hi. lia. }
  assert (NoDup ax) as Hnd.
  { unfold ax. apply NoDup_app. split; [apply NoDup_seq|]. split; [|apply sum_to_axes_NoDup].
    intros k Hk Hk'. apply elem_of_seq in Hk. apply elem_of_sum_to_axes in Hk' as (i & ? & _).
    lia. }
  pose proof (keepdims_shape_split lead s xs ax Hlen Hax) as Hshape.
  unfold Np.sum_to, Np.ndim. fold xs.
  replace (Z.of_nat (length xs) - Z.of_nat (length s))%Z with (Z.of_nat lead) by lia.
  rewrite Nat2Z.id.
  rewrite (omap_fmap_pointwise _
             (fun p : nat * nat => if snd p =? 1 then Some (fst p + lead) else None)
             Z.of_nat); cycle 1.
  { intros [i sx]. cbn. destruct (sx =? 1); cbn; [|done]. f_equal. lia. }
  fold (sum_to_axes lead s). rewrite <- fmap_app. fold ax.
  unfold Np.sum_keepdims, Np.ndim. fold xs.
  rewrite (normalize_axes_of_nat _ _ Hbound).
  rewrite bool_decide_eq_true_2 by done. rewrite Hshape.
  case_bool_decide as Hpos.
  - unfold Np.squeeze_lead, Np.ndim. cbn [Np.from_fun Np.shape Np.elems].
    rewrite take_app_length' by (by rewrite length_replicate).
    rewrite drop_app_length' by (by rewrite length_replicate).
    rewrite bool_decide_eq_true_2; cycle 1.
    { rewrite length_app, length_replicate. lia. }
    rewrite forallb_replicate_ones.
    cbn [andb]. eexists. split; reflexivity.
  - assert (lead = 0) as H0 by lia.
    eexists. split; [reflexivity|]. cbn [Np.from_fun Np.shape].
    replace (replicate lead 1) with (@nil nat) by (by rewrite H0).
    reflexivity.
Qed.

(** The result has the requested shape when the shape fits. *)
Lemma sum_to_shape_fits (s xs : list nat) :
  length s <= length xs ->
  sum_to_shape s xs = s <->
  Forall2 (fun sx d => sx = 1 \/ sx = d) s (drop (length xs - length s) xs).
Proof.
  intros Hle. unfold sum_to_shape. apply zip_with_keep_iff. rewrite length_drop. lia.
Qed.

(** X10: [utils.sum_to(x, shape)] with no more axes in [shape] than in
    [x] never raises and does not check that [shape] fits: an axis of [x]
    that faces a one in [shape] is summed to length one, every other
    trailing axis keeps its length in [x], and the leading axes are
    removed.  So the result has the requested shape exactly when every
    entry of [shape] is one or the length of the axis of [x] it faces. *)
Theorem sum_to_result_shape (x : Np.ndarray) (s : list nat) :
  length s <= Np.ndim x ->
  exists y,
    Np.sum_to x s = Ok y /\
    Np.shape y = sum_to_shape s (Np.shape x) /\
    (Np.shape y = s <->
     Forall2 (fun sx d => sx = 1 \/ sx = d) s
       (drop (Np.ndim x - length s) (Np.shape x))).
Proof.
  intros Hle. destruct (sum_to_ok_shape x s Hle) as (y & Hy & Hs).
  exists y. split; [exact Hy|]. split; [exact Hs|].
  rewrite Hs. by apply sum_to_shape_fits.
Qed.

Lemma sum_to_result_shape_witness :
  exists y,
    Np.sum_to (Np.ones [2; 3; 4]) [3; 1] = Ok y /\
    Np.shape y = [3; 1] /\
    (Np.shape y = [3; 1] <->
     Forall2 (fun sx d => sx = 1 \/ sx = d) [3; 1] [3; 4]).
Proof.
  apply (sum_to_result_shape (Np.ones [2; 3; 4]) [3; 1]). cbn. lia.
Defined.

(** * The loop of [backward] ends *)

Section Never.
Context (e : exn).

Lemma never_ret {A} (a : A) : never e (ret a).
Proof. intros h h' H. inv_prim H. Qed.

Lemma never_raise {A} e' : e' <> e -> never e (@raise A e').
Proof. intros Hne h h' H. inv_prim H. Qed.

Lemma never_lift {A} (r : outcome A) : r <> Raise e -> never e (lift r).
Proof. intros Hne h h' H. inv_prim H. Qed.

Lemma never_get_store : never e get_store.
Proof. intros h h' H. inv_prim H. Qed.

Lemma never_bind {A B} (m : M A) (k : A -> M B) :
  never e m -> (forall a, never e (k a)) -> never e (bind m k).
Proof.
  intros Hm Hk h h' H. apply bind_inv in H as [(a & h1 & _ & H)|(e' & H & He)].
  - by apply Hk in H.
  - simplify_eq. by apply Hm in H.
Qed.

Lemma never_mmap {A B} (f : A -> M B) l :
  (forall x, never e (f x)) -> never e (mmap f l).
Proof.
  intros Hf. induction l as [|x l IH]; cbn [mmap]; [apply never_ret|].
  apply never_bind; [done|]. intros y. apply never_bind; [done|]. intros ys. apply never_ret.
Qed.

Lemma never_mfold {A S} (f : A -> S -> M S) l s :
  (forall x s, never e (f x s)) -> never e (mfold f l s).
Proof.
  intros Hf. revert s. induction l as [|x l IH]; intros s; cbn [mfold]; [apply never_ret|].
  apply never_bind; [done|]. intros s'. apply IH.
Qed.

End Never.

Lemma never_get_var v : never OutOfFuel (get_var v).
Proof. intros h h' H. inv_prim H. Qed.

Lemma never_get_func f : never OutOfFuel (get_func f).
Proof. intros h h' H. inv_prim H. Qed.

Lemma never_put_var v x : never OutOfFuel (put_var v x).
Proof. intros h h' H. inv_prim H. Qed.

Lemma never_alloc_var x : never OutOfFuel (alloc_var x).
Proof. intros h h' H. inv_prim H. Qed.

Lemma never_alloc_func f : never OutOfFuel (alloc_func f).
Proof. intros h h' H. inv_prim H. Qed.

Lemma binop_no_fuel f a b : Np.binop f a b <> Raise OutOfFuel.
Proof. unfold Np.binop. by destruct (Np.broadcast_shapes _ _). Qed.

Lemma sum_to_no_fuel a s : Np.sum_to a s <> Raise OutOfFuel.
Proof.
  unfold Np.sum_to, Np.sum_keepdims, Np.squeeze_lead.
  repeat case_match; congruence.
Qed.

Lemma forward_no_fuel o xs : forward o xs <> Raise OutOfFuel.
Proof.
  pose proof sum_to_no_fuel as Hs. pose proof binop_no_fuel as Hb.
  unfold forward, Np.add, Np.sub, Np.mul, Np.reshape, Np.transpose, Np.transpose_perm,
    Np.broadcast_to.
  repeat case_match; try congruence; simplify_eq.
  all: try (exfalso; eapply Hb; eassumption).
  all: try (exfalso; eapply Hs; eassumption).
Qed.

(** Steps of a proof of [never OutOfFuel] along a computation. *)
Ltac never_step :=
  lazymatch goal with
  | |- never _ (bind _ _) => apply never_bind; [|intros ?]
  | |- never _ (ret _) => apply never_ret
  | |- never _ (raise _) => apply never_raise; discriminate
  | |- never _ get_store => apply never_get_store
  | |- never _ (get_var _) => apply never_get_var
  | |- never _ (get_func _) => apply never_get_func
  | |- never _ (put_var _ _) => apply never_put_var
  | |- never _ (alloc_var _) => apply never_alloc_var
  | |- never _ (alloc_func _) => apply never_alloc_func
  | |- never _ (lift (forward _ _)) => apply never_lift, forward_no_fuel
  | |- never _ (lift (Np.add _ _)) => apply never_lift, binop_no_fuel
  | |- never _ (mmap _ _) => apply never_mmap; intros ?
  | |- never _ (mfold _ _ _) => apply never_mfold; intros ? ?
  | |- never _ (match ?x with _ => _ end) => destruct x
  end.

Lemma never_new_variable d : never OutOfFuel (new_variable d).
Proof. unfold new_variable. repeat never_step. Qed.

Lemma never_set_grad v g : never OutOfFuel (set_grad v g).
Proof. unfold set_grad. repeat never_step. Qed.

Lemma never_call o args : never OutOfFuel (call o args).
Proof.
  unfold call, as_variable, py_max, set_creator.
  repeat first [never_step | apply never_new_variable].
Qed.

Lemma never_shape_of x : never OutOfFuel (shape_of x).
Proof. unfold shape_of, var_shape. repeat never_step. Qed.

Lemma never_same_shape_or_call x s o :
  never OutOfFuel (sh <- shape_of x ;;
                   if bool_decide (sh = s) then as_variable x else call o [x]).
Proof.
  apply never_bind; [apply never_shape_of|]. intros sh.
  case_bool_decide; [|apply never_call].
  unfold as_variable. destruct x; first [apply never_ret | apply never_new_variable].
Qed.

Lemma never_py_neg a : never OutOfFuel (py_neg a).
Proof. unfold py_neg, neg. repeat first [never_step | apply never_call]. Qed.

Lemma never_py_add a b : never OutOfFuel (py_add a b).
Proof. unfold py_add, add. repeat first [never_step | apply never_call]. Qed.

Lemma never_py_mul_var a x : never OutOfFuel (py_mul_var a x).
Proof. unfold py_mul_var, mul. repeat first [never_step | apply never_call]. Qed.

Lemma never_backward_rule fr dys : never OutOfFuel (backward_rule fr dys).
Proof.
  unfold backward_rule, transpose, var_shape.
  repeat first
    [ apply never_py_neg | apply never_py_mul_var | apply never_call
    | apply (never_same_shape_or_call _ _ (SumTo _))
    | apply (never_same_shape_or_call _ _ (BroadcastTo _))
    | apply (never_same_shape_or_call _ _ (Reshape _))
    | never_step
    | case_bool_decide ].
Qed.

Lemma never_add_func f s : never OutOfFuel (add_func f s).
Proof. unfold add_func. repeat first [never_step | case_bool_decide]. Qed.

Lemma never_accumulate p s : never OutOfFuel (accumulate p s).
Proof.
  unfold accumulate. destruct p as [x dx].
  repeat first
    [ apply never_set_grad | apply never_py_add | apply never_add_func | never_step ].
Qed.

Lemma never_iteration retain s : never OutOfFuel (iteration retain s).
Proof.
  unfold iteration.
  repeat first
    [ apply never_backward_rule | apply never_accumulate | apply never_set_grad
    | never_step ].
Qed.

Lemma never_backward_init v : never OutOfFuel (backward_init v).
Proof.
  unfold backward_init.
  repeat first
    [ apply never_new_variable | apply never_set_grad | apply never_add_func | never_step ].
Qed.

Lemma loop_inv_count hb h s :
  loop_inv hb h s -> length (processed s) + length (worklist s) <= length (funcs hb).
Proof.
  intros [_ Hseen [_ _ Hnw Hnp Hsw Hsp Hd]].
  rewrite <- length_app.
  assert (processed s ++ worklist s ⊆+ seq 0 (length (funcs hb))) as Hsub;
    [|apply submseteq_length in Hsub; by rewrite length_seq in Hsub].
  apply NoDup_submseteq.
  - apply NoDup_app. split; [done|]. split; [|done].
    intros f Hp Hw. by apply (Hd f).
  - intros f Hf. apply elem_of_seq. split; [lia|]. cbn.
    unfold valid_funcs in Hseen. rewrite Forall_forall in Hseen.
    apply lookup_lt_is_Some_1, Hseen.
    apply elem_of_app in Hf as [?|?]; [by apply Hsp|by apply Hsw].
Qed.

Lemma loop_fold hb (l : list (nat * pyval)) :
  wf hb ->
  Forall (fun p => is_Some (vars hb !! fst p)) l ->
  forall s h s' h',
    evolves hb h -> valid_funcs hb (seen_set s) ->
    mfold accumulate l s h = (Ok s', h') ->
    valid_funcs hb (seen_set s') /\ processed s' = processed s.
Proof.
  intros Hwf Hl. induction Hl as [|[x dx] l [xb Hxb] Hl IH];
    intros s h s' h' Hev Hseen H; cbn [mfold] in H.
  - inv_prim H. done.
  - inv_bind H. pose proof (accumulate_evolves _ _ _ _ _ E) as Hev1.
    assert (valid_funcs hb (seen_set a) /\ processed a = processed s) as [Hseen1 Hp1].
    { apply accumulate_inv in E
        as (xv & h1 & g' & Hxv & _ & _ & -> & [[_ ->]|(c & Hc & Hadd)]); [done|].
      destruct (ev_vars _ _ Hev _ _ Hxb) as (xv' & Hxv' & _ & Hcr & _).
      cbn [fst] in Hxv'. simplify_eq.
      rewrite Hcr in Hc. destruct (wf_creator _ Hwf _ _ _ Hxb Hc) as (cr & Hcr' & _).
      apply add_func_inv in Hadd as [_ [[_ ->]|(_ & _ & ->)]]; [done|].
      cbn [seen_set processed]. split; [|done]. constructor; [eauto|done]. }
    destruct (IH _ _ _ _ (transitivity Hev Hev1) Hseen1 H) as [? Hp].
    split; [done|congruence].
Qed.

Lemma loop_inv_iteration hb retain h s s' h' :
  wf hb -> loop_inv hb h s -> worklist s <> [] ->
  iteration retain s h = (Ok s', h') ->
  loop_inv hb h' s' /\ length (processed s') = S (length (processed s)).
Proof.
  intros Hwf [Hev Hseen Hok] Hne H.
  pose proof (iteration_evolves _ _ _ _ _ H) as Hev'.
  pose proof (sched_ok_iteration _ _ _ _ _ Hok H) as Hok'.
  destruct (pop (worklist s)) as [[f rest]|] eqn:Hpop; [|by apply pop_None in Hpop].
  apply pop_Some in Hpop.
  destruct (iteration_inv _ _ _ _ _ _ _ Hpop H)
    as (fr & yvs & dxs & h1 & h2 & Hfr & Hyvs & Hrule & Hacc & _).
  assert (is_Some (funcs hb !! f)) as [frb Hfrb].
  { unfold valid_funcs in Hseen. rewrite Forall_forall in Hseen. apply Hseen.
    apply (so_seen_w _ _ Hok). rewrite Hpop. set_solver. }
  rewrite (evolves_lookup_func _ _ _ _ Hev Hfrb) in Hfr. simplify_eq.
  apply loop_fold with (hb := hb) in Hacc as [Hseen' Hp]; try done.
  - split; [|by rewrite Hp]. split; [by etransitivity|done|done].
  - apply Forall_forall. intros [x dx] Hx. apply elem_of_zip_l in Hx. cbn [fst].
    destruct (wf_inputs _ Hwf _ _ _ Hfrb Hx) as (xv & -> & _). eauto.
  - etransitivity; [exact Hev|].
    eapply allocates_evolves, backward_rule_allocates, Hrule.
Qed.

Lemma backward_loop_no_fuel_error hb fuel retain s h :
  wf hb -> loop_inv hb h s ->
  length (funcs hb) <= length (processed s) + fuel ->
  forall h', backward_loop fuel retain s h <> (Raise OutOfFuel, h').
Proof.
  intros Hwf. revert s h. induction fuel as [|n IH]; intros s h Hinv Hlen h' H;
    cbn [backward_loop] in H; destruct (worklist s) as [|w ws] eqn:Hw;
    try (by inv_prim H).
  - pose proof (loop_inv_count _ _ _ Hinv) as Hc. rewrite Hw in Hc. cbn in Hc. lia.
  - apply bind_inv in H as [(s1 & h1 & Hit & H)|(e & Hit & He)].
    + destruct (loop_inv_iteration _ _ _ _ _ _ Hwf Hinv ltac:(by rewrite Hw) Hit)
        as [Hinv1 Hp].
      apply (IH _ _ Hinv1 ltac:(lia) _ H).
    + simplify_eq. by apply never_iteration in Hit.
Qed.

(** X11: the loop of [backward] ends.  On a well-formed graph it handles
    every Function at most once, so it runs no more often than there are
    Function objects when it starts: a run of [backward] either returns
    or raises one of Python's exceptions, it never uses up its iteration
    bound. *)
Theorem backward_loop_terminates (h : store) (y : nat) (retain : bool) :
  wf h -> fst (backward y retain h) <> Raise OutOfFuel.
Proof.
  intros Hwf. destruct (backward y retain h) as [r h'] eqn:H. cbn [fst]. intros ->.
  unfold backward in H. apply bind_inv in H as [(s & h1 & _ & H)|(e & H & He)];
    [by inv_prim H|]. simplify_eq.
  unfold backward_trace in H. apply bind_inv in H as [(s0 & h0 & Hinit & H)|(e & H & He)].
  - rewrite bind_get_store in H.
    assert (exists f0, the_creator h y = Some f0) as [f0 Hc].
    { unfold backward_init, the_creator in *. inv_bind Hinit.
      apply get_var_inv in E as [-> [(xv & Hxv & ?)|[_ ?]]]; simplify_eq.
      rewrite Hxv. inv_bind Hinit.
      destruct (creator xv); [eauto|]. cbn [add_func] in Hinit. by inv_prim Hinit. }
    destruct (pass_inv_init _ _ _ _ _ Hwf Hc Hinit) as (Hwf0 & Hev & Hinv).
    assert (loop_inv h0 h0 s0) as Hli.
    { split; [reflexivity| |by eapply sched_ok_init].
      apply Forall_forall. intros f Hf. by apply (pi_valid _ _ _ _ _ _ Hinv). }
    apply (backward_loop_no_fuel_error h0 (length (funcs h0)) retain s0 h0 Hwf0 Hli
             ltac:(lia) _ H).
  - simplify_eq. by apply never_backward_init in H.
Qed.

Lemma backward_loop_terminates_witness :
  fst (backward 3 false two_negs_store) <> Raise OutOfFuel.
Proof. exact (backward_loop_terminates two_negs_store 3 false two_negs_store_wf). Defined.

(** [backward] on the output of a call with one leaf input. *)
Lemma backward_after_call1 o h x xv y sv (retain : bool) :
  enable_backprop h = true ->
  vars h !! x = Some xv -> grad xv = PyNone -> creator xv = None ->
  forward o [data xv] = Ok (y, sv) ->
  exists h2 fr,
    fn_class fr = o /\ saved fr = sv /\ inputs fr = [x] /\
    enable_backprop h2 = true /\
    vars h2 !! x = Some xv /\
    vars h2 !! S (length (vars h)) = Some (leaf_with (Some (Np.ones (Np.shape y)))) /\
    length (vars h2) = S (S (length (vars h))) /\
    forall dx h3,
      backward_rule fr [PyVar (S (length (vars h)))] h2 = (Ok [dx], h3) ->
      exists h',
        (r <- call o [PyVar x] ;; backward r retain) h = (Ok tt, h') /\
        the_grad h' x = dx /\
        the_grad h' (length (vars h)) = (if retain then PyVar (S (length (vars h))) else PyNone) /\
        data_at h' (length (vars h)) = Some y /\
        forall v, v <> x -> v <> length (vars h) -> vars h' !! v = vars h3 !! v.
Proof.
  intros Hen Hx Hg Hc Hfw.
  pose proof (call_var1 _ _ _ _ _ _ Hx Hfw Hen) as Hcall.
  set (z := length (vars h)) in *. set (f := length (funcs h)) in *.
  set (h1 := tracked_store o [x] [xv] y sv h) in *.
  set (zv := {| data := Some y; grad := PyNone; creator := Some f;
                generation := max_list (generation <$> [xv]) + 1 |}).
  set (fr := {| fn_class := o; saved := sv;
                fn_generation := max_list (generation <$> [xv]);
                inputs := [x]; outputs := [z] |}).
  assert (x < z) as Hlt by (by eapply lookup_lt_Some).
  assert (vars h1 !! z = Some zv) as Hz1 by apply lookup_snoc_length.
  assert (funcs h1 !! f = Some fr) as Hf1 by apply lookup_snoc_length.
  assert (length (vars h1) = S z) as Hl1.
  { unfold h1, tracked_store. cbn [vars]. rewrite length_app. cbn. unfold z. lia. }
  pose proof (backward_init_run z h1 zv y f Hz1 eq_refl eq_refl eq_refl
                (ex_intro _ _ Hf1)) as Hinit.
  rewrite Hl1 in Hinit.
  set (h2 := update_var z (with_grad (PyVar (S z)) zv)
               (add_vars [leaf_with (Some (Np.ones (Np.shape y)))] h1)) in *.
  assert (vars h2 !! x = Some xv) as Hx2.
  { unfold h2. rewrite lookup_update_var_ne by lia.
    by apply lookup_add_vars_old, lookup_tracked_old. }
  assert (vars h2 !! z = Some (with_grad (PyVar (S z)) zv)) as Hz2.
  { unfold h2. apply (lookup_update_var_eq _ _ _ zv). apply lookup_add_vars_old. exact Hz1. }
  assert (funcs h2 !! f = Some fr) as Hf2 by exact Hf1.
  exists h2, fr. repeat (split; [done|]).
  split.
  { unfold h2. rewrite lookup_update_var_ne by lia.
    unfold add_vars. cbn [vars]. rewrite <- Hl1. apply lookup_snoc_length. }
  split.
  { unfold h2, update_var, add_vars. cbn [vars].
    rewrite length_insert, length_app, Hl1. cbn. lia. }
  intros dx h3 Hrule.
  pose proof (backward_rule_allocates _ _ _ _ _ Hrule) as Hal.
  pose proof (allocates_lookup_var _ _ _ _ Hal Hx2) as Hx3.
  pose proof (allocates_lookup_var _ _ _ _ Hal Hz2) as Hz3.
  set (h4 := update_var x (with_grad dx xv) h3).
  assert (vars h4 !! z = Some (with_grad (PyVar (S z)) zv)) as Hz4.
  { unfold h4. rewrite lookup_update_var_ne by lia. done. }
  set (h5 := if retain then h4
             else update_var z (with_grad PyNone (with_grad (PyVar (S z)) zv)) h4).
  exists h5. split.
  { rewrite (bind_ok _ _ _ _ _ Hcall). fold z.
    eapply (backward_run _ _ _ _ _ {| worklist := []; seen_set := [f]; processed := [f] |});
      [exact Hinit|done| | |reflexivity].
    { intros Hnil. by rewrite Hnil in Hf2. }
    eapply (iteration_run retain _ h2 f [] fr [with_grad (PyVar (S z)) zv] [dx] h3 _ h4 h5).
    - done.
    - exact Hf2.
    - apply mapM_Some. apply Forall2_cons_2; [exact Hz2|apply Forall2_nil_2].
    - exact Hrule.
    - cbn [inputs fr zip zip_with mfold].
      rewrite (bind_ok _ _ _ _ _ (accumulate_leaf _ _ _ _ _ Hx3 Hg Hc)).
      reflexivity.
    - unfold h5. destruct retain; [done|]. cbn [outputs fr mfold].
      rewrite (bind_set_grad _ _ _ _ _ Hz4). done. }
  assert (forall v, v <> z -> vars h5 !! v = vars h4 !! v) as H54.
  { intros v Hv. unfold h5. destruct retain; [done|]. by rewrite lookup_update_var_ne. }
  split.
  { unfold the_grad. rewrite H54 by lia. unfold h4.
    by rewrite (lookup_update_var_eq _ _ _ _ Hx3). }
  split.
  { unfold the_grad, h5. destruct retain.
    - by rewrite Hz4.
    - by rewrite (lookup_update_var_eq _ _ _ _ Hz4). }
  split.
  { unfold data_at, h5. destruct retain.
    - by rewrite Hz4.
    - by rewrite (lookup_update_var_eq _ _ _ _ Hz4). }
  intros v Hvx Hvz. rewrite H54 by done. unfold h4.
  by rewrite lookup_update_var_ne.
Qed.

(** X12: [reshape] and its backward rule.  For a leaf [x] with data [a]
    and a shape [s] other than that of [a] with as many elements, the
    gradient of [x] after [reshape(x, s).backward()] is the array of ones
    of the shape of [a]: the rule reshapes the gradient back.  When [s]
    is the shape of [a], [reshape] returns [x] itself and records
    nothing; when [s] has another number of elements it raises
    ValueError and leaves the store as it was. *)
Theorem reshape_backward_restores_shape (h : store) (x : nat) (a : Np.ndarray)
    (s : list nat) (retain : bool) :
  enable_backprop h = true -> leaf_at h x a ->
  (Np.shape a = s -> reshape (PyVar x) s h = (Ok x, h)) /\
  (Np.size_of s <> Np.size_of (Np.shape a) ->
   reshape (PyVar x) s h = (Raise ValueError, h)) /\
  (Np.shape a <> s -> Np.size_of s = Np.size_of (Np.shape a) ->
   exists h',
     (y <- reshape (PyVar x) s ;; backward y retain) h = (Ok tt, h') /\
     data_at h' (length (vars h)) = Some {| Np.shape := s; Np.elems := Np.elems a |} /\
     grad_data h' x = Some (Np.ones (Np.shape a))).
Proof.
  intros Hen (xv & Hx & Hd & Hg & Hc).
  assert (forall B (k : list nat -> M B),
            bind (shape_of (PyVar x)) k h = k (Np.shape a) h) as Hshape.
  { intros B k. cbn [shape_of]. by rewrite (bind_ok _ _ _ _ _ (var_shape_ok _ _ _ _ Hx Hd)). }
  split; [|split].
  - intros <-. unfold reshape. rewrite Hshape. by rewrite bool_decide_eq_true_2.
  - intros Hsz. unfold reshape. rewrite Hshape.
    rewrite bool_decide_eq_false_2 by (intros Heq; apply Hsz; by rewrite Heq).
    apply (call_var1_raise _ _ _ _ _ Hx). rewrite Hd. cbn [forward]. unfold Np.reshape.
    by rewrite (proj2 (Nat.eqb_neq _ _) Hsz).
  - intros Hne Hsz.
    set (y := {| Np.shape := s; Np.elems := Np.elems a |}).
    assert (forward (Reshape s) [data xv] = Ok (y, [Np.shape a])) as Hfw.
    { rewrite Hd. cbn [forward]. unfold Np.reshape.
      by rewrite (proj2 (Nat.eqb_eq _ _) Hsz). }
    destruct (backward_after_call1 (Reshape s) h x xv y _ retain Hen Hx Hg Hc Hfw)
      as (h2 & fr & Hcls & Hsv & Hin & Hen2 & Hx2 & Hseed & Hlen & Hrun).
    set (g := S (length (vars h))) in *.
    assert (forward (Reshape (Np.shape a)) [Some (Np.ones s)]
            = Ok (Np.ones (Np.shape a), [s])) as Hfwb.
    { cbn [forward]. unfold Np.reshape. cbn [Np.ones Np.shape Np.elems].
      rewrite (proj2 (Nat.eqb_eq _ _) (eq_sym Hsz)). unfold Np.ones. by rewrite Hsz. }
    pose proof (call_var1 (Reshape (Np.shape a)) g h2 _ _ _ Hseed Hfwb Hen2) as Hcb.
    rewrite Hlen in Hcb.
    assert (backward_rule fr [PyVar g] h2
            = (Ok [PyVar (S g)],
               tracked_store (Reshape (Np.shape a)) [g]
                 [leaf_with (Some (Np.ones (Np.shape y)))] (Np.ones (Np.shape a)) [s] h2))
      as Hrule.
    { unfold backward_rule. rewrite Hcls, Hsv. unfold reshape. cbn [shape_of].
      rewrite bind_bind.
      rewrite (bind_ok _ _ _ _ _ (var_shape_ok _ _ _ _ Hseed eq_refl)).
      cbn [Np.ones Np.shape y].
      rewrite bool_decide_eq_false_2 by (intros Heq; by apply Hne).
      by rewrite (bind_ok _ _ _ _ _ Hcb). }
    destruct (Hrun _ _ Hrule) as (h' & Hprog & Hgx & Hgz & Hdz & Hframe).
    assert (x < length (vars h)) by (by eapply lookup_lt_Some).
    exists h'. split.
    { unfold reshape. rewrite bind_bind, Hshape.
      rewrite bool_decide_eq_false_2 by done. exact Hprog. }
    split.
    + exact Hdz.
    + erewrite (grad_data_lookup _ _ _ _ Hgx); cycle 1.
      { rewrite Hframe by (unfold g; lia). unfold tracked_store. cbn [vars].
        rewrite <- Hlen. apply lookup_snoc_length. }
      done.
Qed.

Lemma reshape_backward_restores_shape_witness :
  reshape (PyVar 1) [2] two_leaves_store = (Ok 1, two_leaves_store) /\
  reshape (PyVar 1) [3] two_leaves_store = (Raise ValueError, two_leaves_store) /\
  exists h',
    (y <- reshape (PyVar 1) [1; 2] ;; backward y false) two_leaves_store = (Ok tt, h') /\
    data_at h' 2 = Some {| Np.shape := [1; 2]; Np.elems := [2; 3]%Z |} /\
    grad_data h' 1 = Some (Np.ones [2]).
Proof.
  split; [|split].
  - apply (proj1 (reshape_backward_restores_shape two_leaves_store 1
                    {| Np.shape := [2]; Np.elems := [2; 3]%Z |} [2] false
                    eq_refl two_leaves_store_1)).
    reflexivity.
  - apply (proj1 (proj2 (reshape_backward_restores_shape two_leaves_store 1
                           {| Np.shape := [2]; Np.elems := [2; 3]%Z |} [3] false
                           eq_refl two_leaves_store_1))).
    cbn. lia.
  - apply (proj2 (proj2 (reshape_backward_restores_shape two_leaves_store 1
                           {| Np.shape := [2]; Np.elems := [2; 3]%Z |} [1; 2] false
                           eq_refl two_leaves_store_1))).
    + discriminate.
    + reflexivity.
Defined.

(** * What [backward] leaves alone *)

(** X13: [backward] assigns gradients and allocates objects, nothing
    else: whatever its outcome, every Variable of the store is still
    there with the data, the creator and the generation it had, the
    Function objects are still there unchanged, and
    [Config.enable_backprop] is what it was. *)
Theorem backward_changes_only_gradients (h : store) (y : nat) (retain : bool) :
  let h' := snd (backward y retain h) in
  (forall v xv, vars h !! v = Some xv ->
     exists xv', vars h' !! v = Some xv' /\ data xv' = data xv /\
                 creator xv' = creator xv /\ generation xv' = generation xv) /\
  (forall f fr, funcs h !! f = Some fr -> funcs h' !! f = Some fr) /\
  enable_backprop h' = enable_backprop h.
Proof.
  cbn zeta. destruct (backward y retain h) as [r h'] eqn:H. cbn [snd].
  pose proof (backward_evolves _ _ _ _ _ H) as [Hv Hf He _].
  split; [exact Hv|]. split; [|exact He].
  intros f fr Hfr. destruct Hf as [k ->]. by apply lookup_app_l_Some.
Qed.

#[global] Instance records_nothing_preorder : PreOrder records_nothing.
Proof.
  split.
  - intros h Hen. done.
  - intros h1 h2 h3 H12 H23 Hen. destruct (H12 Hen) as [Hf Hen2].
    destruct (H23 Hen2) as [Hf3 Hen3]. split; [congruence|done].
Qed.

Lemma put_var_records_nothing v x : preserves records_nothing (put_var v x).
Proof. intros h r h' H Hen. inv_prim H. done. Qed.

Lemma alloc_var_records_nothing x : preserves records_nothing (alloc_var x).
Proof. intros h r h' H Hen. inv_prim H. done. Qed.

Lemma call_records_nothing o args : preserves records_nothing (call o args).
Proof.
  intros h r h' H Hen. apply call_inv in H.
  inversion H as [e ws Hws | ws a Hen' Hws | ws ins xvs a sv Hen' Hws Hins Hxvs Hne Hfw];
    subst; [done|done|congruence].
Qed.

Ltac pres_nothing :=
  repeat first
    [ pres_step
    | apply put_var_records_nothing
    | apply alloc_var_records_nothing
    | apply call_records_nothing
    | case_bool_decide
    | match goal with
      | |- preserves _ (match ?x with _ => _ end) => destruct x
      end ].

Lemma backward_records_nothing y retain : preserves records_nothing (backward y retain).
Proof.
  assert (forall fuel s, preserves records_nothing (backward_loop fuel retain s)) as Hloop.
  { intros fuel. induction fuel as [|n IH]; intros s; cbn [backward_loop].
    - pres_nothing.
    - destruct (worklist s); [pres_nothing|].
      apply preserves_bind; [apply _| |intros s'; apply IH].
      unfold iteration, accumulate, backward_rule, py_neg, py_add, py_mul_var, add_func,
        set_grad, add, mul, neg, transpose, sum_to, broadcast_to, reshape, shape_of,
        var_shape, as_variable, new_variable.
      pres_nothing. }
  unfold backward, backward_trace, backward_init, add_func, set_grad, new_variable.
  pres_nothing. apply Hloop.
Qed.

(** X14: run inside [with no_backward():], [backward] builds no graph
    for the gradients it computes: whatever its outcome, the store has
    the Function objects it had, no more, and [Config.enable_backprop] is
    afterwards what it was before. *)
Theorem backward_without_tracking_records_nothing (h : store) (y : nat) (retain : bool) :
  funcs (snd (no_backward (backward y retain) h)) = funcs h /\
  enable_backprop (snd (no_backward (backward y retain) h)) = enable_backprop h.
Proof.
  unfold no_backward, using_config.
  destruct (backward y retain (set_enable_backprop false h)) as [r h1] eqn:H.
  cbn [snd set_enable_backprop funcs enable_backprop].
  split; [|done].
  by destruct (backward_records_nothing _ _ _ _ _ H eq_refl) as [-> _].
Qed.

(** * The Variables that [backward] does not visit *)

#[global] Instance touches_only_preorder T : PreOrder (touches_only T).
Proof.
  split.
  - by intros h v xv _ Hv.
  - intros h1 h2 h3 H12 H23 v xv HT Hv. by apply H23, H12.
Qed.

Lemma allocates_touches_only T h h' : allocates h h' -> touches_only T h h'.
Proof. intros Hal v xv _ Hv. by eapply allocates_lookup_var. Qed.

Lemma allocates_to_touches {A} T (m : M A) :
  preserves allocates m -> preserves (touches_only T) m.
Proof. apply preserves_weaken, allocates_touches_only. Qed.

Lemma set_grad_touches_only (T : nat -> Prop) x g :
  T x -> preserves (touches_only T) (set_grad x g).
Proof.
  intros Hx h r h' H v xv HT Hv.
  apply set_grad_inv in H as [(x0 & Hx0 & _ & ->)|(_ & _ & ->)]; [|done].
  unfold update_var; cbn [vars]. rewrite list_lookup_insert_ne; [done|].
  intros ->. done.
Qed.

Lemma add_func_touches_only T f s : preserves (touches_only T) (add_func f s).
Proof. intros h r h' H. apply add_func_store in H as ->. reflexivity. Qed.

Lemma accumulate_touches_only (T : nat -> Prop) x dx s :
  T x -> preserves (touches_only T) (accumulate (x, dx) s).
Proof.
  intros Hx. unfold accumulate.
  repeat first
    [ pres_step
    | apply set_grad_touches_only; exact Hx
    | apply add_func_touches_only
    | apply allocates_to_touches, py_add_allocates ].
Qed.

Lemma iteration_body_touches_only (T : nat -> Prop) fr (s0 : sched) (retain : bool) :
  (forall x, x ∈ inputs fr -> T x) -> (forall x, x ∈ outputs fr -> T x) ->
  preserves (touches_only T)
    (dys <- mmap (fun y => yv <- get_var y ;; ret (grad yv)) (outputs fr) ;;
     dxs <- backward_rule fr dys ;;
     s' <- mfold accumulate (zip (inputs fr) dxs) s0 ;;
     (if retain then ret tt
      else mfold (fun y (_ : unit) => set_grad y PyNone) (outputs fr) tt) ;;;
     ret s').
Proof.
  intros Hin Hout.
  apply preserves_bind; [apply _|repeat pres_step|intros dys].
  apply preserves_bind; [apply _|apply allocates_to_touches, backward_rule_allocates|intros dxs].
  apply preserves_bind; [apply _| |intros s'].
  { apply preserves_mfold_Forall; [apply _|]. apply Forall_forall. intros [x dx] Hx s.
    apply accumulate_touches_only, Hin. by apply elem_of_zip_l in Hx. }
  apply preserves_bind; [apply _| |intros ?; apply preserves_ret; apply _].
  destruct retain; [apply preserves_ret; apply _|].
  apply preserves_mfold_Forall; [apply _|]. apply Forall_forall. intros x Hx [].
  by apply set_grad_touches_only, Hout.
Qed.

(** The Function that an iteration takes from the list, in a store that
    extends a well-formed one. *)
Lemma from_ancestors_func hb y h f fr :
  wf hb -> evolves hb h -> funcs h !! f = Some fr ->
  (exists z, ancestor hb y z /\ the_creator hb z = Some f) ->
  funcs hb !! f = Some fr /\
  (forall x, x ∈ inputs fr -> ancestor hb y x /\ is_Some (vars hb !! x)) /\
  (forall x, x ∈ outputs fr -> ancestor hb y x).
Proof.
  intros Hwf Hev Hfr (z & Hz & Hc).
  destruct (wf_creator_outs _ _ _ Hwf Hc) as [Ho [fr0 Hfr0]].
  pose proof (evolves_lookup_func _ _ _ _ Hev Hfr0) as Hfr'.
  assert (fr0 = fr) as -> by congruence.
  split; [done|]. split.
  - intros x Hx. split.
    + eapply ancestor_input; [exact Hz|exact Hc|]. unfold ins. by rewrite Hfr0.
    + eapply wf_ins_valid; [exact Hwf|]. unfold ins. by rewrite Hfr0.
  - intros x Hx. unfold outs in Ho. rewrite Hfr0 in Ho. rewrite Ho in Hx.
    apply list_elem_of_singleton in Hx as ->. done.
Qed.

Lemma iteration_touches_only hb y retain s h r h' :
  wf hb -> evolves hb h -> from_ancestors hb y (worklist s) ->
  iteration retain s h = (r, h') -> touches_only (ancestor hb y) h h'.
Proof.
  intros Hwf Hev Hs H. unfold iteration in H.
  destruct (pop (worklist s)) as [[f rest]|] eqn:Hpop; [|inv_prim H; reflexivity].
  apply pop_Some in Hpop.
  destruct (funcs h !! f) as [fr|] eqn:Hfr; cycle 1.
  { unfold bind at 1 in H. unfold get_func in H. rewrite Hfr in H. simplify_eq. reflexivity. }
  rewrite (bind_get_func _ _ _ _ Hfr) in H.
  destruct (from_ancestors_func hb y h f fr Hwf Hev Hfr) as (_ & Hin & Hout).
  { apply Hs. rewrite Hpop. set_solver. }
  eapply (iteration_body_touches_only (ancestor hb y) fr); [| |exact H].
  - intros x Hx. by apply Hin.
  - exact Hout.
Qed.

Lemma accumulate_all_from_ancestors hb y (l : list (nat * pyval)) :
  wf hb ->
  Forall (fun p => ancestor hb y (fst p) /\ is_Some (vars hb !! fst p)) l ->
  forall s h s' h',
    evolves hb h -> from_ancestors hb y (worklist s) ->
    mfold accumulate l s h = (Ok s', h') ->
    from_ancestors hb y (worklist s').
Proof.
  intros Hwf Hl. induction Hl as [|[x dx] l [Hx [xv0 Hxv0]] _ IH];
    intros s h s' h' Hev Hs H; cbn [mfold] in H.
  - by inv_prim H.
  - inv_bind H. eapply IH; [| |exact H].
    + etransitivity; [exact Hev|]. by eapply accumulate_evolves.
    + cbn [fst] in *.
      apply accumulate_inv in E as (xv & h1 & g' & Hxv & _ & _ & _ & Hc).
      destruct Hc as [[_ ->]|(c & Hc & Hadd)]; [done|].
      destruct (ev_vars _ _ Hev _ _ Hxv0) as (xv' & Hxv' & _ & Hcr & _).
      assert (xv' = xv) as -> by congruence.
      apply add_func_inv in Hadd as [_ [[_ ->]|(_ & _ & ->)]]; [done|].
      cbn [worklist]. intros f Hf. rewrite sort_by_perm in Hf.
      apply elem_of_app in Hf as [Hf|Hf]; [by apply Hs|].
      apply list_elem_of_singleton in Hf as ->.
      exists x. split; [done|]. unfold the_creator. rewrite Hxv0. congruence.
Qed.

Lemma iteration_from_ancestors hb y retain s h s' h' :
  wf hb -> evolves hb h -> from_ancestors hb y (worklist s) ->
  iteration retain s h = (Ok s', h') -> from_ancestors hb y (worklist s').
Proof.
  intros Hwf Hev Hs H.
  destruct (pop (worklist s)) as [[f rest]|] eqn:Hpop; cycle 1.
  { unfold iteration in H. rewrite Hpop in H. by inv_prim H. }
  apply pop_Some in Hpop.
  destruct (iteration_inv _ _ _ _ _ _ _ Hpop H)
    as (fr & yvs & dxs & h1 & h2 & Hfr & _ & Hrule & Hacc & _).
  destruct (from_ancestors_func hb y h f fr Hwf Hev Hfr) as (_ & Hin & _).
  { apply Hs. rewrite Hpop. set_solver. }
  eapply (accumulate_all_from_ancestors hb y); [exact Hwf| | | |exact Hacc].
  - apply Forall_forall. intros [x dx] Hx. apply Hin. by apply elem_of_zip_l in Hx.
  - etransitivity; [exact Hev|].
    apply allocates_evolves. by eapply backward_rule_allocates.
  - cbn [worklist]. intros g Hg. apply Hs. rewrite Hpop. set_solver.
Qed.

Lemma backward_loop_touches_only hb y fuel retain :
  wf hb ->
  forall s h r h',
    evolves hb h -> from_ancestors hb y (worklist s) ->
    backward_loop fuel retain s h = (r, h') -> touches_only (ancestor hb y) h h'.
Proof.
  intros Hwf. induction fuel as [|n IH]; intros s h r h' Hev Hs H; cbn [backward_loop] in H.
  - destruct (worklist s); inv_prim H; reflexivity.
  - destruct (worklist s) eqn:Hw; [inv_prim H; reflexivity|]. rewrite <- Hw in Hs.
    apply bind_inv in H as [(s1 & h1 & E & H)|(e & E & ?)].
    + etransitivity.
      * eapply iteration_touches_only; [exact Hwf|exact Hev|exact Hs|exact E].
      * eapply IH; [| |exact H].
        -- etransitivity; [exact Hev|]. by eapply iteration_evolves.
        -- eapply iteration_from_ancestors; [exact Hwf|exact Hev|exact Hs|exact E].
    + eapply iteration_touches_only; [exact Hwf|exact Hev|exact Hs|exact E].
Qed.

Lemma backward_init_touches_only h y :
  preserves (touches_only (ancestor h y)) (backward_init y).
Proof.
  unfold backward_init.
  repeat first
    [ pres_step
    | apply set_grad_touches_only; constructor
    | apply add_func_touches_only
    | apply allocates_to_touches, new_variable_allocates ].
Qed.

Lemma backward_init_from_ancestors h y s0 h0 :
  backward_init y h = (Ok s0, h0) -> from_ancestors h y (worklist s0).
Proof.
  intros H. unfold backward_init in H.
  destruct (vars h !! y) as [self|] eqn:Hy; cycle 1.
  { unfold bind at 1 in H. unfold get_var in H. rewrite Hy in H. by simplify_eq. }
  rewrite (bind_get_var _ _ _ _ Hy) in H. inv_bind H.
  destruct (creator self) as [f0|] eqn:Hc; [|unfold add_func in H; by inv_prim H].
  apply add_func_inv in H as [_ [[Hin _]|(_ & _ & ->)]]; [set_solver|].
  cbn [worklist]. intros f Hf. rewrite sort_by_perm in Hf.
  apply list_elem_of_singleton in Hf as ->.
  exists y. split; [constructor|]. unfold the_creator. by rewrite Hy.
Qed.

(** X15: [backward] leaves alone what the result does not depend on.  On
    a well-formed graph, a Variable that is not the Variable [y] that
    [backward] is called on and is not reached from it through creators
    and their inputs is, after [y.backward(retain_grad)], exactly what it
    was, gradient included, whether [backward] returns or raises. *)
Theorem backward_leaves_others_alone (h : store) (y : nat) (retain : bool)
    (v : nat) (xv : PyVariable) :
  wf h -> ~ ancestor h y v -> vars h !! v = Some xv ->
  vars (snd (backward y retain h)) !! v = Some xv.
Proof.
  intros Hwf Hv Hxv.
  assert (touches_only (ancestor h y) h (snd (backward y retain h))) as Ht;
    [|by apply Ht].
  destruct (backward y retain h) as [r h'] eqn:H. cbn [snd].
  unfold backward in H.
  assert (exists r', backward_trace y retain h = (r', h')) as [r' H'].
  { apply bind_inv in H as [(s & h1 & E & H)|(e & E & ?)]; [inv_prim H|]; eauto. }
  clear H. unfold backward_trace in H'.
  apply bind_inv in H' as [(s0 & h0 & E & H)|(e & E & ?)].
  - rewrite bind_get_store in H. etransitivity.
    + by eapply backward_init_touches_only.
    + eapply backward_loop_touches_only; [exact Hwf| | |exact H].
      * by eapply backward_init_evolves.
      * by eapply backward_init_from_ancestors.
  - by eapply backward_init_touches_only.
Qed.

Lemma bystander_store_wf : wf bystander_store.
Proof.
  apply (al_wf empty_store); [|apply wf_empty].
  unfold bystander_store, run.
  match goal with |- allocates _ (snd (?m _)) =>
    assert (preserves allocates m) as Hp
  end.
  { unfold neg. pres_alloc. }
  match goal with |- allocates ?h (snd ?r) =>
    apply (Hp h (fst r) (snd r)); by destruct r
  end.
Qed.

Lemma bystander_store_ancestors v : ancestor bystander_store 2 v -> v = 2 \/ v = 0.
Proof.
  induction 1 as [|z f x _ IH Hc Hx]; [by left|].
  destruct IH as [->| ->]; vm_compute in Hc; [|done].
  simplify_eq. vm_compute in Hx. apply list_elem_of_singleton in Hx. by right.
Qed.

Lemma backward_leaves_others_alone_witness :
  wf bystander_store /\ ~ ancestor bystander_store 2 1 /\
  vars bystander_store !! 1 = Some (leaf_with (Some (Np.ones [3]))) /\
  fst (backward 2 false bystander_store) = Ok tt /\
  vars (snd (backward 2 false bystander_store)) !! 1 = Some (leaf_with (Some (Np.ones [3]))).
Proof.
  assert (~ ancestor bystander_store 2 1) as Hn.
  { intros Ha. apply bystander_store_ancestors in Ha. lia. }
  split; [exact bystander_store_wf|]. split; [exact Hn|]. split; [reflexivity|].
  split; [reflexivity|].
  exact (backward_leaves_others_alone bystander_store 2 false 1 _
           bystander_store_wf Hn eq_refl).
Defined.

(** * Retained gradients *)

Lemma keep_inv_allocates hb y cur done h h1 s :
  allocates h h1 -> keep_inv hb y cur done h s -> keep_inv hb y cur done h1 s.
Proof.
  intros Hal [Hev Hkept Hseed Hroot Hseen Hdone Hpend].
  split; try done.
  - etransitivity; [exact Hev|]. by apply allocates_evolves.
  - intros v Hv. rewrite (the_grad_allocates _ _ _ Hal). by apply Hkept.
  - by rewrite (the_grad_allocates _ _ _ Hal).
  - intros f x Hf Hx. rewrite (the_grad_allocates _ _ _ Hal). by eapply Hdone.
  - intros g x Hg Hx. rewrite (the_grad_allocates _ _ _ Hal). by eapply Hpend.
Qed.

Lemma keep_inv_accumulate hb y f done h s x dx s' h' :
  wf hb ->
  keep_inv hb y (Some f) done h s ->
  x ∈ ins hb f -> dx <> PyNone ->
  accumulate (x, dx) s h = (Ok s', h') ->
  keep_inv hb y (Some f) (done ++ [x]) h' s'.
Proof.
  intros Hwf [Hev Hkept Hseed Hroot Hseen Hdone Hpend] Hx Hdx H.
  pose proof (accumulate_evolves _ _ _ _ _ H) as Hev'.
  apply accumulate_inv in H as (xv & h1 & g' & Hxv & Hal & Hcase & Hh' & Hc).
  assert (g' <> PyNone) as Hg'.
  { destruct Hcase as [(_ & -> & _)|[_ Hadd]]; [done|by eapply py_add_not_none]. }
  assert (vars h1 !! x = Some xv) as Hxv1 by (by eapply allocates_lookup_var).
  assert (the_grad h' x <> PyNone) as Hgx.
  { rewrite Hh'. by rewrite (the_grad_update_eq _ _ _ _ Hxv1). }
  assert (forall v, the_grad h v <> PyNone -> the_grad h' v <> PyNone) as G.
  { intros v Hv. destruct (decide (v = x)) as [->|Hne]; [done|].
    rewrite Hh'. by rewrite the_grad_update_ne, (the_grad_allocates _ _ _ Hal). }
  assert (is_Some (vars hb !! x)) as Hxb by (by eapply wf_ins_valid).
  assert (the_creator hb x = creator xv) as Hcx.
  { rewrite <- (the_creator_evolves _ _ _ Hev Hxb). unfold the_creator. by rewrite Hxv. }
  assert (processed s' = processed s /\
          (forall g, g ∈ seen_set s -> g ∈ seen_set s') /\
          (forall g, g ∈ worklist s -> g ∈ worklist s') /\
          (forall c, creator xv = Some c -> c ∈ seen_set s') /\
          (forall g, g ∈ seen_set s' -> g ∈ seen_set s \/ g ∈ worklist s') /\
          (forall g, g ∈ worklist s' -> g ∈ worklist s \/ creator xv = Some g))
    as (Hp & Hss & Hww & Hcs & Hsn & Hwn).
  { destruct Hc as [[Hn ->]|(c & Hc & Hadd)].
    - split; [done|]. split; [done|]. split; [done|].
      split; [intros c; congruence|]. split; intros g Hg; by left.
    - apply add_func_inv in Hadd as [_ [[Hin ->]|(Hnin & _ & ->)]].
      + split; [done|]. split; [done|]. split; [done|].
        split; [intros c' ?; by simplify_eq|]. split; intros g Hg; by left.
      + cbn [worklist seen_set processed].
        split; [done|]. split; [set_solver|].
        split; [intros g Hg; rewrite sort_by_perm; set_solver|].
        split; [intros c' ?; simplify_eq; set_solver|].
        split.
        * intros g Hg. rewrite sort_by_perm. set_solver.
        * intros g Hg. rewrite sort_by_perm in Hg.
          apply elem_of_app in Hg as [?|Hg]; [by left|].
          apply list_elem_of_singleton in Hg as ->. by right. }
  split.
  - by etransitivity.
  - intros v Hv. by apply G, Hkept.
  - by apply G.
  - intros c Hcy. by apply Hss, Hroot.
  - intros g Hg. rewrite Hp. destruct (Hsn g Hg) as [Hgs|Hgw]; [|by left].
    destruct (Hseen g Hgs) as [?|?]; [left; by apply Hww|by right].
  - intros f' x' Hf' Hx'. rewrite Hp in Hf'. unfold handled in *.
    specialize (Hdone f' x' Hf'). case_bool_decide as Hcur.
    + apply elem_of_app in Hx' as [Hx'|Hx'].
      * destruct (Hdone Hx') as [Hgr Hcr]. split; [by apply G|].
        intros c Hcc. by apply Hss, Hcr.
      * apply list_elem_of_singleton in Hx' as ->. split; [done|].
        intros c Hcc. apply Hcs. congruence.
    + destruct (Hdone Hx') as [Hgr Hcr]. split; [by apply G|].
      intros c Hcc. by apply Hss, Hcr.
  - intros g x' Hg Hx'. destruct (Hwn g Hg) as [Hgw|Hgc].
    + apply G. by eapply Hpend.
    + rewrite <- Hcx in Hgc. destruct (wf_creator_outs _ _ _ Hwf Hgc) as [Ho _].
      rewrite Ho in Hx'. by apply list_elem_of_singleton in Hx' as ->.
Qed.

Lemma keep_inv_fold hb y f (l pre : list (nat * pyval)) h s s' h' :
  wf hb ->
  Forall (fun p => fst p ∈ ins hb f /\ snd p <> PyNone) l ->
  keep_inv hb y (Some f) (fst <$> pre) h s ->
  mfold accumulate l s h = (Ok s', h') ->
  keep_inv hb y (Some f) (fst <$> (pre ++ l)) h' s'.
Proof.
  intros Hwf Hq. revert pre h s.
  induction Hq as [|[x dx] l [Hx Hdx] _ IH]; intros pre h s Hinv H; cbn [mfold] in H.
  - inv_prim H. by rewrite app_nil_r.
  - inv_bind H. cbn in Hx, Hdx. rewrite cons_middle, app_assoc.
    apply (IH _ h0 a); [|done].
    rewrite fmap_app. cbn. by eapply keep_inv_accumulate.
Qed.

Lemma keep_inv_iteration hb y h s s' h' :
  wf hb ->
  keep_inv hb y None [] h s -> from_ancestors hb y (worklist s) ->
  iteration true s h = (Ok s', h') ->
  keep_inv hb y None [] h' s'.
Proof.
  intros Hwf Hinv Hfrom H.
  destruct (pop (worklist s)) as [[f rest]|] eqn:Hpop; cycle 1.
  { unfold iteration in H. rewrite Hpop in H. by inv_prim H. }
  apply pop_Some in Hpop.
  destruct (iteration_inv _ _ _ _ _ _ _ Hpop H)
    as (fr & yvs & dxs & h1 & h2 & Hfr & Hyvs & Hrule & Hacc & ->).
  assert (f ∈ worklist s) as Hfw by (rewrite Hpop; set_solver).
  destruct (from_ancestors_func hb y h f fr Hwf (ki_evolves _ _ _ _ _ _ Hinv) Hfr
              (Hfrom f Hfw)) as (Hfb & _ & _).
  assert (ins hb f = inputs fr) as Hins by (unfold ins; by rewrite Hfb).
  assert (outs hb f = outputs fr) as Houts by (unfold outs; by rewrite Hfb).
  assert (Forall (fun dy => dy <> PyNone) (grad <$> yvs)) as Hdys.
  { apply Forall_fmap, Forall_forall. intros yv Hyv. cbn.
    apply list_elem_of_lookup in Hyv as [i Hi]. apply mapM_Some in Hyvs.
    destruct (Forall2_lookup_r _ _ _ _ _ Hyvs Hi) as (z & Hz & Hzl).
    pose proof (ki_pending _ _ _ _ _ _ Hinv f z Hfw) as Hp.
    rewrite Houts in Hp. specialize (Hp (list_elem_of_lookup_2 _ _ _ Hz)).
    unfold the_grad in Hp. by rewrite Hzl in Hp. }
  destruct (backward_rule_results _ _ _ _ _ Hrule) as [Hlen Hnn].
  specialize (Hnn Hdys).
  pose proof (backward_rule_allocates _ _ _ _ _ Hrule) as Hal.
  assert (length (inputs fr) = length dxs) as Hlen'.
  { rewrite Hlen. by apply (wf_arity _ Hwf f). }
  assert (keep_inv hb y (Some f) [] h
            {| worklist := rest; seen_set := seen_set s; processed := f :: processed s |})
    as Hinv1.
  { destruct Hinv as [Hev Hkept Hseed Hroot Hseen Hdone Hpend].
    split; cbn [worklist seen_set processed]; try done.
    - intros g Hg. destruct (Hseen g Hg) as [Hg'|Hg'].
      + rewrite Hpop in Hg'. apply elem_of_app in Hg' as [?|Hg']; [by left|].
        apply list_elem_of_singleton in Hg' as ->. right. set_solver.
      + right. set_solver.
    - intros f' x Hf' Hx. unfold handled in *. case_bool_decide as Hcur.
      + by apply elem_of_nil in Hx.
      + apply elem_of_cons in Hf' as [->|Hf']; [done|].
        apply (Hdone f' x Hf'). by rewrite bool_decide_eq_false_2.
    - intros g x Hg. apply Hpend. rewrite Hpop. set_solver. }
  apply (keep_inv_allocates _ _ _ _ _ _ _ Hal) in Hinv1.
  assert (keep_inv hb y (Some f) (ins hb f) h2 s') as Hinv2.
  { rewrite Hins. rewrite <- (fst_zip (inputs fr) dxs) at 1 by lia.
    eapply (keep_inv_fold hb y f (zip (inputs fr) dxs) [] h1);
      [exact Hwf| |exact Hinv1|exact Hacc].
    apply Forall_forall. intros [x dx] Hp. cbn. split.
    - rewrite Hins. by apply elem_of_zip_l in Hp.
    - apply elem_of_zip_r in Hp. rewrite Forall_forall in Hnn. by apply Hnn. }
  destruct Hinv2 as [Hev Hkept Hseed Hroot Hseen Hdone Hpend].
  split; try done.
  intros f' x Hf' Hx. apply (Hdone f' x Hf').
  unfold handled in Hx |- *. rewrite bool_decide_eq_false_2 in Hx by done.
  case_bool_decide as Hcur; [by simplify_eq|done].
Qed.

Lemma keep_inv_init h y s0 h0 :
  wf h -> backward_init y h = (Ok s0, h0) -> keep_inv h y None [] h0 s0.
Proof.
  intros Hwf H. pose proof (backward_init_evolves _ _ _ _ H) as Hev.
  unfold backward_init in H.
  destruct (vars h !! y) as [yv|] eqn:Hyv; cycle 1.
  { unfold bind at 1 in H. unfold get_var in H. rewrite Hyv in H. by simplify_eq. }
  rewrite (bind_get_var _ _ _ _ Hyv) in H. inv_bind H.
  destruct (creator yv) as [f0|] eqn:Hc; [|unfold add_func in H; by inv_prim H].
  assert (the_creator h y = Some f0) as Hcy by (unfold the_creator; by rewrite Hyv).
  destruct (wf_creator_outs _ _ _ Hwf Hcy) as [Houts Hfv].
  apply add_func_inv in H as [Heq [[Hin _]|(_ & _ & ->)]]; [set_solver|].
  subst h0.
  assert (the_grad h1 y <> PyNone /\
          forall v, the_grad h v <> PyNone -> the_grad h1 v <> PyNone) as [Hgy Hkept].
  { destruct (grad yv) eqn:Hg.
    - destruct (data yv); [|by inv_prim E].
      cbn [new_variable] in E. rewrite bind_alloc_var in E.
      apply set_grad_inv in E as [(w & Hw & _ & ->)|(_ & ? & _)]; [|done].
      split; [by rewrite (the_grad_update_eq _ _ _ _ Hw)|].
      intros v Hv. destruct (decide (v = y)) as [->|Hne].
      + by rewrite (the_grad_update_eq _ _ _ _ Hw).
      + rewrite the_grad_update_ne by done. unfold the_grad, add_vars in *. cbn [vars].
        destruct (vars h !! v) as [xv|] eqn:Hxv; [|done].
        by rewrite (lookup_app_l_Some _ _ _ _ Hxv).
    - inv_prim E. split; [|done]. unfold the_grad. by rewrite Hyv, Hg.
    - inv_prim E. split; [|done]. unfold the_grad. by rewrite Hyv, Hg.
    - inv_prim E. split; [|done]. unfold the_grad. by rewrite Hyv, Hg. }
  cbn [app Np.sort_by foldr Np.insert_by].
  split; cbn [worklist seen_set processed].
  - done.
  - done.
  - done.
  - intros c Hcc. assert (c = f0) as -> by congruence. set_solver.
  - intros f Hf. by left.
  - intros f x Hf. by apply elem_of_nil in Hf.
  - intros g x Hg Hx. apply list_elem_of_singleton in Hg as ->. rewrite Houts in Hx.
    apply list_elem_of_singleton in Hx as ->. done.
Qed.

Lemma reached_keep_inv y h s h1 :
  wf h -> reached y true h s h1 ->
  keep_inv h y None [] h1 s /\ from_ancestors h y (worklist s).
Proof.
  intros Hwf Hr. induction Hr as [s0 h0 Hinit|s1 h1 s2 h2 Hr [Hinv Hfrom] Hne Hit].
  - split; [by apply keep_inv_init|by eapply backward_init_from_ancestors].
  - split; [by eapply keep_inv_iteration|].
    eapply iteration_from_ancestors;
      [exact Hwf|exact (ki_evolves _ _ _ _ _ _ Hinv)|exact Hfrom|exact Hit].
Qed.

(** X16: with [retain_grad=True] every gradient stays.  When
    [y.backward(True)] returns on a well-formed graph, every Variable the
    pass visited, [y] and the intermediate results included, has a
    gradient, and every Variable that had a gradient before still has
    one. *)
Theorem backward_retains_gradients (h : store) (y : nat) (h' : store) :
  wf h -> backward y true h = (Ok tt, h') ->
  (forall x, ancestor h y x -> the_grad h' x <> PyNone) /\
  (forall v, the_grad h v <> PyNone -> the_grad h' v <> PyNone).
Proof.
  intros Hwf H. unfold backward in H. inv_bind H. inv_prim H.
  apply backward_trace_reached in E as [Hr Hw].
  destruct (reached_keep_inv _ _ _ _ Hwf Hr) as [Hinv _].
  split; [|exact (ki_kept _ _ _ _ _ _ Hinv)].
  assert (forall f, f ∈ seen_set a -> f ∈ processed a) as Hall.
  { intros f Hf. destruct (ki_seen _ _ _ _ _ _ Hinv f Hf) as [Hf'|]; [|done].
    rewrite Hw in Hf'. by apply elem_of_nil in Hf'. }
  assert (forall x, ancestor h y x ->
            the_grad h' x <> PyNone /\
            forall c, the_creator h x = Some c -> c ∈ processed a) as Hanc.
  { intros x Hx. induction Hx as [|z f x Hz IH Hcz Hxf].
    - split; [exact (ki_seed _ _ _ _ _ _ Hinv)|].
      intros c Hc. by apply Hall, (ki_root _ _ _ _ _ _ Hinv).
    - destruct IH as [_ Hzc].
      destruct (ki_done _ _ _ _ _ _ Hinv f x (Hzc f Hcz)) as [Hg Hc].
      { unfold handled. by rewrite bool_decide_eq_false_2. }
      split; [done|]. intros c Hcc. by apply Hall, Hc. }
  intros x Hx. by apply Hanc.
Qed.

Lemma backward_retains_gradients_witness :
  wf two_negs_store /\
  fst (backward 3 true two_negs_store) = Ok tt /\
  ancestor two_negs_store 3 1 /\
  the_grad (snd (backward 3 true two_negs_store)) 1 <> PyNone.
Proof.
  assert (ancestor two_negs_store 3 1) as Ha.
  { apply ancestor_input with (z := 3) (f := 2);
      [apply ancestor_self | vm_compute; reflexivity | vm_compute; apply list_elem_of_here]. }
  split; [exact two_negs_store_wf|]. split; [vm_compute; reflexivity|]. split; [exact Ha|].
  exact (proj1 (backward_retains_gradients two_negs_store 3
                  (snd (backward 3 true two_negs_store))
                  two_negs_store_wf eq_refl) 1 Ha).
Defined.

(** * Broadcasting operands and their gradients *)

Lemma broadcast_rev_fits s t r :
  Np.broadcast_rev s t = Some r ->
  (length s <= length r /\ Forall2 (fun sx d => sx = 1 \/ sx = d) s (take (length s) r)) /\
  (length t <= length r /\ Forall2 (fun sx d => sx = 1 \/ sx = d) t (take (length t) r)).
Proof.
  assert (forall l : list nat, Forall2 (fun sx d => sx = 1 \/ sx = d) l l) as Hrefl.
  { intros l. apply Forall2_same_length_lookup_2; [done|]. intros i x y ? ?. right. congruence. }
  revert t r. induction s as [|a s IH]; intros [|b t] r H; cbn in H; simplify_eq.
  - cbn. split; (split; [done|constructor]).
  - split; [split; [cbn; lia|constructor]|]. split; [done|]. by rewrite firstn_all.
  - split; [|split; [cbn; lia|constructor]]. split; [done|]. by rewrite firstn_all.
  - destruct (Np.broadcast_rev s t) as [r'|] eqn:Hr; [|done].
    destruct (IH _ _ Hr) as [[Hls Hs] [Hlt Ht]].
    destruct (a =? b) eqn:Eab.
    { apply Nat.eqb_eq in Eab. simplify_eq. cbn.
      split; (split; [lia|constructor; [by right|done]]). }
    destruct (a =? 1) eqn:Ea.
    { apply Nat.eqb_eq in Ea. simplify_eq. cbn.
      split; (split; [lia|constructor; [|done]]); [by left|by right]. }
    destruct (b =? 1) eqn:Eb; [|done].
    apply Nat.eqb_eq in Eb. simplify_eq. cbn.
    split; (split; [lia|constructor; [|done]]); [by right|by left].
Qed.

Lemma broadcast_shapes_fits s t sz :
  Np.broadcast_shapes s t = Some sz -> fits s sz /\ fits t sz.
Proof.
  unfold Np.broadcast_shapes, fits. intros H.
  destruct (Np.broadcast_rev (reverse s) (reverse t)) as [r|] eqn:Hr; [|done].
  simplify_eq. apply broadcast_rev_fits in Hr as [[Hls Hs] [Hlt Ht]].
  rewrite length_reverse in *.
  split; (split; [done|]).
  - rewrite drop_reverse.
    replace (length r - (length r - length s)) with (length s) by lia.
    rewrite <- (reverse_involutive s) at 1. by apply Forall2_reverse.
  - rewrite drop_reverse.
    replace (length r - (length r - length t)) with (length t) by lia.
    rewrite <- (reverse_involutive t) at 1. by apply Forall2_reverse.
Qed.

(** [sum_to] of a Variable to a shape that fits: the result holds an
    array of that shape, and is the Variable itself or a new one. *)
Lemma sum_to_fits_run h g gv a s :
  vars h !! g = Some gv -> data gv = Some a -> enable_backprop h = true ->
  fits s (Np.shape a) ->
  exists r h1 rv d,
    sum_to (PyVar g) s h = (Ok r, h1) /\ allocates h h1 /\
    vars h1 !! r = Some rv /\ data rv = Some d /\ Np.shape d = s /\
    (r = g \/ length (vars h) <= r).
Proof.
  intros Hg Hd Hen [Hle Hfit].
  assert (exists r h1, sum_to (PyVar g) s h = (Ok r, h1) /\
            exists rv d, vars h1 !! r = Some rv /\ data rv = Some d /\ Np.shape d = s /\
                         (r = g \/ length (vars h) <= r)) as (r & h1 & Hrun & Hres).
  { unfold sum_to. cbn [shape_of].
    rewrite (bind_ok _ _ _ _ _ (var_shape_ok _ _ _ _ Hg Hd)).
    case_bool_decide as Hs.
    - exists g, h. split; [done|]. exists gv, a. eauto.
    - destruct (sum_to_ok_shape a s Hle) as (y & Hy & Hsy).
      assert (Np.shape y = s) as Hys.
      { rewrite Hsy. by apply sum_to_shape_fits. }
      assert (forward (SumTo s) [data gv] = Ok (y, [Np.shape a])) as Hfw.
      { rewrite Hd. cbn [forward]. by rewrite Hy. }
      rewrite (call_var1 _ _ _ _ _ _ Hg Hfw Hen).
      eexists _, _. split; [reflexivity|].
      eexists _, y. unfold tracked_store; cbn [vars].
      split; [apply lookup_snoc_length|]. split; [done|]. split; [done|]. by right. }
  exists r, h1. destruct Hres as (rv & d & ? & ? & ? & ?). exists rv, d.
  split; [done|]. split; [by eapply sum_to_allocates|done].
Qed.

Lemma call_var2_raise o x0 x1 h xv0 xv1 e :
  vars h !! x0 = Some xv0 -> vars h !! x1 = Some xv1 ->
  forward o [data xv0; data xv1] = Raise e ->
  call o [PyVar x0; PyVar x1] h = (Raise e, h).
Proof.
  intros Hx0 Hx1 Hfw. unfold call. cbn [mmap as_variable]. msimpl.
  erewrite bind_mmap_read by (cbn; by rewrite Hx0, Hx1).
  cbn [fmap list_fmap]. by rewrite Hfw.
Qed.

(** X17: the gradient of a broadcast operand has the shape of the
    operand.  For [z = add(x0, x1)] over two distinct leaves of different
    shapes that broadcast together, [z.backward()] returns and leaves on
    each leaf a gradient of the shape of that leaf: the seed summed down
    to it.  When the shapes do not broadcast, [add] raises ValueError and
    leaves the store as it was. *)
Theorem add_broadcast_gradient_shapes (h : store) (x0 x1 : nat) (a0 a1 : Np.ndarray)
    (retain : bool) :
  enable_backprop h = true -> x0 <> x1 ->
  leaf_at h x0 a0 -> leaf_at h x1 a1 -> Np.shape a0 <> Np.shape a1 ->
  match Np.broadcast_shapes (Np.shape a0) (Np.shape a1) with
  | Some _ =>
      exists h' g0 g1,
        (z <- add (PyVar x0) (PyVar x1) ;; backward z retain) h = (Ok tt, h') /\
        grad_data h' x0 = Some g0 /\ Np.shape g0 = Np.shape a0 /\
        grad_data h' x1 = Some g1 /\ Np.shape g1 = Np.shape a1
  | None => add (PyVar x0) (PyVar x1) h = (Raise ValueError, h)
  end.
Proof.
  intros Hen Hne (xv0 & Hx0 & Hd0 & Hg0 & Hc0) (xv1 & Hx1 & Hd1 & Hg1 & Hc1) Hs.
  destruct (Np.broadcast_shapes (Np.shape a0) (Np.shape a1)) as [sz|] eqn:Hb; cycle 1.
  { unfold add. cbn [as_array]. eapply call_var2_raise; [exact Hx0|exact Hx1|].
    rewrite Hd0, Hd1. cbn [forward]. unfold Np.add, Np.binop. by rewrite Hb. }
  destruct (broadcast_shapes_fits _ _ _ Hb) as [Hf0 Hf1].
  set (y := Np.from_fun sz (fun j => (Np.item a0 (Np.source_index (Np.shape a0) j) +
                                      Np.item a1 (Np.source_index (Np.shape a1) j))%Z)).
  assert (forward Add [data xv0; data xv1] = Ok (y, [Np.shape a0; Np.shape a1])) as Hfw.
  { rewrite Hd0, Hd1. cbn [forward]. unfold Np.add, Np.binop. by rewrite Hb. }
  destruct (backward_after_call2 Add h x0 x1 xv0 xv1 y _ retain
              Hen Hne Hx0 Hx1 Hg0 Hg1 Hc0 Hc1 Hfw)
    as (h2 & fr & Hcls & Hsv & Hin & Hen2 & Hx02 & Hx12 & Hseed & Hlen & Hrun).
  set (g := S (length (vars h))) in *.
  assert (Np.shape (Np.ones (Np.shape y)) = sz) as Hsy by done.
  destruct (sum_to_fits_run h2 g _ _ (Np.shape a0) Hseed eq_refl Hen2)
    as (r0 & h3 & rv0 & d0 & Hrun0 & Hal0 & Hr0 & Hdr0 & Hsh0 & Hfresh0);
    [by rewrite Hsy|].
  assert (enable_backprop h3 = true) as Hen3 by (by rewrite (al_enable _ _ Hal0)).
  pose proof (allocates_lookup_var _ _ _ _ Hal0 Hseed) as Hseed3.
  destruct (sum_to_fits_run h3 g _ _ (Np.shape a1) Hseed3 eq_refl Hen3)
    as (r1 & h4 & rv1 & d1 & Hrun1 & Hal1 & Hr1 & Hdr1 & Hsh1 & Hfresh1);
    [by rewrite Hsy|].
  pose proof (allocates_lookup_var _ _ _ _ Hal1 Hr0) as Hr04.
  assert (backward_rule fr [PyVar g] h2 = (Ok [PyVar r0; PyVar r1], h4)) as Hrule.
  { unfold backward_rule. rewrite Hcls, Hsv.
    rewrite bool_decide_eq_true_2 by done.
    rewrite (bind_ok _ _ _ _ _ Hrun0). by rewrite (bind_ok _ _ _ _ _ Hrun1). }
  destruct (Hrun _ _ _ Hrule) as (h' & Hprog & Hgx0 & Hgx1 & Hgz & Hframe).
  assert (x0 < length (vars h)) by (by eapply lookup_lt_Some).
  assert (x1 < length (vars h)) by (by eapply lookup_lt_Some).
  assert (length (vars h2) <= length (vars h3)) as Hl3 by (by apply allocates_length).
  assert (vars h' !! r0 = Some rv0) as Hr0'.
  { rewrite Hframe; [done| | |]; unfold g in *; lia. }
  assert (vars h' !! r1 = Some rv1) as Hr1'.
  { rewrite Hframe; [done| | |]; unfold g in *; lia. }
  exists h', d0, d1. split; [exact Hprog|].
  split; [by rewrite (grad_data_lookup _ _ _ _ Hgx0 Hr0')|]. split; [done|].
  split; [by rewrite (grad_data_lookup _ _ _ _ Hgx1 Hr1')|done].
Qed.

Lemma add_broadcast_gradient_shapes_witness :
  exists h' g0 g1,
    (z <- add (PyVar 0) (PyVar 1) ;; backward z false) broadcast_leaves_store = (Ok tt, h') /\
    grad_data h' 0 = Some g0 /\ Np.shape g0 = [2; 3] /\
    grad_data h' 1 = Some g1 /\ Np.shape g1 = [3].
Proof.
  assert (leaf_at broadcast_leaves_store 0 (Np.ones [2; 3])) as H0.
  { eexists. split; [reflexivity|]. done. }
  assert (leaf_at broadcast_leaves_store 1 (Np.ones [3])) as H1.
  { eexists. split; [reflexivity|]. done. }
  apply (add_broadcast_gradient_shapes broadcast_leaves_store 0 1
           (Np.ones [2; 3]) (Np.ones [3]) false eq_refl); [lia|exact H0|exact H1|done].
Defined.

Lemma can_broadcast_rev_iff s t :
  Np.can_broadcast_rev s t = true <->
  length s <= length t /\ Forall2 (fun sx d => sx = 1 \/ sx = d) s (take (length s) t).
Proof.
  revert t. induction s as [|a s IH]; intros [|b t]; cbn.
  - split; [intros _; split; [done|constructor]|done].
  - split; [intros _; split; [lia|constructor]|done].
  - split; [done|lia].
  - rewrite andb_true_iff, orb_true_iff, !Nat.eqb_eq, IH. split.
    + intros [Hab [Hl Hf]]. split; [lia|]. constructor; [tauto|done].
    + intros [Hl Hf]. apply Forall2_cons_1 in Hf as [Hab Hf].
      split; [tauto|]. split; [lia|done].
Qed.

Lemma can_broadcast_fits s t :
  Np.can_broadcast_rev (reverse s) (reverse t) = true <-> fits s t.
Proof.
  rewrite can_broadcast_rev_iff. unfold fits. rewrite !length_reverse, take_reverse.
  split; intros [Hl Hf]; (split; [done|]).
  - apply Forall2_reverse in Hf. by rewrite !reverse_involutive in Hf.
  - by apply Forall2_reverse.
Qed.

#[global] Instance fits_dec s t : Decision (fits s t).
Proof.
  destruct (Np.can_broadcast_rev (reverse s) (reverse t)) eqn:E.
  - left. by apply can_broadcast_fits.
  - right. intros H. apply can_broadcast_fits in H. congruence.
Defined.

(** [broadcast_to] of a Variable to a shape that its own fits: the result
    holds an array of that shape, and is the Variable itself or a new
    one. *)
Lemma broadcast_to_fits_run h g gv a t :
  vars h !! g = Some gv -> data gv = Some a -> enable_backprop h = true ->
  fits (Np.shape a) t ->
  exists r h1 rv d,
    broadcast_to (PyVar g) t h = (Ok r, h1) /\ allocates h h1 /\
    vars h1 !! r = Some rv /\ data rv = Some d /\ Np.shape d = t /\
    (r = g \/ length (vars h) <= r).
Proof.
  intros Hg Hd Hen Hfit.
  assert (exists r h1, broadcast_to (PyVar g) t h = (Ok r, h1) /\
            exists rv d, vars h1 !! r = Some rv /\ data rv = Some d /\ Np.shape d = t /\
                         (r = g \/ length (vars h) <= r)) as (r & h1 & Hrun & Hres).
  { unfold broadcast_to. cbn [shape_of].
    rewrite (bind_ok _ _ _ _ _ (var_shape_ok _ _ _ _ Hg Hd)).
    case_bool_decide as Hs.
    - exists g, h. split; [done|]. exists gv, a. eauto.
    - assert (exists y, Np.broadcast_to a t = Ok y /\ Np.shape y = t) as (y & Hy & Hys).
      { unfold Np.broadcast_to. rewrite (proj2 (can_broadcast_fits _ _) Hfit). eauto. }
      assert (forward (BroadcastTo t) [data gv] = Ok (y, [Np.shape a])) as Hfw.
      { rewrite Hd. cbn [forward]. by rewrite Hy. }
      rewrite (call_var1 _ _ _ _ _ _ Hg Hfw Hen).
      eexists _, _. split; [reflexivity|].
      eexists _, y. unfold tracked_store; cbn [vars].
      split; [apply lookup_snoc_length|]. split; [done|]. split; [done|]. by right. }
  exists r, h1. destruct Hres as (rv & d & ? & ? & ? & ?). exists rv, d.
  split; [done|]. split; [by eapply broadcast_to_allocates|done].
Qed.

(** What [utils.sum_to] returns broadcasts back to the shape of its
    argument, whatever the requested shape was. *)
Lemma sum_to_shape_fits_back (s xs : list nat) :
  length s <= length xs -> fits (sum_to_shape s xs) xs.
Proof.
  intros Hle. unfold fits, sum_to_shape.
  assert (length (zip_with (fun sx d => if sx =? 1 then 1 else d) s
                    (drop (length xs - length s) xs)) = length s) as Hl.
  { rewrite length_zip_with, length_drop. lia. }
  rewrite Hl. split; [done|].
  apply Forall2_same_length_lookup_2.
  { rewrite Hl, length_drop. lia. }
  intros i v d Hv Hd. apply lookup_zip_with_Some in Hv as (sx & d' & -> & Hsx & Hd').
  assert (d' = d) as -> by congruence.
  destruct (sx =? 1); [by left|by right].
Qed.

(** X18: the gradient that comes back through [broadcast_to] or
    [sum_to] has the shape of the input.  For a leaf [x] with data [a]
    and a shape [s] other than that of [a]: when the shape of [a] fits
    [s], [broadcast_to(x, s).backward()] returns, the output holds an
    array of shape [s] and [x] gets a gradient of the shape of [a]; when
    it does not fit, [broadcast_to] raises ValueError and leaves the
    store as it was; and when [s] has no more axes than [a],
    [sum_to(x, s).backward()] returns and [x] gets a gradient of the
    shape of [a], also when [s] is not a shape that [a] sums to. *)
Theorem broadcast_sum_gradient_shape (h : store) (x : nat) (a : Np.ndarray)
    (s : list nat) (retain : bool) :
  enable_backprop h = true -> leaf_at h x a -> Np.shape a <> s ->
  (fits (Np.shape a) s ->
   exists h' d g,
     (y <- broadcast_to (PyVar x) s ;; backward y retain) h = (Ok tt, h') /\
     data_at h' (length (vars h)) = Some d /\ Np.shape d = s /\
     grad_data h' x = Some g /\ Np.shape g = Np.shape a) /\
  (~ fits (Np.shape a) s -> broadcast_to (PyVar x) s h = (Raise ValueError, h)) /\
  (length s <= Np.ndim a ->
   exists h' g,
     (y <- sum_to (PyVar x) s ;; backward y retain) h = (Ok tt, h') /\
     grad_data h' x = Some g /\ Np.shape g = Np.shape a).
Proof.
  intros Hen (xv & Hx & Hd & Hg & Hc) Hne.
  assert (forall B (k : list nat -> M B),
            bind (shape_of (PyVar x)) k h = k (Np.shape a) h) as Hshape.
  { intros B k. cbn [shape_of]. by rewrite (bind_ok _ _ _ _ _ (var_shape_ok _ _ _ _ Hx Hd)). }
  assert (x < length (vars h)) as Hlt by (by eapply lookup_lt_Some).
  split; [|split].
  - intros Hfit.
    assert (exists y, Np.broadcast_to a s = Ok y /\ Np.shape y = s) as (y & Hy & Hys).
    { unfold Np.broadcast_to. rewrite (proj2 (can_broadcast_fits _ _) Hfit). eauto. }
    assert (forward (BroadcastTo s) [data xv] = Ok (y, [Np.shape a])) as Hfw.
    { rewrite Hd. cbn [forward]. by rewrite Hy. }
    destruct (backward_after_call1 (BroadcastTo s) h x xv y _ retain Hen Hx Hg Hc Hfw)
      as (h2 & fr & Hcls & Hsv & Hin & Hen2 & Hx2 & Hseed & Hlen & Hrun).
    set (g := S (length (vars h))) in *.
    destruct (sum_to_fits_run h2 g _ _ (Np.shape a) Hseed eq_refl Hen2)
      as (r & h3 & rv & d & Hrun0 & Hal & Hr & Hdr & Hsh & Hfresh).
    { cbn [Np.ones Np.shape]. by rewrite Hys. }
    assert (backward_rule fr [PyVar g] h2 = (Ok [PyVar r], h3)) as Hrule.
    { unfold backward_rule. rewrite Hcls, Hsv. by rewrite (bind_ok _ _ _ _ _ Hrun0). }
    destruct (Hrun _ _ Hrule) as (h' & Hprog & Hgx & _ & Hdz & Hframe).
    assert (vars h' !! r = Some rv) as Hr'.
    { rewrite Hframe; [done| |]; unfold g in *; lia. }
    exists h', y, d. split.
    { unfold broadcast_to. rewrite bind_bind, Hshape.
      by rewrite bool_decide_eq_false_2 by done. }
    split; [done|]. split; [done|].
    split; [by rewrite (grad_data_lookup _ _ _ _ Hgx Hr')|done].
  - intros Hfit. unfold broadcast_to. rewrite Hshape.
    rewrite bool_decide_eq_false_2 by done.
    apply (call_var1_raise _ _ _ _ _ Hx). rewrite Hd. cbn [forward].
    unfold Np.broadcast_to.
    destruct (Np.can_broadcast_rev (reverse (Np.shape a)) (reverse s)) eqn:E; [|done].
    by apply can_broadcast_fits in E.
  - intros Hle.
    destruct (sum_to_ok_shape a s Hle) as (y & Hy & Hys).
    assert (forward (SumTo s) [data xv] = Ok (y, [Np.shape a])) as Hfw.
    { rewrite Hd. cbn [forward]. by rewrite Hy. }
    destruct (backward_after_call1 (SumTo s) h x xv y _ retain Hen Hx Hg Hc Hfw)
      as (h2 & fr & Hcls & Hsv & Hin & Hen2 & Hx2 & Hseed & Hlen & Hrun).
    set (g := S (length (vars h))) in *.
    destruct (broadcast_to_fits_run h2 g _ _ (Np.shape a) Hseed eq_refl Hen2)
      as (r & h3 & rv & d & Hrun0 & Hal & Hr & Hdr & Hsh & Hfresh).
    { cbn [Np.ones Np.shape]. rewrite Hys. by apply sum_to_shape_fits_back. }
    assert (backward_rule fr [PyVar g] h2 = (Ok [PyVar r], h3)) as Hrule.
    { unfold backward_rule. rewrite Hcls, Hsv. by rewrite (bind_ok _ _ _ _ _ Hrun0). }
    destruct (Hrun _ _ Hrule) as (h' & Hprog & Hgx & _ & _ & Hframe).
    assert (vars h' !! r = Some rv) as Hr'.
    { rewrite Hframe; [done| |]; unfold g in *; lia. }
    exists h', d. split.
    { unfold sum_to. rewrite bind_bind, Hshape.
      by rewrite bool_decide_eq_false_2 by done. }
    split; [by rewrite (grad_data_lookup _ _ _ _ Hgx Hr')|done].
Qed.

Lemma broadcast_sum_gradient_shape_witness :
  (exists h' d g,
     (y <- broadcast_to (PyVar 1) [2; 3] ;; backward y false) broadcast_leaves_store
       = (Ok tt, h') /\
     data_at h' 2 = Some d /\ Np.shape d = [2; 3] /\
     grad_data h' 1 = Some g /\ Np.shape g = [3]) /\
  (exists h' g,
     (y <- sum_to (PyVar 0) [1; 3] ;; backward y false) broadcast_leaves_store
       = (Ok tt, h') /\
     grad_data h' 0 = Some g /\ Np.shape g = [2; 3]).
Proof.
  assert (leaf_at broadcast_leaves_store 0 (Np.ones [2; 3])) as H0.
  { eexists. split; [reflexivity|]. done. }
  assert (leaf_at broadcast_leaves_store 1 (Np.ones [3])) as H1.
  { eexists. split; [reflexivity|]. done. }
  split.
  - apply (broadcast_sum_gradient_shape broadcast_leaves_store 1 (Np.ones [3]) [2; 3] false
             eq_refl H1); [done|].
    apply can_broadcast_fits. reflexivity.
  - apply (broadcast_sum_gradient_shape broadcast_leaves_store 0 (Np.ones [2; 3]) [1; 3] false
             eq_refl H0); [done|]. cbn. lia.
Defined.

(** * The Functions that a pass handles *)

Lemma accumulate_all_processed (l : list (nat * pyval)) :
  forall s h s' h', mfold accumulate l s h = (Ok s', h') -> processed s' = processed s.
Proof.
  induction l as [|[x dx] l IH]; intros s h s' h' H; cbn [mfold] in H.
  - by inv_prim H.
  - inv_bind H. rewrite (IH _ _ _ _ H).
    apply accumulate_inv in E as (xv & h1 & g' & _ & _ & _ & _ & [[_ ->]|(c & _ & Hadd)]);
      [done|].
    by apply add_func_inv in Hadd as [_ [[_ ->]|(_ & _ & ->)]].
Qed.

Lemma backward_init_creator y h s0 h0 :
  backward_init y h = (Ok s0, h0) ->
  processed s0 = [] /\ exists f0, the_creator h y = Some f0.
Proof.
  intros H. unfold backward_init in H.
  destruct (vars h !! y) as [self|] eqn:Hy; cycle 1.
  { unfold bind at 1 in H. unfold get_var in H. rewrite Hy in H. by simplify_eq. }
  rewrite (bind_get_var _ _ _ _ Hy) in H. inv_bind H.
  destruct (creator self) as [f0|] eqn:Hc; [|unfold add_func in H; by inv_prim H].
  split.
  - by apply add_func_inv in H as [_ [[_ ->]|(_ & _ & ->)]].
  - exists f0. unfold the_creator. by rewrite Hy.
Qed.

Lemma reached_from_ancestors y retain h s h1 :
  wf h -> reached y retain h s h1 ->
  evolves h h1 /\ (exists f0, the_creator h y = Some f0) /\
  from_ancestors h y (worklist s) /\ from_ancestors h y (processed s).
Proof.
  intros Hwf Hr.
  induction Hr as [s0 h0 Hinit|s1 h1 s2 h2 Hr (Hev & Hc & Hw & Hp) Hne Hit].
  - destruct (backward_init_creator _ _ _ _ Hinit) as [Hp Hc].
    split; [by eapply backward_init_evolves|]. split; [done|].
    split; [by eapply backward_init_from_ancestors|].
    rewrite Hp. intros f Hf. by apply elem_of_nil in Hf.
  - split; [etransitivity; [exact Hev|]; by eapply iteration_evolves|].
    split; [done|].
    split; [eapply iteration_from_ancestors; [exact Hwf|exact Hev|exact Hw|exact Hit]|].
    destruct (pop (worklist s1)) as [[f rest]|] eqn:Hpop; [|by apply pop_None in Hpop].
    apply pop_Some in Hpop.
    destruct (iteration_inv _ _ _ _ _ _ _ Hpop Hit)
      as (fr & yvs & dxs & h3 & h4 & _ & _ & _ & Hacc & _).
    apply accumulate_all_processed in Hacc. cbn [processed] in Hacc. rewrite Hacc.
    intros g Hg. apply elem_of_cons in Hg as [->|Hg]; [|by apply Hp].
    apply Hw. rewrite Hpop. set_solver.
Qed.

(** X19: a pass handles exactly the Functions that the result depends
    on, each of them once.  When [y.backward(retain_grad)] returns on a
    well-formed graph, the Functions whose backward rule it has invoked
    are the creators of [y] and of the Variables reached from [y] through
    creators and their inputs, all of them and no other, and none of
    them twice. *)
Theorem backward_visits_dependencies (h : store) (y : nat) (retain : bool)
    (s : sched) (h' : store) :
  wf h -> backward_trace y retain h = (Ok s, h') ->
  NoDup (processed s) /\
  forall f, f ∈ processed s <-> exists z, ancestor h y z /\ the_creator h z = Some f.
Proof.
  intros Hwf H. apply backward_trace_reached in H as [Hr Hw].
  split; [by apply reached_sched_ok in Hr as []|].
  destruct (reached_from_ancestors _ _ _ _ _ Hwf Hr) as (_ & [f0 Hc] & _ & Hfrom).
  intros f. split; [apply Hfrom|]. intros (z & Hz & Hcz). revert f Hcz.
  destruct retain.
  - destruct (reached_keep_inv _ _ _ _ Hwf Hr) as [Hinv _].
    assert (forall g, g ∈ seen_set s -> g ∈ processed s) as Hall.
    { intros g Hg. destruct (ki_seen _ _ _ _ _ _ Hinv g Hg) as [Hg'|]; [|done].
      rewrite Hw in Hg'. by apply elem_of_nil in Hg'. }
    induction Hz as [|z f x Hz IH Hcz Hxf]; intros c Hcc.
    + by apply Hall, (ki_root _ _ _ _ _ _ Hinv).
    + destruct (ki_done _ _ _ _ _ _ Hinv f x (IH f Hcz)) as [_ Hcl].
      { unfold handled. by rewrite bool_decide_eq_false_2. }
      by apply Hall, Hcl.
  - destruct (reached_pass_inv _ _ _ _ _ Hwf Hc Hr) as (hb & Hwfb & Hev & Hinv & Hok).
    assert (forall g, g ∈ seen_set s -> g ∈ processed s) as Hall.
    { intros g Hg. destruct (pi_seen _ _ _ _ _ _ Hinv g Hg) as [Hg'|]; [|done].
      rewrite Hw in Hg'. by apply elem_of_nil in Hg'. }
    assert (is_Some (vars h !! y)) as Hyv.
    { unfold the_creator in Hc. destruct (vars h !! y); [eauto|done]. }
    assert (is_Some (vars h !! z) /\
            forall c, the_creator h z = Some c -> c ∈ processed s) as [_ Hres];
      [|exact Hres].
    induction Hz as [|z f x Hz IH Hcz Hxf].
    + split; [done|]. intros c Hcc. assert (c = f0) as -> by congruence.
      apply Hall, (pi_seed _ _ _ _ _ _ Hinv).
    + destruct IH as [Hzv Hzc].
      destruct (wf_creator_outs _ _ _ Hwf Hcz) as [_ Hfv].
      assert (is_Some (vars h !! x)) as Hxv by (by eapply wf_ins_valid).
      split; [done|]. intros c Hcc.
      apply Hall. eapply (pi_closed _ _ _ _ _ _ Hinv f x c).
      * by apply Hzc.
      * unfold handled. rewrite bool_decide_eq_false_2 by done.
        by rewrite (ins_evolves _ _ _ Hev Hfv).
      * by rewrite (the_creator_evolves _ _ _ Hev Hxv).
Qed.


Lemma backward_visits_dependencies_witness :
  wf two_negs_store /\
  fst (backward_trace 3 false two_negs_store)
  = Ok {| worklist := []; seen_set := [1; 0; 2]; processed := [0; 1; 2] |} /\
  (forall f, f ∈ [0; 1; 2] <->
     exists z, ancestor two_negs_store 3 z /\ the_creator two_negs_store z = Some f).
Proof.
  assert (backward_trace 3 false two_negs_store
          = (Ok {| worklist := []; seen_set := [1; 0; 2]; processed := [0; 1; 2] |},
             snd (backward_trace 3 false two_negs_store))) as Hrun.
  { vm_compute. reflexivity. }
  split; [exact two_negs_store_wf|]. split; [by rewrite Hrun|].
  exact (proj2 (backward_visits_dependencies two_negs_store 3 false _ _
                  two_negs_store_wf Hrun)).
Defined.
